(** * The reading helper of the dynamic Patricia trie (format v3)

    A shallow embedding of
    [suggest/policyimpl/dictionary/structure/v3/dynamic_patricia_trie_reading_helper.cpp]
    and the properties of its navigation, traversal, lookup and reverse
    reconstruction routines.

    Conventions.
    - A C++ [int] is a [Z].  Signed overflow is undefined behaviour in C++, so
      the embedding describes the executions in which no [int] operation
      overflows; the counters of the reading state are kept below the two
      ceilings by the code itself.
    - The helper object is a record that is passed in and handed back.
    - The two mutually recursive navigation routines and the [while] loops
      take a [fuel : nat]; running out of fuel is [None] / [OutOfFuel],
      which never stands for a value the code returns.
    - Reads and writes of C arrays are partial: an index outside the array is
      a [Fault], not a value. *)

From stdpp Require Import list.
From Stdlib Require Import ZArith Lia Permutation.
From Stdlib Require Strings.Byte.

Local Open Scope Z_scope.

(** ** Constants of the translation unit (lines 27-29) *)

Definition MAX_CHILD_COUNT_TO_AVOID_INFINITE_LOOP : Z := 100000.
Definition MAX_PT_NODE_ARRAY_COUNT_TO_AVOID_INFINITE_LOOP : Z := 100000.

(** ** What the translation unit takes from elsewhere *)

(** The three macros of [defines.h] the file uses.  Their values are not
    fixed here; the development is parametric in them. *)
Class Defines := {
  NOT_A_DICT_POS : Z;
  NOT_A_PROBABILITY : Z;
  MAX_WORD_LENGTH : nat
}.

(** A decoded node record, as seen through the accessors the file calls.
    [getCodePoints] holds the merged code points of the node, the slots of
    the array below its code point count. *)
Record PtNodeParams := mkPtNodeParams {
  isValid : bool;
  getHeadPos : Z;
  isTerminal : bool;
  hasChildren : bool;
  getCodePoints : list Z;
  getProbability : Z;
  getParentPos : Z;
  getChildrenPos : Z;
  getSiblingNodePos : Z
}.

(** The code point count of a record, an unsigned quantity. *)
Definition getCodePointCount (ptNodeParams : PtNodeParams) : nat :=
  length (getCodePoints ptNodeParams).

(** The collaborators: [BufferWithExtendableBuffer], the array-size and
    forward-link decoders of the reading utilities, the node reader and
    [CharUtils::toLowerCase]. *)
Class Dictionary := {
  getTailPosition : Z;
  isInAdditionalBuffer : Z -> bool;
  getOriginalBufferSize : Z;
  getBuffer : bool -> list Byte.byte;
  getPtNodeArraySizeAndAdvancePosition : list Byte.byte -> Z -> Z * Z;
  getForwardLinkPosition : list Byte.byte -> Z -> Z;
  isValidForwardLinkPosition : Z -> bool;
  fetchNodeInfoInBufferFromPtNodePos : Z -> PtNodeParams;
  toLowerCase : Z -> Z
}.

(** ** The reading state and the helper object *)

Record ReadingState := mkReadingState {
  mPos : Z;
  mRemainingPtNodeCountInThisArray : Z;
  mTotalCodePointCountSinceInitialization : Z;
  mTotalPtNodeIndexInThisArrayChain : Z;
  mPtNodeArrayIndexInThisArrayChain : Z;
  mPosOfLastForwardLinkField : Z;
  mPosOfThisPtNodeArrayHead : Z
}.

(** [mReadingStateStack] is the [std::vector]; its back is the head of the
    list. *)
Record Helper := mkHelper {
  mIsError : bool;
  mReadingState : ReadingState;
  mReadingStateStack : list ReadingState
}.

Definition setPos (rs : ReadingState) (v : Z) : ReadingState :=
  mkReadingState v (mRemainingPtNodeCountInThisArray rs)
    (mTotalCodePointCountSinceInitialization rs)
    (mTotalPtNodeIndexInThisArrayChain rs)
    (mPtNodeArrayIndexInThisArrayChain rs)
    (mPosOfLastForwardLinkField rs) (mPosOfThisPtNodeArrayHead rs).

Definition setRemaining (rs : ReadingState) (v : Z) : ReadingState :=
  mkReadingState (mPos rs) v
    (mTotalCodePointCountSinceInitialization rs)
    (mTotalPtNodeIndexInThisArrayChain rs)
    (mPtNodeArrayIndexInThisArrayChain rs)
    (mPosOfLastForwardLinkField rs) (mPosOfThisPtNodeArrayHead rs).

Definition setTotalCodePointCount (rs : ReadingState) (v : Z) : ReadingState :=
  mkReadingState (mPos rs) (mRemainingPtNodeCountInThisArray rs) v
    (mTotalPtNodeIndexInThisArrayChain rs)
    (mPtNodeArrayIndexInThisArrayChain rs)
    (mPosOfLastForwardLinkField rs) (mPosOfThisPtNodeArrayHead rs).

Definition setTotalPtNodeIndex (rs : ReadingState) (v : Z) : ReadingState :=
  mkReadingState (mPos rs) (mRemainingPtNodeCountInThisArray rs)
    (mTotalCodePointCountSinceInitialization rs) v
    (mPtNodeArrayIndexInThisArrayChain rs)
    (mPosOfLastForwardLinkField rs) (mPosOfThisPtNodeArrayHead rs).

Definition setPtNodeArrayIndex (rs : ReadingState) (v : Z) : ReadingState :=
  mkReadingState (mPos rs) (mRemainingPtNodeCountInThisArray rs)
    (mTotalCodePointCountSinceInitialization rs)
    (mTotalPtNodeIndexInThisArrayChain rs) v
    (mPosOfLastForwardLinkField rs) (mPosOfThisPtNodeArrayHead rs).

Definition setPosOfLastForwardLinkField (rs : ReadingState) (v : Z)
  : ReadingState :=
  mkReadingState (mPos rs) (mRemainingPtNodeCountInThisArray rs)
    (mTotalCodePointCountSinceInitialization rs)
    (mTotalPtNodeIndexInThisArrayChain rs)
    (mPtNodeArrayIndexInThisArrayChain rs) v (mPosOfThisPtNodeArrayHead rs).

Definition setPosOfThisPtNodeArrayHead (rs : ReadingState) (v : Z)
  : ReadingState :=
  mkReadingState (mPos rs) (mRemainingPtNodeCountInThisArray rs)
    (mTotalCodePointCountSinceInitialization rs)
    (mTotalPtNodeIndexInThisArrayChain rs)
    (mPtNodeArrayIndexInThisArrayChain rs) (mPosOfLastForwardLinkField rs) v.

Definition setReadingState (h : Helper) (rs : ReadingState) : Helper :=
  mkHelper (mIsError h) rs (mReadingStateStack h).

Definition setStack (h : Helper) (st : list ReadingState) : Helper :=
  mkHelper (mIsError h) (mReadingState h) st.

Section Navigation.
Context {defs : Defines} {dict : Dictionary}.

(** The two statements [mIsError = true; mReadingState.mPos = NOT_A_DICT_POS;]
    that close every failing branch. *)
Definition raiseError (h : Helper) : Helper :=
  mkHelper true (setPos (mReadingState h) NOT_A_DICT_POS)
    (mReadingStateStack h).

(** [mReadingState.mPos < 0 || mReadingState.mPos >= mBuffer->getTailPosition()] *)
Definition outOfDictionary (pos : Z) : bool :=
  (pos <? 0) || (getTailPosition <=? pos).

(** The body of [followForwardLink] (lines 311-340); [next] is the call of
    [nextPtNodeArray] at line 335. *)
Definition followForwardLinkWith (next : Helper -> option Helper) (h : Helper)
  : option Helper :=
  let rs := mReadingState h in
  if outOfDictionary (mPos rs) then Some (raiseError h)
  else
    let usesAdditionalBuffer := isInAdditionalBuffer (mPos rs) in
    let dictBuf := getBuffer usesAdditionalBuffer in
    let rs :=
      if usesAdditionalBuffer then setPos rs (mPos rs - getOriginalBufferSize)
      else rs in
    let forwardLinkPosition := getForwardLinkPosition dictBuf (mPos rs) in
    let rs :=
      if usesAdditionalBuffer then setPos rs (mPos rs + getOriginalBufferSize)
      else rs in
    let rs := setPosOfLastForwardLinkField rs (mPos rs) in
    if isValidForwardLinkPosition forwardLinkPosition then
      next (setReadingState h (setPos rs (mPos rs + forwardLinkPosition)))
    else
      Some (setReadingState h (setPos rs NOT_A_DICT_POS)).

(** The part of [nextPtNodeArray] between the bounds check and the ceiling
    check (lines 270-285): the reading state after the array size has been
    decoded and the two counters have been counted up. *)
Definition readPtNodeArrayInfo (rs : ReadingState) : ReadingState :=
  let rs := setPosOfThisPtNodeArrayHead rs (mPos rs) in
  let usesAdditionalBuffer := isInAdditionalBuffer (mPos rs) in
  let dictBuf := getBuffer usesAdditionalBuffer in
  let rs :=
    if usesAdditionalBuffer then setPos rs (mPos rs - getOriginalBufferSize)
    else rs in
  let '(size, pos) := getPtNodeArraySizeAndAdvancePosition dictBuf (mPos rs) in
  let rs := setRemaining (setPos rs pos) size in
  let rs :=
    if usesAdditionalBuffer then setPos rs (mPos rs + getOriginalBufferSize)
    else rs in
  let rs :=
    setTotalPtNodeIndex rs
      (mTotalPtNodeIndexInThisArrayChain rs
       + mRemainingPtNodeCountInThisArray rs) in
  setPtNodeArrayIndex rs (mPtNodeArrayIndexInThisArrayChain rs + 1).

(** The condition of line 286. *)
Definition invalidPtNodeArrayInfo (rs : ReadingState) : bool :=
  (mRemainingPtNodeCountInThisArray rs <? 0)
  || (MAX_CHILD_COUNT_TO_AVOID_INFINITE_LOOP
      <? mTotalPtNodeIndexInThisArrayChain rs)
  || (MAX_PT_NODE_ARRAY_COUNT_TO_AVOID_INFINITE_LOOP
      <? mPtNodeArrayIndexInThisArrayChain rs).

(** [nextPtNodeArray] (lines 260-308).  One unit of fuel is one activation. *)
Fixpoint nextPtNodeArray (fuel : nat) (h : Helper) : option Helper :=
  match fuel with
  | O => None
  | S fuel' =>
    if outOfDictionary (mPos (mReadingState h)) then Some (raiseError h)
    else
      let rs := readPtNodeArrayInfo (mReadingState h) in
      if invalidPtNodeArrayInfo rs then Some (raiseError (setReadingState h rs))
      else if mRemainingPtNodeCountInThisArray rs =? 0 then
        followForwardLinkWith (nextPtNodeArray fuel') (setReadingState h rs)
      else Some (setReadingState h rs)
  end.

(** [followForwardLink] (lines 311-340). *)
Definition followForwardLink (fuel : nat) (h : Helper) : option Helper :=
  followForwardLinkWith (nextPtNodeArray fuel) h.

(** The array size field at an absolute position, read from the buffer
    the position lies in, with the position moved past the field. *)
Definition arraySizeAt (pos : Z) : Z * Z :=
  let usesAdditionalBuffer := isInAdditionalBuffer pos in
  let '(size, next) :=
    getPtNodeArraySizeAndAdvancePosition (getBuffer usesAdditionalBuffer)
      (if usesAdditionalBuffer then pos - getOriginalBufferSize else pos) in
  (size, if usesAdditionalBuffer then next + getOriginalBufferSize else next).

(** The forward link field at an absolute position. *)
Definition forwardLinkAt (pos : Z) : Z :=
  let usesAdditionalBuffer := isInAdditionalBuffer pos in
  getForwardLinkPosition (getBuffer usesAdditionalBuffer)
    (if usesAdditionalBuffer then pos - getOriginalBufferSize else pos).

(** What a helper becomes when a move made from the bare cursor is made
    with an error flag [e] already up or down and a stack [st] in place. *)
Definition reframe (e : bool) (st : list ReadingState) (h : Helper) : Helper :=
  mkHelper (e || mIsError h) (mReadingState h) st.

End Navigation.

(** ** Results of the loops and of the array accesses *)

Inductive Fault :=
| InputWordIndexOutOfRange
| SearchIndexOutOfRange
| NodeCodePointIndexOutOfRange
| ReverseBufferIndexOutOfRange
| ReverseBufferUninitialised
| OutputIndexOutOfRange.

Inductive Outcome (A : Type) :=
| Ok (a : A)
| Faulted (f : Fault)
| OutOfFuel.
Arguments Ok {A} a.
Arguments Faulted {A} f.
Arguments OutOfFuel {A}.

Definition bindOutcome {A B : Type} (m : Outcome A) (k : A -> Outcome B)
  : Outcome B :=
  match m with
  | Ok a => k a
  | Faulted f => Faulted f
  | OutOfFuel => OutOfFuel
  end.

Notation "'let*' x ':=' m 'in' k" := (bindOutcome m (fun x => k))
  (at level 10, x name, m at level 100, k at level 200).

Definition ofOption {A : Type} (f : Fault) (o : option A) : Outcome A :=
  match o with Some a => Ok a | None => Faulted f end.

Definition ofFuel {A : Type} (o : option A) : Outcome A :=
  match o with Some a => Ok a | None => OutOfFuel end.

(** [a[i]] for an [int] index. *)
Definition readAt {A : Type} (a : list A) (i : Z) : option A :=
  if i <? 0 then None else a !! Z.to_nat i.

(** [a[i] = v] for an [int] index. *)
Definition writeAt {A : Type} (a : list A) (i : Z) (v : A) : option (list A) :=
  if (0 <=? i) && (i <? Z.of_nat (length a)) then Some (<[Z.to_nat i := v]> a)
  else None.

(** What one turn of a [while] loop does next. *)
Inductive Step (St R : Type) :=
| Next (s : St)
| Break (s : St)
| Return (r : R).
Arguments Next {St R} s.
Arguments Break {St R} s.
Arguments Return {St R} r.

(** ** The inline members of the class *)

Section Members.
Context {defs : Defines} {dict : Dictionary}.

(** Line 29. *)
Definition MAX_READING_STATE_STACK_SIZE : nat := MAX_WORD_LENGTH.

Definition isError (h : Helper) : bool := mIsError h.

(** Modelled from the spec: [isEnd], declared in the header that is not
    part of the sources at hand.  End-of-chain is "position == sentinel". *)
Definition isEnd (h : Helper) : bool :=
  mPos (mReadingState h) =? NOT_A_DICT_POS.

(** Modelled from the spec: the record an invalid read reports.  It is not
    valid, not terminal, has no children and no code points, and every
    position in it is the sentinel. *)
Definition invalidPtNodeParams : PtNodeParams :=
  mkPtNodeParams false NOT_A_DICT_POS false false [] NOT_A_PROBABILITY
    NOT_A_DICT_POS NOT_A_DICT_POS NOT_A_DICT_POS.

(** Modelled from the spec: [getPtNodeParams] of the header; the node
    reader decodes the record at the current position. *)
Definition getPtNodeParams (h : Helper) : PtNodeParams :=
  if isEnd h then invalidPtNodeParams
  else fetchNodeInfoInBufferFromPtNodePos (mPos (mReadingState h)).

(** Modelled from the spec: [getPosOfLastPtNodeArrayHead] of the header, the
    head-of-current-array position of the reading state. *)
Definition getPosOfLastPtNodeArrayHead (h : Helper) : Z :=
  mPosOfThisPtNodeArrayHead (mReadingState h).

(** Modelled from the spec: [getPrevTotalCodePointCount] of the header, "the
    count of code points already matched along the path". *)
Definition getPrevTotalCodePointCount (h : Helper) : Z :=
  mTotalCodePointCountSinceInitialization (mReadingState h).

(** Modelled from the spec: [getTotalCodePointCount] of the header, "the
    cumulative code-point count up to and including this node". *)
Definition getTotalCodePointCount (h : Helper) (ptNodeParams : PtNodeParams)
  : Z :=
  mTotalCodePointCountSinceInitialization (mReadingState h)
  + Z.of_nat (getCodePointCount ptNodeParams).

(** Modelled from the spec: [isValidTerminalNode] of the header, "terminal
    flag set and decodable", at a cursor that is on a node. *)
Definition isValidTerminalNode (h : Helper) (ptNodeParams : PtNodeParams)
  : bool :=
  negb (isEnd h) && isValid ptNodeParams && isTerminal ptNodeParams.

(** Modelled from the spec: [isMatchedCodePoint] of the header, the
    comparison of the node's merged code point number [index] with a code
    point of the search sequence. *)
Definition isMatchedCodePoint (ptNodeParams : PtNodeParams) (index : nat)
    (codePoint : Z) : Outcome bool :=
  let* c := ofOption NodeCodePointIndexOutOfRange
              (getCodePoints ptNodeParams !! index) in
  Ok (c =? codePoint).

(** Modelled from the spec: [readNextSiblingNode] of the header, "advance to
    next sibling".  One node fewer remains in the array, the cursor moves to
    where the record ends, and the forward link is followed once the array
    is used up. *)
Definition readNextSiblingNode (fuel : nat) (h : Helper)
    (ptNodeParams : PtNodeParams) : option Helper :=
  let rs := mReadingState h in
  let rs := setRemaining rs (mRemainingPtNodeCountInThisArray rs - 1) in
  let rs := setPos rs (getSiblingNodePos ptNodeParams) in
  if mRemainingPtNodeCountInThisArray rs <=? 0 then
    followForwardLink fuel (setReadingState h rs)
  else Some (setReadingState h rs).

(** Modelled from the spec: [readChildNode] of the header, "descend to
    child".  The code points of the node join the matched count, the two
    loop counters are "reset only when descending into a fresh child chain",
    and the child array is entered. *)
Definition readChildNode (fuel : nat) (h : Helper)
    (ptNodeParams : PtNodeParams) : option Helper :=
  let rs := mReadingState h in
  if hasChildren ptNodeParams then
    let rs :=
      setTotalCodePointCount rs
        (mTotalCodePointCountSinceInitialization rs
         + Z.of_nat (getCodePointCount ptNodeParams)) in
    let rs := setTotalPtNodeIndex rs 0 in
    let rs := setPtNodeArrayIndex rs 0 in
    let rs := setPos rs (getChildrenPos ptNodeParams) in
    let rs := setPosOfLastForwardLinkField rs NOT_A_DICT_POS in
    nextPtNodeArray fuel (setReadingState h rs)
  else Some (setReadingState h (setPos rs NOT_A_DICT_POS)).

(** Modelled from the spec: [readParentNode] of the header, "follow the
    parent link toward the root"; a node without a parent ends the chain.
    The cursor then stands on a single node, outside any array. *)
Definition readParentNode (h : Helper) (ptNodeParams : PtNodeParams)
  : Helper :=
  let rs := mReadingState h in
  if negb (getParentPos ptNodeParams =? NOT_A_DICT_POS) then
    let rs :=
      setTotalCodePointCount rs
        (mTotalCodePointCountSinceInitialization rs
         + Z.of_nat (getCodePointCount ptNodeParams)) in
    let rs := setTotalPtNodeIndex rs 1 in
    let rs := setPtNodeArrayIndex rs 1 in
    let rs := setRemaining rs 1 in
    let rs := setPos rs (getParentPos ptNodeParams) in
    let rs := setPosOfLastForwardLinkField rs NOT_A_DICT_POS in
    let rs := setPosOfThisPtNodeArrayHead rs NOT_A_DICT_POS in
    setReadingState h rs
  else setReadingState h (setPos rs NOT_A_DICT_POS).

(** Modelled from the spec: [pushReadingStateToStack] of the header.  The
    stack is "a bounded ordered sequence of saved reading states" whose
    "maximum depth equals the maximum representable word length"; a push
    onto a stack of that depth fails the way every navigation failure
    does. *)
Definition pushReadingStateToStack (h : Helper) : Helper :=
  if (MAX_READING_STATE_STACK_SIZE <=? length (mReadingStateStack h))%nat then
    raiseError h
  else setStack h (mReadingState h :: mReadingStateStack h).

(** Modelled from the spec: [popReadingStateFromStack] of the header, "pop
    the saved state"; nothing to pop ends the chain. *)
Definition popReadingStateFromStack (h : Helper) : Helper :=
  match mReadingStateStack h with
  | [] => setReadingState h (setPos (mReadingState h) NOT_A_DICT_POS)
  | rs :: st => mkHelper (mIsError h) rs st
  end.

(** Modelled from the spec: the fresh reading state of the header's
    [ReadingState] constructor. *)
Definition freshReadingState : ReadingState :=
  mkReadingState NOT_A_DICT_POS 0 0 0 0 NOT_A_DICT_POS NOT_A_DICT_POS.

(** Modelled from the spec: the helper as constructed, "created fresh per
    traversal/lookup call". *)
Definition freshHelper : Helper := mkHelper false freshReadingState [].

(** Modelled from the spec: [initWithPtNodeArrayPos] of the header, which
    starts a traversal or a lookup at the head of a node array. *)
Definition initWithPtNodeArrayPos (fuel : nat) (h : Helper)
    (ptNodeArrayPos : Z) : option Helper :=
  if ptNodeArrayPos =? NOT_A_DICT_POS then
    Some (setReadingState h (setPos (mReadingState h) NOT_A_DICT_POS))
  else
    let rs := mReadingState h in
    let rs := setPos rs ptNodeArrayPos in
    let rs := setTotalCodePointCount rs 0 in
    let rs := setTotalPtNodeIndex rs 0 in
    let rs := setPtNodeArrayIndex rs 0 in
    let rs := setPosOfLastForwardLinkField rs NOT_A_DICT_POS in
    nextPtNodeArray fuel (mkHelper false rs []).

(** Modelled from the spec: [initWithPtNodePos] of the header, which puts
    the cursor on one node, "positioned at a candidate terminal node". *)
Definition initWithPtNodePos (h : Helper) (ptNodePos : Z) : Helper :=
  if ptNodePos =? NOT_A_DICT_POS then
    setReadingState h (setPos (mReadingState h) NOT_A_DICT_POS)
  else
    let rs := mReadingState h in
    let rs := setPos rs ptNodePos in
    let rs := setRemaining rs 1 in
    let rs := setTotalCodePointCount rs 0 in
    let rs := setTotalPtNodeIndex rs 1 in
    let rs := setPtNodeArrayIndex rs 1 in
    let rs := setPosOfLastForwardLinkField rs NOT_A_DICT_POS in
    let rs := setPosOfThisPtNodeArrayHead rs NOT_A_DICT_POS in
    mkHelper false rs [].

End Members.

(** ** Loops *)

(** [while (cond) { turn }] : [inl s] when the loop is left through its
    condition or a [break], [inr r] when a [return r] inside it ends the
    function. *)
Fixpoint whileLoop {St R : Type} (cond : St -> bool)
    (turn : St -> Outcome (Step St R)) (fuel : nat) (s : St)
  : Outcome (St + R) :=
  match fuel with
  | O => OutOfFuel
  | S fuel' =>
    if cond s then
      match turn s with
      | Ok (Next s') => whileLoop cond turn fuel' s'
      | Ok (Break s') => Ok (inl s')
      | Ok (Return r) => Ok (inr r)
      | Faulted f => Faulted f
      | OutOfFuel => OutOfFuel
      end
    else Ok (inl s)
  end.

(** ** The listener *)

Inductive Event :=
| EvDescend (ptNodeArrayPos : Z)
| EvAscend
| EvReadingPtNodeArrayTail
| EvVisitingPtNode (ptNodeParams : PtNodeParams).

(** [TraversingEventListener]: four callbacks that answer whether to go on;
    [L] is whatever the listener object holds. *)
Record TraversingEventListener (L : Type) := mkListener {
  onAscend : L -> bool * L;
  onDescend : Z -> L -> bool * L;
  onReadingPtNodeArrayTail : L -> bool * L;
  onVisitingPtNode : PtNodeParams -> L -> bool * L
}.
Arguments onAscend {L} _ _.
Arguments onDescend {L} _ _ _.
Arguments onReadingPtNodeArrayTail {L} _ _.
Arguments onVisitingPtNode {L} _ _ _.

(** A traversal in progress: the helper, the listener object and the events
    delivered so far, oldest first. *)
Record Walk (L : Type) := mkWalk {
  wHelper : Helper;
  wListener : L;
  wEvents : list Event
}.
Arguments mkWalk {L} _ _ _.
Arguments wHelper {L} _.
Arguments wListener {L} _.
Arguments wEvents {L} _.

Definition setHelper {L : Type} (w : Walk L) (h : Helper) : Walk L :=
  mkWalk h (wListener w) (wEvents w).

Definition deliver {L : Type} (listener : TraversingEventListener L)
    (ev : Event) (l : L) : bool * L :=
  match ev with
  | EvDescend pos => onDescend listener pos l
  | EvAscend => onAscend listener l
  | EvReadingPtNodeArrayTail => onReadingPtNodeArrayTail listener l
  | EvVisitingPtNode p => onVisitingPtNode listener p l
  end.

(** One callback: the listener answers, and the event joins the record. *)
Definition notify {L : Type} (listener : TraversingEventListener L)
    (ev : Event) (w : Walk L) : bool * Walk L :=
  let '(ok, l) := deliver listener ev (wListener w) in
  (ok, mkWalk (wHelper w) l (wEvents w ++ [ev])).

(** A listener that never answers "stop". *)
Definition neverStops {L : Type} (listener : TraversingEventListener L)
  : Prop :=
  forall (ev : Event) (l : L), fst (deliver listener ev l) = true.

(** The listener object after a run of events. *)
Definition listenerAfter {L : Type} (listener : TraversingEventListener L)
    (events : list Event) (l : L) : L :=
  fold_left (fun l ev => snd (deliver listener ev l)) events l.

(** ** The two traversals *)

Section Traversals.
Context {defs : Defines} {dict : Dictionary}.
Context {L : Type} (listener : TraversingEventListener L).

(** Lines 83-87 and 165-169: the closing [onAscend] and the result. *)
Definition ascendToRoot (w : Walk L) : bool * Walk L :=
  let '(ok, w) := notify listener EvAscend w in
  if negb ok then (false, w) else (negb (isError (wHelper w)), w).

(** The body of the loop of lines 42-82. *)
Definition postorderTurn (fuel : nat) (s : Walk L * bool)
  : Outcome (Step (Walk L * bool) (bool * Walk L)) :=
  let '(w, alreadyVisitedChildren) := s in
  let ptNodeParams := getPtNodeParams (wHelper w) in
  if negb (isValid ptNodeParams) then Ok (Break s)
  else if negb alreadyVisitedChildren then
    if hasChildren ptNodeParams then
      let '(ok, w) :=
        notify listener (EvDescend (getChildrenPos ptNodeParams)) w in
      if negb ok then Ok (Return (false, w))
      else
        let* h := ofFuel (readChildNode fuel
                            (pushReadingStateToStack (wHelper w))
                            ptNodeParams) in
        Ok (Next (setHelper w h, alreadyVisitedChildren))
    else Ok (Next (w, true))
  else
    let '(ok, w) := notify listener (EvVisitingPtNode ptNodeParams) w in
    if negb ok then Ok (Return (false, w))
    else
      let* h := ofFuel (readNextSiblingNode fuel (wHelper w) ptNodeParams) in
      let w := setHelper w h in
      if isEnd (wHelper w) then
        let '(ok, w) := notify listener EvReadingPtNodeArrayTail w in
        if negb ok then Ok (Return (false, w))
        else if (length (mReadingStateStack (wHelper w)) <=? 0)%nat then
          Ok (Break (w, alreadyVisitedChildren))
        else
          let '(ok, w) := notify listener EvAscend w in
          if negb ok then Ok (Return (false, w))
          else
            Ok (Next (setHelper w (popReadingStateFromStack (wHelper w)),
                      true))
      else Ok (Next (w, false)).

(** [traverseAllPtNodesInPostorderDepthFirstManner] (lines 35-88). *)
Definition traverseAllPtNodesInPostorderDepthFirstManner (fuel : nat)
    (h : Helper) (l : L) : Outcome (bool * Walk L) :=
  let w := mkWalk h l [] in
  let alreadyVisitedChildren := false in
  let '(ok, w) :=
    notify listener (EvDescend (getPosOfLastPtNodeArrayHead (wHelper w))) w in
  if negb ok then Ok (false, w)
  else
    let* r := whileLoop (fun s => negb (isEnd (wHelper (fst s))))
                (postorderTurn fuel) fuel (w, alreadyVisitedChildren) in
    match r with
    | inl (w, _) => Ok (ascendToRoot w)
    | inr r => Ok r
    end.

(** The body of the loop of lines 110-163; the state carries
    [alreadyVisitedAllPtNodesInArray] and [alreadyVisitedChildren]. *)
Definition preorderTurn (fuel : nat) (s : Walk L * bool * bool)
  : Outcome (Step (Walk L * bool * bool) (bool * Walk L)) :=
  let '(w, alreadyVisitedAllPtNodesInArray, alreadyVisitedChildren) := s in
  let ptNodeParams := getPtNodeParams (wHelper w) in
  if negb (isValid ptNodeParams) then Ok (Break s)
  else if alreadyVisitedAllPtNodesInArray then
    if alreadyVisitedChildren then
      let* h := ofFuel (readNextSiblingNode fuel (wHelper w) ptNodeParams) in
      let w := setHelper w h in
      if isEnd (wHelper w) then
        let '(ok, w) := notify listener EvAscend w in
        if negb ok then Ok (Return (false, w))
        else if (length (mReadingStateStack (wHelper w)) <=? 0)%nat then
          Ok (Break (w, alreadyVisitedAllPtNodesInArray,
                     alreadyVisitedChildren))
        else
          Ok (Next (setHelper w (popReadingStateFromStack (wHelper w)),
                    true, true))
      else Ok (Next (w, alreadyVisitedAllPtNodesInArray, false))
    else
      if hasChildren ptNodeParams then
        let '(ok, w) :=
          notify listener (EvDescend (getChildrenPos ptNodeParams)) w in
        if negb ok then Ok (Return (false, w))
        else
          let* h := ofFuel (readChildNode fuel
                              (pushReadingStateToStack (wHelper w))
                              ptNodeParams) in
          Ok (Next (setHelper w (pushReadingStateToStack h), false, false))
      else Ok (Next (w, alreadyVisitedAllPtNodesInArray, true))
  else
    let '(ok, w) := notify listener (EvVisitingPtNode ptNodeParams) w in
    if negb ok then Ok (Return (false, w))
    else
      let* h := ofFuel (readNextSiblingNode fuel (wHelper w) ptNodeParams) in
      let w := setHelper w h in
      if isEnd (wHelper w) then
        let '(ok, w) := notify listener EvReadingPtNodeArrayTail w in
        if negb ok then Ok (Return (false, w))
        else
          Ok (Next (setHelper w (popReadingStateFromStack (wHelper w)),
                    true, alreadyVisitedChildren))
      else Ok (Next (w, alreadyVisitedAllPtNodesInArray,
                     alreadyVisitedChildren)).

(** The statements of lines 100-108, before the first push: [inr] is the
    early [return false]. *)
Definition preorderEnter (h : Helper) (l : L) : Walk L + bool * Walk L :=
  let w := mkWalk h l [] in
  let '(ok, w) :=
    notify listener (EvDescend (getPosOfLastPtNodeArrayHead (wHelper w))) w in
  if negb ok then inr (false, w)
  else if isEnd (wHelper w) then
    let '(ok, w) := notify listener EvReadingPtNodeArrayTail w in
    if negb ok then inr (false, w) else inl w
  else inl w.

(** [traverseAllPtNodesInPtNodeArrayLevelPreorderDepthFirstManner]
    (lines 95-170). *)
Definition traverseAllPtNodesInPtNodeArrayLevelPreorderDepthFirstManner
    (fuel : nat) (h : Helper) (l : L) : Outcome (bool * Walk L) :=
  match preorderEnter h l with
  | inr r => Ok r
  | inl w =>
    let w := setHelper w (pushReadingStateToStack (wHelper w)) in
    let* r := whileLoop (fun s => negb (isEnd (wHelper (fst (fst s)))))
                (preorderTurn fuel) fuel (w, false, false) in
    match r with
    | inl (w, _, _) =>
      Ok (ascendToRoot (setHelper w (popReadingStateFromStack (wHelper w))))
    | inr r => Ok r
    end
  end.

End Traversals.

(** ** Reverse reconstruction and word lookup *)

Section Words.
Context {defs : Defines} {dict : Dictionary}.

(** Modelled from the spec: [fetchMergedNodeCodePointsInReverseOrder] of the
    header, "write this node's merged code points into an output buffer in
    reverse": slot [index + i] receives the code point number
    [count - 1 - i] of the node.  [rest] are the values of the loop variable
    still to come. *)
Fixpoint fetchMergedNodeCodePointsLoop (ptNodeParams : PtNodeParams)
    (index : Z) (rest : list nat) (outCodePoints : list (option Z))
  : Outcome (list (option Z)) :=
  match rest with
  | [] => Ok outCodePoints
  | i :: rest' =>
    let* c := ofOption NodeCodePointIndexOutOfRange
                (getCodePoints ptNodeParams
                 !! (getCodePointCount ptNodeParams - 1 - i)%nat) in
    let* out := ofOption ReverseBufferIndexOutOfRange
                  (writeAt outCodePoints (index + Z.of_nat i) (Some c)) in
    fetchMergedNodeCodePointsLoop ptNodeParams index rest' out
  end.

Definition fetchMergedNodeCodePointsInReverseOrder
    (ptNodeParams : PtNodeParams) (index : Z)
    (outCodePoints : list (option Z)) : Outcome (list (option Z)) :=
  fetchMergedNodeCodePointsLoop ptNodeParams index
    (seq 0 (getCodePointCount ptNodeParams)) outCodePoints.

(** What [getCodePointsAndProbabilityAndReturnCodePointCount] hands back:
    the returned count, the caller's [outCodePoints] array, the value left
    in [*outUnigramProbability], and the helper. *)
Record Reconstruction := mkReconstruction {
  codePointCount : Z;
  outCodePoints : list Z;
  outUnigramProbability : Z;
  rHelper : Helper
}.

(** The body of the loop of lines 188-201.  The state is the helper, the
    local array [reverseCodePoints] (a slot is [None] until it is written)
    and [totalCodePointCount]. *)
Definition reconstructTurn (maxCodePointCount : Z) (out : list Z)
    (s : Helper * list (option Z) * Z)
  : Outcome (Step (Helper * list (option Z) * Z) Reconstruction) :=
  let '(h, reverseCodePoints, _) := s in
  let ptNodeParams := getPtNodeParams h in
  let totalCodePointCount := getTotalCodePointCount h ptNodeParams in
  if negb (isValid ptNodeParams) || (maxCodePointCount <? totalCodePointCount)
  then Ok (Return (mkReconstruction 0 out NOT_A_PROBABILITY h))
  else
    let* reverseCodePoints :=
      fetchMergedNodeCodePointsInReverseOrder ptNodeParams
        (getPrevTotalCodePointCount h) reverseCodePoints in
    Ok (Next (readParentNode h ptNodeParams, reverseCodePoints,
              totalCodePointCount)).

(** The loop of lines 208-210. *)
Fixpoint reverseStoredCodePoints (reverseCodePoints : list (option Z))
    (totalCodePointCount : Z) (rest : list nat) (out : list Z)
  : Outcome (list Z) :=
  match rest with
  | [] => Ok out
  | i :: rest' =>
    let* slot := ofOption ReverseBufferIndexOutOfRange
                   (readAt reverseCodePoints
                      (totalCodePointCount - Z.of_nat i - 1)) in
    let* c := ofOption ReverseBufferUninitialised slot in
    let* out := ofOption OutputIndexOutOfRange
                  (writeAt out (Z.of_nat i) c) in
    reverseStoredCodePoints reverseCodePoints totalCodePointCount rest' out
  end.

(** [getCodePointsAndProbabilityAndReturnCodePointCount] (lines 172-212).
    [out] is the array behind [outCodePoints] as the caller passes it. *)
Definition getCodePointsAndProbabilityAndReturnCodePointCount (fuel : nat)
    (h : Helper) (maxCodePointCount : Z) (out : list Z)
  : Outcome Reconstruction :=
  let reverseCodePoints : list (option Z) :=
    replicate (Z.to_nat maxCodePointCount) None in
  let terminalPtNodeParams := getPtNodeParams h in
  if negb (isValidTerminalNode h terminalPtNodeParams) then
    Ok (mkReconstruction 0 out NOT_A_PROBABILITY h)
  else
    let probability := getProbability terminalPtNodeParams in
    let totalCodePointCount := 0 in
    let* r := whileLoop (fun s => negb (isEnd (fst (fst s))))
                (reconstructTurn maxCodePointCount out) fuel
                (h, reverseCodePoints, totalCodePointCount) in
    match r with
    | inr r => Ok r
    | inl (h, reverseCodePoints, totalCodePointCount) =>
      if isError h then Ok (mkReconstruction 0 out NOT_A_PROBABILITY h)
      else
        let* out :=
          reverseStoredCodePoints reverseCodePoints totalCodePointCount
            (seq 0 (Z.to_nat totalCodePointCount)) out in
        Ok (mkReconstruction totalCodePointCount out probability h)
    end.

(** Lines 216-219: the local array [searchCodePoints], filled from the
    first [length] elements of [inWord]. *)
Definition lowerSearchCodePoints (inWord : list Z) (length : Z)
    (forceLowerCaseSearch : bool) : Outcome (list Z) :=
  if Z.of_nat (List.length inWord) <? length then
    Faulted InputWordIndexOutOfRange
  else
    Ok (map (fun c => if forceLowerCaseSearch then toLowerCase c else c)
          (take (Z.to_nat length) inWord)).

(** The loop of lines 233-238: [Ok false] is the [return NOT_A_DICT_POS]
    inside it.  [js] are the values of [j] still to come. *)
Fixpoint followingCodePointsMatch (searchCodePoints : list Z)
    (ptNodeParams : PtNodeParams) (matchedCodePointCount : Z) (js : list nat)
  : Outcome bool :=
  match js with
  | [] => Ok true
  | j :: js' =>
    let* c := ofOption SearchIndexOutOfRange
                (readAt searchCodePoints
                   (matchedCodePointCount + Z.of_nat j)) in
    let* same := isMatchedCodePoint ptNodeParams j c in
    if same then
      followingCodePointsMatch searchCodePoints ptNodeParams
        matchedCodePointCount js'
    else Ok false
  end.

(** The condition of lines 223-225, with its short circuit. *)
Definition skipsPtNode (searchCodePoints : list Z) (length : Z) (h : Helper)
    (ptNodeParams : PtNodeParams) : Outcome bool :=
  if length <? getTotalCodePointCount h ptNodeParams then Ok true
  else
    let* c := ofOption SearchIndexOutOfRange
                (readAt searchCodePoints (getPrevTotalCodePointCount h)) in
    let* same := isMatchedCodePoint ptNodeParams 0 c in
    Ok (negb same).

(** The body of the loop of lines 220-252. *)
Definition lookupTurn (fuel : nat) (searchCodePoints : list Z) (length : Z)
    (h : Helper) : Outcome (Step Helper (Z * Helper)) :=
  let ptNodeParams := getPtNodeParams h in
  let matchedCodePointCount := getPrevTotalCodePointCount h in
  let* skip := skipsPtNode searchCodePoints length h ptNodeParams in
  if skip then
    let* h := ofFuel (readNextSiblingNode fuel h ptNodeParams) in
    Ok (Next h)
  else
    let nodeCodePointCount := getCodePointCount ptNodeParams in
    let* same :=
      followingCodePointsMatch searchCodePoints ptNodeParams
        matchedCodePointCount (seq 1 (nodeCodePointCount - 1)) in
    if negb same then Ok (Return (NOT_A_DICT_POS, h))
    else if length =? getTotalCodePointCount h ptNodeParams then
      if negb (isTerminal ptNodeParams) then Ok (Return (NOT_A_DICT_POS, h))
      else Ok (Return (getHeadPos ptNodeParams, h))
    else if negb (hasChildren ptNodeParams) then
      Ok (Return (NOT_A_DICT_POS, h))
    else
      let* h := ofFuel (readChildNode fuel h ptNodeParams) in
      Ok (Next h).

(** [getTerminalPtNodePositionOfWord] (lines 214-256); the result is the
    returned position and the helper as the call leaves it. *)
Definition getTerminalPtNodePositionOfWord (fuel : nat) (h : Helper)
    (inWord : list Z) (length : Z) (forceLowerCaseSearch : bool)
  : Outcome (Z * Helper) :=
  let* searchCodePoints :=
    lowerSearchCodePoints inWord length forceLowerCaseSearch in
  let* r := whileLoop (fun h => negb (isEnd h))
              (lookupTurn fuel searchCodePoints length) fuel h in
  match r with
  | inl h => Ok (NOT_A_DICT_POS, h)
  | inr r => Ok r
  end.

(** The part of the search sequence that faces the node under the cursor:
    as many code points as the node has, from the matched count on. *)
Definition facingCodePoints (search : list Z) (h : Helper) (p : PtNodeParams)
  : list Z :=
  take (getCodePointCount p)
    (drop (Z.to_nat (getPrevTotalCodePointCount h)) search).

(** The cursor is on a node that the loop of lines 188-201 accepts. *)
Definition acceptsPtNode (maxCodePointCount : Z) (h : Helper) : Prop :=
  isEnd h = false
  /\ isValid (getPtNodeParams h) = true
  /\ getTotalCodePointCount h (getPtNodeParams h) <= maxCodePointCount.

End Words.

(** ** Runs of a loop *)

(** [Reaches cond turn s s'] : the loop, started in [s], stands in [s'] at
    the head of some later turn. *)
Inductive Reaches {St R : Type} (cond : St -> bool)
    (turn : St -> Outcome (Step St R)) : St -> St -> Prop :=
| Reaches_here s : Reaches cond turn s s
| Reaches_turn s s' s'' :
    cond s = true ->
    turn s = Ok (Next s') ->
    Reaches cond turn s' s'' ->
    Reaches cond turn s s''.

(** The same with the number of turns. *)
Inductive Turns {St R : Type} (cond : St -> bool)
    (turn : St -> Outcome (Step St R)) : nat -> St -> St -> Prop :=
| Turns_O s : Turns cond turn 0 s s
| Turns_S n s s' s'' :
    cond s = true ->
    turn s = Ok (Next s') ->
    Turns cond turn n s' s'' ->
    Turns cond turn (S n) s s''.

(** ** The trie a dictionary holds *)

(** A node with the nodes of its child array chain, in reading order. *)
#[warnings="-register-all"]
Inductive PtNode := Node (params : PtNodeParams) (children : list PtNode).

Definition paramsOf (n : PtNode) : PtNodeParams :=
  match n with Node p _ => p end.

Definition childrenOf (n : PtNode) : list PtNode :=
  match n with Node _ kids => kids end.

(** All nodes of a forest, a node before its descendants. *)
Fixpoint nodesOfPtNode (n : PtNode) : list PtNodeParams :=
  match n with
  | Node p kids => p :: flat_map nodesOfPtNode kids
  end.

Definition nodesOf (forest : list PtNode) : list PtNodeParams :=
  flat_map nodesOfPtNode forest.

(** The first merged code point of a node. *)
Definition firstCodePoint (n : PtNode) : option Z :=
  head (getCodePoints (paramsOf n)).

(** The edges that leave one array chain start with different code
    points, at every level. *)
Inductive DisjointEdges : list PtNode -> Prop :=
| DisjointEdges_nil : DisjointEdges []
| DisjointEdges_cons p kids rest :
    Forall (fun n => firstCodePoint n <> head (getCodePoints p)) rest ->
    DisjointEdges kids ->
    DisjointEdges rest ->
    DisjointEdges (Node p kids :: rest).

(** A path from a root-level node down to some node, and the words the
    forest stores: the code points along a path that ends in a terminal. *)
Inductive PathIn : list PtNode -> list PtNodeParams -> Prop :=
| PathIn_here p kids forest :
    In (Node p kids) forest -> PathIn forest [p]
| PathIn_below p kids forest path :
    In (Node p kids) forest -> PathIn kids path -> PathIn forest (p :: path).

Definition wordOf (path : list PtNodeParams) : list Z :=
  flat_map getCodePoints path.

Definition StoresWord (forest : list PtNode) (word : list Z)
    (terminal : PtNodeParams) : Prop :=
  exists path,
    PathIn forest path /\ last path = Some terminal
    /\ isTerminal terminal = true /\ wordOf path = word.

(** The nodes a record of events reports as visited. *)
Definition visitedPtNodes (events : list Event) : list PtNodeParams :=
  omap (fun ev => match ev with
                  | EvVisitingPtNode p => Some p
                  | _ => None
                  end) events.

Definition isTailEvent (ev : Event) : bool :=
  match ev with EvReadingPtNodeArrayTail => true | _ => false end.

(** What the post-order loop delivers for a node: its children's chain
    first, then the node. *)
Fixpoint postorderEventsOfPtNode (n : PtNode) : list Event :=
  match n with
  | Node p kids =>
    match kids with
    | [] => []
    | _ :: _ =>
      EvDescend (getChildrenPos p)
      :: flat_map postorderEventsOfPtNode kids
      ++ [EvReadingPtNodeArrayTail; EvAscend]
    end ++ [EvVisitingPtNode p]
  end.

Definition postorderEvents (forest : list PtNode) : list Event :=
  flat_map postorderEventsOfPtNode forest
  ++ [EvReadingPtNodeArrayTail; EvAscend].

(** What the array-level pre-order loop delivers for the children of a
    node: the whole child chain, then the children of each of its nodes. *)
Fixpoint preorderEventsOfPtNode (n : PtNode) : list Event :=
  match n with
  | Node p kids =>
    match kids with
    | [] => []
    | _ :: _ =>
      EvDescend (getChildrenPos p)
      :: map (fun k => EvVisitingPtNode (paramsOf k)) kids
      ++ [EvReadingPtNodeArrayTail]
      ++ flat_map preorderEventsOfPtNode kids
      ++ [EvAscend]
    end
  end.

Definition preorderEvents (forest : list PtNode) : list Event :=
  map (fun k => EvVisitingPtNode (paramsOf k)) forest
  ++ [EvReadingPtNodeArrayTail]
  ++ flat_map preorderEventsOfPtNode forest
  ++ [EvAscend].

Section WellFormed.
Context {defs : Defines} {dict : Dictionary}.

(** The helper with nothing on its stack and no error, cursor at [rs]. *)
Definition cursor (rs : ReadingState) : Helper := mkHelper false rs [].

(** What the record read at cursor [rs] must satisfy in a well-formed trie:
    it is valid, says where it was read and who its parent is, carries at
    least one code point, and the code points from the root down to it fit
    a word. *)
Record PtNodeOk (parentPos : Z) (rs : ReadingState) (p : PtNodeParams)
  : Prop := mkPtNodeOk {
  ok_onNode : mPos rs <> NOT_A_DICT_POS;
  ok_fetched : fetchNodeInfoInBufferFromPtNodePos (mPos rs) = p;
  ok_valid : isValid p = true;
  ok_headPos : getHeadPos p = mPos rs;
  ok_parentPos : getParentPos p = parentPos;
  ok_codePoints : (1 <= getCodePointCount p)%nat;
  ok_wordLength :
    mTotalCodePointCountSinceInitialization rs
    + Z.of_nat (getCodePointCount p) <= Z.of_nat MAX_WORD_LENGTH
}.

(** [ReadsChain navFuel parentPos rs forest] : with the cursor at [rs], the
    helper's own moves (next sibling, first child) read exactly the nodes
    of [forest] off the dictionary, array after array along the forward
    links, and never raise the error flag; [navFuel] activations of
    [nextPtNodeArray] suffice for each move. *)
Inductive ReadsChain (navFuel : nat)
  : Z -> ReadingState -> list PtNode -> Prop :=
| ReadsChain_end parentPos rs :
    mPos rs = NOT_A_DICT_POS ->
    ReadsChain navFuel parentPos rs []
| ReadsChain_node parentPos rs p kids rest rs' :
    PtNodeOk parentPos rs p ->
    ReadsChildren navFuel rs p kids ->
    readNextSiblingNode navFuel (cursor rs) p = Some (cursor rs') ->
    ReadsChain navFuel parentPos rs' rest ->
    ReadsChain navFuel parentPos rs (Node p kids :: rest)
with ReadsChildren (navFuel : nat)
  : ReadingState -> PtNodeParams -> list PtNode -> Prop :=
| ReadsChildren_none rs p :
    hasChildren p = false ->
    ReadsChildren navFuel rs p []
| ReadsChildren_some rs p k kids rs' :
    hasChildren p = true ->
    readChildNode navFuel (cursor rs) p = Some (cursor rs') ->
    ReadsChain navFuel (getHeadPos p) rs' (k :: kids) ->
    ReadsChildren navFuel rs p (k :: kids).

(** A well-formed trie at [rootPos]: entering the root array from a fresh
    helper puts the cursor on a chain that reads as [forest], no two nodes
    of the forest sit at the same position, and the edges that leave one
    chain start with different code points.  By [ReadsChildren_some] a node
    that has children has at least one node in its child array chain: a
    dictionary in which a children position leads to an array chain without
    nodes is not described by this predicate, although the root chain may
    be empty. *)
Definition WellFormedTrie (navFuel : nat) (rootPos : Z) (rs : ReadingState)
    (forest : list PtNode) : Prop :=
  initWithPtNodeArrayPos navFuel freshHelper rootPos = Some (cursor rs)
  /\ ReadsChain navFuel NOT_A_DICT_POS rs forest
  /\ NoDup (map getHeadPos (nodesOf forest))
  /\ DisjointEdges forest.



(** The helper after [k] moves to the parent. *)
Fixpoint parentChain (k : nat) (h : Helper) : Helper :=
  match k with
  | O => h
  | S k' => parentChain k' (readParentNode h (getPtNodeParams h))
  end.

End WellFormed.

Scheme ReadsChain_mut := Minimality for ReadsChain Sort Prop
  with ReadsChildren_mut := Minimality for ReadsChildren Sort Prop.

(** ** The runs of the traversal loops *)

(** The conditions of the two traversal loops. *)
Abbreviation postCond :=
  (fun s : Walk _ * bool => negb (isEnd (wHelper (fst s)))).

Abbreviation preCond :=
  (fun s : Walk _ * bool * bool => negb (isEnd (wHelper (fst (fst s))))).

Section Runs.
Context {defs : Defines} {dict : Dictionary}.
Context {L : Type} (listener : TraversingEventListener L).
Variable navFuel : nat.

(** The walk after the helper has moved to [h] and the events [E] have been
    delivered. *)
Definition walkOn (w : Walk L) (h : Helper) (E : list Event) : Walk L :=
  mkWalk h (listenerAfter listener E (wListener w)) (wEvents w ++ E).

(** The number of reading states a walk has saved. *)
Definition depthOf (w : Walk L) : nat :=
  length (mReadingStateStack (wHelper w)).

(** What the post-order loop delivers below a node, before the node. *)
Definition eventsBelow (p : PtNodeParams) (kids : list PtNode) : list Event :=
  match kids with
  | [] => []
  | _ :: _ =>
    EvDescend (getChildrenPos p)
    :: flat_map postorderEventsOfPtNode kids
    ++ [EvReadingPtNodeArrayTail; EvAscend]
  end.

(** The cursor [rsl] stands on the last node [pl] of a chain. *)
Definition lastOfChain (rsl : ReadingState) (pl : PtNodeParams) : Prop :=
  mPos rsl <> NOT_A_DICT_POS
  /\ fetchNodeInfoInBufferFromPtNodePos (mPos rsl) = pl
  /\ isValid pl = true
  /\ exists rse,
       readNextSiblingNode navFuel (cursor rsl) pl = Some (cursor rse)
       /\ mPos rse = NOT_A_DICT_POS.

(** The post-order loop on a chain: it comes to stand on the last node of
    the chain, about to visit it, having delivered everything before that
    visit. *)
Definition postorderChainRun (rs : ReadingState) (forest : list PtNode)
  : Prop :=
  forall (e : bool) (st : list ReadingState) (w : Walk L),
    wHelper w = mkHelper e rs st ->
    Z.of_nat (length st) <= mTotalCodePointCountSinceInitialization rs ->
    exists (n : nat) (E : list Event) (pl : PtNodeParams) (rsl : ReadingState),
      flat_map postorderEventsOfPtNode forest = E ++ [EvVisitingPtNode pl]
      /\ lastOfChain rsl pl
      /\ forall fuel, (navFuel <= fuel)%nat ->
           Turns postCond (postorderTurn listener fuel) n
             (w, false) (walkOn w (mkHelper e rsl st) E, true).

(** The post-order loop below a node: it comes back to the node, about to
    visit it. *)
Definition postorderBelowRun (rs : ReadingState) (p : PtNodeParams)
    (kids : list PtNode) : Prop :=
  forall (e : bool) (st : list ReadingState) (w : Walk L) (parentPos : Z),
    wHelper w = mkHelper e rs st ->
    PtNodeOk parentPos rs p ->
    Z.of_nat (length st) <= mTotalCodePointCountSinceInitialization rs ->
    exists n : nat,
      forall fuel, (navFuel <= fuel)%nat ->
        Turns postCond (postorderTurn listener fuel) n
          (w, false)
          (walkOn w (mkHelper e rs st) (eventsBelow p kids), true).

(** The visits of the nodes of one chain. *)
Definition visitsOf (forest : list PtNode) : list Event :=
  map (fun k => EvVisitingPtNode (paramsOf k)) forest.

(** The second pass over a chain, which goes through the children of each
    node: it comes to stand on the last node of the chain, done with its
    children. *)
Definition preorderChainRun (rs : ReadingState) (forest : list PtNode)
  : Prop :=
  forall (e : bool) (st : list ReadingState) (w : Walk L),
    wHelper w = mkHelper e rs st ->
    Z.of_nat (length st) <= mTotalCodePointCountSinceInitialization rs ->
    exists (n : nat) (pl : PtNodeParams) (rsl : ReadingState),
      lastOfChain rsl pl
      /\ forall fuel, (navFuel <= fuel)%nat ->
           Turns preCond (preorderTurn listener fuel) n
             (w, true, false)
             (walkOn w (mkHelper e rsl st)
                (flat_map preorderEventsOfPtNode forest), true, true).

(** The second pass on one node: down to its child chain, both passes over
    it, and back. *)
Definition preorderBelowRun (rs : ReadingState) (p : PtNodeParams)
    (kids : list PtNode) : Prop :=
  forall (e : bool) (st : list ReadingState) (w : Walk L) (parentPos : Z),
    wHelper w = mkHelper e rs st ->
    PtNodeOk parentPos rs p ->
    Z.of_nat (length st) <= mTotalCodePointCountSinceInitialization rs ->
    exists n : nat,
      forall fuel, (navFuel <= fuel)%nat ->
        Turns preCond (preorderTurn listener fuel) n
          (w, true, false)
          (walkOn w (mkHelper e rs st)
             (preorderEventsOfPtNode (Node p kids)), true, true).

End Runs.

(** Everything the post-order traversal of a forest delivers. *)
Definition postorderTrace (head : Z) (forest : list PtNode) : list Event :=
  EvDescend head
  :: match forest with
     | [] => [EvAscend]
     | _ :: _ => postorderEvents forest
     end.

(** Everything the array-level pre-order traversal of a forest delivers. *)
Definition preorderTrace (head : Z) (forest : list PtNode) : list Event :=
  EvDescend head
  :: match forest with
     | [] => [EvReadingPtNodeArrayTail; EvAscend]
     | _ :: _ => preorderEvents forest ++ [EvAscend]
     end.

(** ** Example dictionaries *)

(** The values of [defines.h] used in the examples. *)
Definition exampleDefines : Defines :=
  {| NOT_A_DICT_POS := -2147483648;
     NOT_A_PROBABILITY := -1;
     MAX_WORD_LENGTH := 48 |}.

Definition byteOf (z : Z) : Byte.byte :=
  default Byte.x00 (Byte.of_N (Z.to_N z)).

Definition byteAt (buf : list Byte.byte) (pos : Z) : Z :=
  match readAt buf pos with
  | Some b => Z.of_N (Byte.to_N b)
  | None => 0
  end.

(** An array size in one byte, or in two when the first has its top bit
    set; the position moves past the field. *)
Definition exampleArraySize (buf : list Byte.byte) (pos : Z) : Z * Z :=
  let firstByte := byteAt buf pos in
  if firstByte <? 128 then (firstByte, pos + 1)
  else (Z.lor (Z.shiftl (Z.land firstByte 127) 8) (byteAt buf (pos + 1)),
        pos + 2).

(** A forward link in three bytes, sign and magnitude. *)
Definition exampleForwardLink (buf : list Byte.byte) (pos : Z) : Z :=
  let magnitude :=
    Z.lor (Z.shiftl (Z.land (byteAt buf pos) 127) 16)
      (Z.lor (Z.shiftl (byteAt buf (pos + 1)) 8) (byteAt buf (pos + 2))) in
  if 128 <=? byteAt buf pos then - magnitude else magnitude.

Definition exampleLowerCase (c : Z) : Z :=
  if (65 <=? c) && (c <=? 90) then c + 32 else c.

Definition exampleInvalidPtNodeParams : PtNodeParams :=
  @invalidPtNodeParams exampleDefines.

Fixpoint lookupPtNode (table : list PtNodeParams) (pos : Z) : PtNodeParams :=
  match table with
  | [] => exampleInvalidPtNodeParams
  | p :: table' => if getHeadPos p =? pos then p else lookupPtNode table' pos
  end.

(** A dictionary made of the bytes of its two buffers and the records the
    node reader decodes. *)
Definition exampleDictionaryOf (original additional : list Z)
    (table : list PtNodeParams) : Dictionary :=
  {| getTailPosition := Z.of_nat (length original + length additional);
     isInAdditionalBuffer := fun pos => Z.of_nat (length original) <=? pos;
     getOriginalBufferSize := Z.of_nat (length original);
     getBuffer := fun usesAdditionalBuffer =>
       map byteOf (if usesAdditionalBuffer then additional else original);
     getPtNodeArraySizeAndAdvancePosition := exampleArraySize;
     getForwardLinkPosition := exampleForwardLink;
     isValidForwardLinkPosition := fun link => negb (link =? 0);
     fetchNodeInfoInBufferFromPtNodePos := lookupPtNode table;
     toLowerCase := exampleLowerCase |}.

Definition noPos : Z := -2147483648.

(** The words "a", "ab", "ac" and "xyz".  The root array at 0 holds "a" and
    links forward to a second root array at 20, in the additional buffer,
    which holds "xyz"; the child array of "a" at 8 holds "b" and "c". *)
Definition nodeA : PtNodeParams :=
  mkPtNodeParams true 1 true true [97] 10 noPos 8 5.
Definition nodeB : PtNodeParams :=
  mkPtNodeParams true 9 true false [98] 20 1 noPos 12.
Definition nodeC : PtNodeParams :=
  mkPtNodeParams true 12 true false [99] 30 1 noPos 15.
Definition nodeXYZ : PtNodeParams :=
  mkPtNodeParams true 21 true false [120; 121; 122] 40 noPos noPos 26.

Definition exampleDictionary : Dictionary :=
  exampleDictionaryOf
    [1; 170; 170; 170; 170; 0; 0; 15;
     2; 170; 170; 170; 170; 170; 170; 0; 0; 0; 170; 170]
    [1; 170; 170; 170; 170; 170; 0; 0; 0]
    [nodeA; nodeB; nodeC; nodeXYZ].

Definition exampleForest : list PtNode :=
  [Node nodeA [Node nodeB []; Node nodeC []]; Node nodeXYZ []].

(** The reading state after the root array at 0 has been entered. *)
Definition exampleRoot : ReadingState :=
  mkReadingState 1 1 0 1 1 noPos 0.

(** The reading states of the other nodes of that trie, and of the ends of
    its two chains. *)
Definition exampleAtB : ReadingState := mkReadingState 9 2 1 2 1 noPos 8.
Definition exampleAtC : ReadingState := mkReadingState 12 1 1 2 1 noPos 8.
Definition exampleAfterC : ReadingState := mkReadingState noPos 0 1 2 1 15 8.
Definition exampleAtXYZ : ReadingState := mkReadingState 21 1 0 2 2 5 20.
Definition exampleAfterXYZ : ReadingState :=
  mkReadingState noPos 0 0 2 2 26 20.

(** A dictionary without words: the root array at 0 is empty and has no
    forward link. *)
Definition emptyDictionary : Dictionary :=
  exampleDictionaryOf [0; 0; 0; 0] [] [].

(** A damaged dictionary: the child array at 8 of the only root node links
    forward, from its link field at 12, back to the root array at 0. *)
Definition loopNodeN : PtNodeParams :=
  mkPtNodeParams true 1 true true [97] 10 noPos 8 5.
Definition loopNodeC : PtNodeParams :=
  mkPtNodeParams true 9 true false [98] 20 1 noPos 12.

Definition ancestorLinkDictionary : Dictionary :=
  exampleDictionaryOf
    [1; 170; 170; 170; 170; 0; 0; 0;
     1; 170; 170; 170; 128; 0; 12]
    []
    [loopNodeN; loopNodeC].

(** A damaged dictionary: the empty array at 0 links forward, from its link
    field at 1, to itself. *)
Definition selfLinkDictionary : Dictionary :=
  exampleDictionaryOf [0; 128; 0; 1] [] [].

(** A decoder that reports a negative array size. *)
Definition negativeSizeDictionary : Dictionary :=
  {| getTailPosition := 4;
     isInAdditionalBuffer := fun _ => false;
     getOriginalBufferSize := 4;
     getBuffer := fun _ => map byteOf [255; 0; 0; 0];
     getPtNodeArraySizeAndAdvancePosition := fun _ pos => (-1, pos + 1);
     getForwardLinkPosition := exampleForwardLink;
     isValidForwardLinkPosition := fun link => negb (link =? 0);
     fetchNodeInfoInBufferFromPtNodePos := lookupPtNode [];
     toLowerCase := exampleLowerCase |}.

(** A dictionary with an empty child array: the root array at 0 holds "a"
    and "b" and has no forward link; "a" names the array at 12 as its
    children, and that array has no node and no forward link. *)
Definition emptyChildNodeA : PtNodeParams :=
  mkPtNodeParams true 1 true true [97] 10 noPos 12 5.
Definition emptyChildNodeB : PtNodeParams :=
  mkPtNodeParams true 5 true false [98] 20 noPos noPos 9.

Definition emptyChildArrayDictionary : Dictionary :=
  exampleDictionaryOf
    [2; 170; 170; 170; 170; 170; 170; 170; 170; 0; 0; 0;
     0; 0; 0; 0]
    []
    [emptyChildNodeA; emptyChildNodeB].

(** The reading state after its root array has been entered. *)
Definition emptyChildRoot : ReadingState :=
  mkReadingState 1 2 0 2 1 noPos 0.

(** A listener that records nothing and never stops the traversal. *)
Definition silentListener : TraversingEventListener unit :=
  mkListener unit (fun l => (true, l)) (fun _ l => (true, l))
    (fun l => (true, l)) (fun _ l => (true, l)).

(** The states with the cursor on the root node at 1 and its children still
    to be visited. *)
Definition onLoopNode (s : Walk unit * bool) : Prop :=
  mPos (mReadingState (wHelper (fst s))) = 1 /\ snd s = false.

(** ** Where array navigation lands *)

Section Landing.
Context {defs : Defines} {dict : Dictionary}.

(** The cursor stands right behind the size field of an array that lies
    inside the dictionary and holds at least one node, with both counters
    within their ceilings. *)
Definition InPtNodeArray (rs : ReadingState) : Prop :=
  outOfDictionary (mPosOfThisPtNodeArrayHead rs) = false
  /\ arraySizeAt (mPosOfThisPtNodeArrayHead rs)
     = (mRemainingPtNodeCountInThisArray rs, mPos rs)
  /\ 0 < mRemainingPtNodeCountInThisArray rs
  /\ mTotalPtNodeIndexInThisArrayChain rs
     <= MAX_CHILD_COUNT_TO_AVOID_INFINITE_LOOP
  /\ mPtNodeArrayIndexInThisArrayChain rs
     <= MAX_PT_NODE_ARRAY_COUNT_TO_AVOID_INFINITE_LOOP.

(** The chain has ended at a forward link field that lies inside the
    dictionary and holds no link. *)
Definition AtEndOfChain (rs : ReadingState) : Prop :=
  mPos rs = NOT_A_DICT_POS
  /\ outOfDictionary (mPosOfLastForwardLinkField rs) = false
  /\ isValidForwardLinkPosition (forwardLinkAt (mPosOfLastForwardLinkField rs))
     = false.

(** The three ways a navigation call from [h] can leave the helper. *)
Definition Lands (h h' : Helper) : Prop :=
  (mIsError h' = true /\ mPos (mReadingState h') = NOT_A_DICT_POS)
  \/ (mIsError h' = mIsError h /\ AtEndOfChain (mReadingState h'))
  \/ (mIsError h' = mIsError h /\ InPtNodeArray (mReadingState h')).

End Landing.

(** ** What a traversal hands back *)

Section Outcomes.
Context {defs : Defines} {dict : Dictionary}.
Context {L : Type} (listener : TraversingEventListener L).

(** Replaying [events] on the listener object [l], every callback answers
    "go on". *)
Fixpoint allAccepted (events : list Event) (l : L) : bool :=
  match events with
  | [] => true
  | ev :: rest =>
    fst (deliver listener ev l)
    && allAccepted rest (snd (deliver listener ev l))
  end.

(** A visit hands a valid record to the listener. *)
Definition validVisit (ev : Event) : Prop :=
  match ev with
  | EvVisitingPtNode p => isValid p = true
  | _ => True
  end.

(** The walk [w] of a traversal that started with helper [h] and listener
    object [l] and is still going on. *)
Definition GoingOn (h : Helper) (l : L) (w : Walk L) : Prop :=
  wListener w = listenerAfter listener (wEvents w) l
  /\ allAccepted (wEvents w) l = true
  /\ Forall validVisit (wEvents w)
  /\ (mIsError h = true -> mIsError (wHelper w) = true).

(** The result [b] and walk [w] a traversal hands back. *)
Definition HandsBack (h : Helper) (l : L) (b : bool) (w : Walk L) : Prop :=
  wListener w = listenerAfter listener (wEvents w) l
  /\ allAccepted (removelast (wEvents w)) l = true
  /\ (b = true -> allAccepted (wEvents w) l = true)
  /\ (b = true -> mIsError (wHelper w) = false)
  /\ (mIsError h = true -> b = false)
  /\ Forall validVisit (wEvents w).

End Outcomes.

(** A listener that counts its callbacks and answers "stop" to the first
    visit. *)
Definition countingListener : TraversingEventListener nat :=
  mkListener nat (fun n => (true, S n)) (fun _ n => (true, S n))
    (fun n => (true, S n)) (fun _ n => (false, S n)).

(** ** The orders of the two traversals *)

(** The nodes of a forest, every node after the nodes below it. *)
Fixpoint postorderNodesOfPtNode (n : PtNode) : list PtNodeParams :=
  match n with
  | Node p kids => flat_map postorderNodesOfPtNode kids ++ [p]
  end.

Definition postorderNodes (forest : list PtNode) : list PtNodeParams :=
  flat_map postorderNodesOfPtNode forest.

(** The nodes below a node, array chain by array chain: the whole child
    chain first, then what lies below each of its nodes. *)
Fixpoint arrayLevelNodesBelow (n : PtNode) : list PtNodeParams :=
  match n with
  | Node p kids => map paramsOf kids ++ flat_map arrayLevelNodesBelow kids
  end.

Definition arrayLevelNodes (forest : list PtNode) : list PtNodeParams :=
  map paramsOf forest ++ flat_map arrayLevelNodesBelow forest.

Definition isDescendEvent (ev : Event) : bool :=
  match ev with EvDescend _ => true | _ => false end.

Definition isAscendEvent (ev : Event) : bool :=
  match ev with EvAscend => true | _ => false end.

(** How often [onDescend] and [onAscend] were called. *)
Definition descents (events : list Event) : nat :=
  length (List.filter isDescendEvent events).

Definition ascents (events : list Event) : nat :=
  length (List.filter isAscendEvent events).

(** ** Where a lookup stands in the trie *)

(** [PathTo forest path kids] : [path] leads from a root-level node down to
    a node whose children are [kids]. *)
Inductive PathTo : list PtNode -> list PtNodeParams -> list PtNode -> Prop :=
| PathTo_here p kids forest :
    In (Node p kids) forest -> PathTo forest [p] kids
| PathTo_below p kids forest path kids' :
    In (Node p kids) forest -> PathTo kids path kids' ->
    PathTo forest (p :: path) kids'.

(** The chain that [prefix] leads to: the root chain for the empty path. *)
Definition LevelOf (forest : list PtNode) (prefix : list PtNodeParams)
    (level : list PtNode) : Prop :=
  (prefix = [] /\ level = forest) \/ PathTo forest prefix level.

Section LookupInvariant.
Context {defs : Defines} {dict : Dictionary}.

(** The cursor of a lookup of [search] stands in the trie: on what is left
    of a chain that a path spelling the matched part of [search] leads
    to. *)
Definition LookupAt (navFuel : nat) (forest : list PtNode) (search : list Z)
    (rs : ReadingState) : Prop :=
  exists (parentPos : Z) (chain : list PtNode) (prefix : list PtNodeParams)
         (level : list PtNode),
    ReadsChain navFuel parentPos rs chain
    /\ LevelOf forest prefix level
    /\ (forall n, In n chain -> In n level)
    /\ 0 <= mTotalCodePointCountSinceInitialization rs
       <= Z.of_nat (length search)
    /\ wordOf prefix
       = take (Z.to_nat (mTotalCodePointCountSinceInitialization rs)) search.

(** What the lookup may return for the search sequence [search]: the
    sentinel, or the position of a terminal record under the cursor whose
    code points are the last ones of [search]. *)
Definition MatchingTerminal (search : list Z) (pos : Z) (h : Helper) : Prop :=
  let p := getPtNodeParams h in
  isEnd h = false
  /\ pos = getHeadPos p
  /\ isTerminal p = true
  /\ getTotalCodePointCount h p = Z.of_nat (length search)
  /\ getCodePoints p = facingCodePoints search h p.

End LookupInvariant.

(** ** What reverse reconstruction stores *)

Section ParentChains.
Context {defs : Defines} {dict : Dictionary}.

(** The code points of the first [k] records of the parent chain of [h],
    each record back to front, the record under the cursor first: what the
    loop of lines 188-201 has stored after [k] turns. *)
Fixpoint storedCodePoints (k : nat) (h : Helper) : list Z :=
  match k with
  | O => []
  | S k' =>
    reverse (getCodePoints (getPtNodeParams h))
    ++ storedCodePoints k' (readParentNode h (getPtNodeParams h))
  end.

(** The state of the loop of lines 188-201 after [k] turns from [h], with
    room for [maxCodePointCount] code points. *)
Definition ReconstructionAt (h : Helper) (maxCodePointCount : Z) (k : nat)
    (s : Helper * list (option Z) * Z) : Prop :=
  let '(h1, reverseCodePoints, totalCodePointCount) := s in
  h1 = parentChain k h
  /\ length reverseCodePoints = Z.to_nat maxCodePointCount
  /\ totalCodePointCount = Z.of_nat (length (storedCodePoints k h))
  /\ take (length (storedCodePoints k h)) reverseCodePoints
     = map Some (storedCodePoints k h)
  /\ (isEnd h1 = false ->
      mTotalCodePointCountSinceInitialization (mReadingState h1)
      = totalCodePointCount)
  /\ (isEnd h1 = true -> totalCodePointCount <= maxCodePointCount).

End ParentChains.

(** * Properties *)

(** ** Array navigation *)

Section NavigationFacts.
Context {defs : Defines} {dict : Dictionary}.

Lemma readPtNodeArrayInfo_fields (rs : ReadingState) :
  readPtNodeArrayInfo rs =
  mkReadingState (snd (arraySizeAt (mPos rs))) (fst (arraySizeAt (mPos rs)))
    (mTotalCodePointCountSinceInitialization rs)
    (mTotalPtNodeIndexInThisArrayChain rs + fst (arraySizeAt (mPos rs)))
    (mPtNodeArrayIndexInThisArrayChain rs + 1)
    (mPosOfLastForwardLinkField rs) (mPos rs).
Proof.
  unfold readPtNodeArrayInfo, arraySizeAt. simpl.
  destruct (isInAdditionalBuffer (mPos rs)); simpl;
    destruct (getPtNodeArraySizeAndAdvancePosition _ _) as [size next];
    reflexivity.
Qed.

Lemma followForwardLinkWith_fields (next : Helper -> option Helper)
    (h : Helper) :
  followForwardLinkWith next h =
  if outOfDictionary (mPos (mReadingState h)) then Some (raiseError h)
  else
    let rs := setPosOfLastForwardLinkField (mReadingState h)
                (mPos (mReadingState h)) in
    if isValidForwardLinkPosition (forwardLinkAt (mPos (mReadingState h)))
    then next (setReadingState h
                 (setPos rs (mPos (mReadingState h)
                             + forwardLinkAt (mPos (mReadingState h)))))
    else Some (setReadingState h (setPos rs NOT_A_DICT_POS)).
Proof.
  unfold followForwardLinkWith, forwardLinkAt.
  destruct h as [e [pos rem t ni ai lf hd] st]; simpl.
  destruct (outOfDictionary pos); [reflexivity|].
  destruct (isInAdditionalBuffer pos); simpl; [|reflexivity].
  unfold setPosOfLastForwardLinkField, setPos; simpl.
  replace (pos - getOriginalBufferSize + getOriginalBufferSize) with pos
    by lia.
  reflexivity.
Qed.

Lemma nextPtNodeArray_S (fuel : nat) (h : Helper) :
  nextPtNodeArray (S fuel) h =
  if outOfDictionary (mPos (mReadingState h)) then Some (raiseError h)
  else
    let rs := readPtNodeArrayInfo (mReadingState h) in
    if invalidPtNodeArrayInfo rs then Some (raiseError (setReadingState h rs))
    else if mRemainingPtNodeCountInThisArray rs =? 0 then
      followForwardLink fuel (setReadingState h rs)
    else Some (setReadingState h rs).
Proof. reflexivity. Qed.

(** More fuel never changes a result. *)
Lemma nextPtNodeArray_more_fuel (fuel fuel' : nat) (h h' : Helper) :
  nextPtNodeArray fuel h = Some h' -> (fuel <= fuel')%nat ->
  nextPtNodeArray fuel' h = Some h'.
Proof.
  revert fuel' h h'.
  induction fuel as [|fuel IH]; intros fuel' h h' Hrun Hle; [discriminate|].
  destruct fuel' as [|fuel']; [lia|].
  rewrite nextPtNodeArray_S in Hrun |- *.
  destruct (outOfDictionary _); [exact Hrun|].
  cbv zeta in Hrun |- *.
  destruct (invalidPtNodeArrayInfo _); [exact Hrun|].
  destruct (_ =? 0); [|exact Hrun].
  unfold followForwardLink in Hrun |- *.
  rewrite followForwardLinkWith_fields in Hrun |- *.
  destruct (outOfDictionary _); [exact Hrun|].
  cbv zeta in Hrun |- *.
  destruct (isValidForwardLinkPosition _); [|exact Hrun].
  apply IH; [exact Hrun | lia].
Qed.

Lemma followForwardLink_more_fuel (fuel fuel' : nat) (h h' : Helper) :
  followForwardLink fuel h = Some h' -> (fuel <= fuel')%nat ->
  followForwardLink fuel' h = Some h'.
Proof.
  unfold followForwardLink. rewrite !followForwardLinkWith_fields.
  intros Hrun Hle.
  destruct (outOfDictionary _); [exact Hrun|].
  cbv zeta in Hrun |- *.
  destruct (isValidForwardLinkPosition _); [|exact Hrun].
  eapply nextPtNodeArray_more_fuel; eauto.
Qed.

End NavigationFacts.

Section NavigationFrame.
Context {defs : Defines} {dict : Dictionary}.

Lemma raiseError_mIsError (h : Helper) : mIsError (raiseError h) = true.
Proof. reflexivity. Qed.

Lemma raiseError_isEnd (h : Helper) : isEnd (raiseError h) = true.
Proof. unfold isEnd, raiseError. simpl. apply Z.eqb_refl. Qed.

(** Navigation reads and writes the reading state only: the stack stays,
    and the error flag can only go up. *)
Lemma nextPtNodeArray_frame (fuel : nat) (e : bool) (rs : ReadingState)
    (st : list ReadingState) :
  nextPtNodeArray fuel (mkHelper e rs st) =
  option_map (reframe e st) (nextPtNodeArray fuel (mkHelper false rs [])).
Proof.
  revert rs.
  induction fuel as [|fuel IH]; intros rs; [reflexivity|].
  rewrite !nextPtNodeArray_S. simpl.
  destruct (outOfDictionary (mPos rs)).
  { simpl. unfold reframe, raiseError. simpl. now rewrite orb_true_r. }
  destruct (invalidPtNodeArrayInfo _).
  { simpl. unfold reframe, raiseError. simpl. now rewrite orb_true_r. }
  destruct (_ =? 0).
  - unfold followForwardLink. rewrite !followForwardLinkWith_fields. simpl.
    destruct (outOfDictionary _).
    { simpl. unfold reframe, raiseError. simpl. now rewrite orb_true_r. }
    destruct (isValidForwardLinkPosition _).
    + unfold setReadingState. simpl. apply IH.
    + simpl. unfold reframe, setReadingState. simpl. now rewrite orb_false_r.
  - simpl. unfold reframe, setReadingState. simpl. now rewrite orb_false_r.
Qed.

Lemma followForwardLink_frame (fuel : nat) (e : bool) (rs : ReadingState)
    (st : list ReadingState) :
  followForwardLink fuel (mkHelper e rs st) =
  option_map (reframe e st) (followForwardLink fuel (mkHelper false rs [])).
Proof.
  unfold followForwardLink. rewrite !followForwardLinkWith_fields. simpl.
  destruct (outOfDictionary _).
  { simpl. unfold reframe, raiseError. simpl. now rewrite orb_true_r. }
  destruct (isValidForwardLinkPosition _).
  - unfold setReadingState. simpl. apply nextPtNodeArray_frame.
  - simpl. unfold reframe, setReadingState. simpl. now rewrite orb_false_r.
Qed.

Lemma readNextSiblingNode_frame (fuel : nat) (e : bool) (rs : ReadingState)
    (st : list ReadingState) (p : PtNodeParams) :
  readNextSiblingNode fuel (mkHelper e rs st) p =
  option_map (reframe e st) (readNextSiblingNode fuel (mkHelper false rs []) p).
Proof.
  unfold readNextSiblingNode. simpl.
  destruct (_ <=? 0).
  - unfold setReadingState. simpl. apply followForwardLink_frame.
  - simpl. unfold reframe, setReadingState. simpl. now rewrite orb_false_r.
Qed.

Lemma readChildNode_frame (fuel : nat) (e : bool) (rs : ReadingState)
    (st : list ReadingState) (p : PtNodeParams) :
  readChildNode fuel (mkHelper e rs st) p =
  option_map (reframe e st) (readChildNode fuel (mkHelper false rs []) p).
Proof.
  unfold readChildNode. simpl.
  destruct (hasChildren p).
  - unfold setReadingState. simpl. apply nextPtNodeArray_frame.
  - simpl. unfold reframe, setReadingState. simpl. now rewrite orb_false_r.
Qed.

(** A move that succeeds from the bare cursor succeeds in the same way under
    any flag and stack. *)
Lemma readNextSiblingNode_cursor (fuel : nat) (e : bool)
    (rs rs' : ReadingState) (st : list ReadingState) (p : PtNodeParams) :
  readNextSiblingNode fuel (cursor rs) p = Some (cursor rs') ->
  readNextSiblingNode fuel (mkHelper e rs st) p = Some (mkHelper e rs' st).
Proof.
  intros H. rewrite readNextSiblingNode_frame. unfold cursor in H.
  rewrite H. simpl. unfold reframe. simpl. now rewrite orb_false_r.
Qed.

Lemma readChildNode_cursor (fuel : nat) (e : bool)
    (rs rs' : ReadingState) (st : list ReadingState) (p : PtNodeParams) :
  readChildNode fuel (cursor rs) p = Some (cursor rs') ->
  readChildNode fuel (mkHelper e rs st) p = Some (mkHelper e rs' st).
Proof.
  intros H. rewrite readChildNode_frame. unfold cursor in H.
  rewrite H. simpl. unfold reframe. simpl. now rewrite orb_false_r.
Qed.

Lemma readNextSiblingNode_more_fuel (fuel fuel' : nat) (h h' : Helper)
    (p : PtNodeParams) :
  readNextSiblingNode fuel h p = Some h' -> (fuel <= fuel')%nat ->
  readNextSiblingNode fuel' h p = Some h'.
Proof.
  unfold readNextSiblingNode. intros H Hle.
  destruct (_ <=? 0); [|exact H].
  eapply followForwardLink_more_fuel; eauto.
Qed.

Lemma readChildNode_more_fuel (fuel fuel' : nat) (h h' : Helper)
    (p : PtNodeParams) :
  readChildNode fuel h p = Some h' -> (fuel <= fuel')%nat ->
  readChildNode fuel' h p = Some h'.
Proof.
  unfold readChildNode. intros H Hle.
  destruct (hasChildren p); [|exact H].
  eapply nextPtNodeArray_more_fuel; eauto.
Qed.

(** Navigation along an array chain leaves the count of matched code points
    alone. *)
Lemma nextPtNodeArray_codePointCount (fuel : nat) (h h' : Helper) :
  nextPtNodeArray fuel h = Some h' ->
  mTotalCodePointCountSinceInitialization (mReadingState h') =
  mTotalCodePointCountSinceInitialization (mReadingState h).
Proof.
  revert h h'.
  induction fuel as [|fuel IH]; intros h h' Hrun; [discriminate|].
  rewrite nextPtNodeArray_S in Hrun.
  destruct (outOfDictionary _); [now inversion Hrun|].
  cbv zeta in Hrun. rewrite readPtNodeArrayInfo_fields in Hrun.
  destruct (invalidPtNodeArrayInfo _); [now inversion Hrun|].
  destruct (_ =? 0); [|now inversion Hrun].
  unfold followForwardLink in Hrun.
  rewrite followForwardLinkWith_fields in Hrun.
  destruct (outOfDictionary _); [now inversion Hrun|].
  cbv zeta in Hrun.
  destruct (isValidForwardLinkPosition _); [|now inversion Hrun].
  apply IH in Hrun. exact Hrun.
Qed.

Lemma followForwardLink_codePointCount (fuel : nat) (h h' : Helper) :
  followForwardLink fuel h = Some h' ->
  mTotalCodePointCountSinceInitialization (mReadingState h') =
  mTotalCodePointCountSinceInitialization (mReadingState h).
Proof.
  unfold followForwardLink. rewrite followForwardLinkWith_fields.
  intros Hrun.
  destruct (outOfDictionary _); [now inversion Hrun|].
  cbv zeta in Hrun.
  destruct (isValidForwardLinkPosition _); [|now inversion Hrun].
  apply nextPtNodeArray_codePointCount in Hrun. exact Hrun.
Qed.

Lemma readNextSiblingNode_codePointCount (fuel : nat) (h h' : Helper)
    (p : PtNodeParams) :
  readNextSiblingNode fuel h p = Some h' ->
  mTotalCodePointCountSinceInitialization (mReadingState h') =
  mTotalCodePointCountSinceInitialization (mReadingState h).
Proof.
  unfold readNextSiblingNode. intros Hrun.
  destruct (_ <=? 0); [|now inversion Hrun].
  apply followForwardLink_codePointCount in Hrun. exact Hrun.
Qed.

Lemma readChildNode_codePointCount (fuel : nat) (h h' : Helper)
    (p : PtNodeParams) :
  hasChildren p = true ->
  readChildNode fuel h p = Some h' ->
  mTotalCodePointCountSinceInitialization (mReadingState h') =
  mTotalCodePointCountSinceInitialization (mReadingState h)
  + Z.of_nat (getCodePointCount p).
Proof.
  unfold readChildNode. intros Hkids Hrun. rewrite Hkids in Hrun.
  apply nextPtNodeArray_codePointCount in Hrun. exact Hrun.
Qed.

(** The pair [nextPtNodeArray] / [followForwardLink] cannot go on for ever:
    every activation counts one array up, and the ceiling ends the chain.
    From array index [i], [100001 - i] activations are enough. *)
Lemma nextPtNodeArray_terminates (n : nat) :
  forall (h : Helper) (fuel : nat),
    MAX_PT_NODE_ARRAY_COUNT_TO_AVOID_INFINITE_LOOP
    - mPtNodeArrayIndexInThisArrayChain (mReadingState h) <= Z.of_nat n ->
    (n < fuel)%nat ->
    exists h', nextPtNodeArray fuel h = Some h'.
Proof.
  induction n as [|n IH]; intros h fuel Hidx Hfuel.
  - destruct fuel as [|fuel]; [lia|].
    rewrite nextPtNodeArray_S.
    destruct (outOfDictionary _); [eauto|].
    cbv zeta. rewrite readPtNodeArrayInfo_fields.
    unfold invalidPtNodeArrayInfo. simpl.
    replace (MAX_PT_NODE_ARRAY_COUNT_TO_AVOID_INFINITE_LOOP
             <? mPtNodeArrayIndexInThisArrayChain (mReadingState h) + 1)
      with true by (symmetry; apply Z.ltb_lt; lia).
    rewrite !orb_true_r. eauto.
  - destruct fuel as [|fuel]; [lia|].
    rewrite nextPtNodeArray_S.
    destruct (outOfDictionary _); [eauto|].
    cbv zeta. rewrite readPtNodeArrayInfo_fields.
    destruct (invalidPtNodeArrayInfo _); [eauto|].
    simpl. destruct (_ =? 0); [|eauto].
    unfold followForwardLink. rewrite followForwardLinkWith_fields.
    destruct (outOfDictionary _); [eauto|].
    cbv zeta. destruct (isValidForwardLinkPosition _); [|eauto].
    apply IH; [simpl; lia | lia].
Qed.

Lemma followForwardLink_terminates (n : nat) (h : Helper) (fuel : nat) :
  MAX_PT_NODE_ARRAY_COUNT_TO_AVOID_INFINITE_LOOP
  - mPtNodeArrayIndexInThisArrayChain (mReadingState h) <= Z.of_nat n ->
  (n < fuel)%nat ->
  exists h', followForwardLink fuel h = Some h'.
Proof.
  intros Hidx Hfuel.
  unfold followForwardLink. rewrite followForwardLinkWith_fields.
  destruct (outOfDictionary _); [eauto|].
  cbv zeta. destruct (isValidForwardLinkPosition _); [|eauto].
  apply (nextPtNodeArray_terminates n); [simpl; lia | lia].
Qed.

End NavigationFrame.

Section NavigationClaims.
Context {defs : Defines} {dict : Dictionary}.

(** C4.  [nextPtNodeArray] at a position inside the dictionary: when the
    decoded node count is negative, or the running node total or the running
    array total has passed 100000, the call ends with the error flag up and
    the position at the sentinel, which is also all that an out-of-bounds
    starting position leaves behind; this holds with a single activation, so
    nothing is decoded after the size field.  A decoded count of zero within
    the ceilings is no error: the call goes on as [followForwardLink] from
    the state just read. *)
Theorem nextPtNodeArray_invalid_info_is_an_error (fuel : nat) (h : Helper) :
  let rs := mReadingState h in
  let size := fst (arraySizeAt (mPos rs)) in
  let entered :=
    mkReadingState (snd (arraySizeAt (mPos rs))) size
      (mTotalCodePointCountSinceInitialization rs)
      (mTotalPtNodeIndexInThisArrayChain rs + size)
      (mPtNodeArrayIndexInThisArrayChain rs + 1)
      (mPosOfLastForwardLinkField rs) (mPos rs) in
  outOfDictionary (mPos rs) = false ->
  (size < 0
   \/ MAX_CHILD_COUNT_TO_AVOID_INFINITE_LOOP
      < mTotalPtNodeIndexInThisArrayChain rs + size
   \/ MAX_PT_NODE_ARRAY_COUNT_TO_AVOID_INFINITE_LOOP
      < mPtNodeArrayIndexInThisArrayChain rs + 1 ->
   nextPtNodeArray 1 h
   = Some (mkHelper true (setPos entered NOT_A_DICT_POS)
             (mReadingStateStack h))
   /\ nextPtNodeArray (S fuel) h = nextPtNodeArray 1 h
   /\ forall h0 : Helper,
        outOfDictionary (mPos (mReadingState h0)) = true ->
        nextPtNodeArray (S fuel) h0
        = Some (mkHelper true (setPos (mReadingState h0) NOT_A_DICT_POS)
                  (mReadingStateStack h0)))
  /\ (size = 0 ->
      mTotalPtNodeIndexInThisArrayChain rs
      <= MAX_CHILD_COUNT_TO_AVOID_INFINITE_LOOP ->
      mPtNodeArrayIndexInThisArrayChain rs + 1
      <= MAX_PT_NODE_ARRAY_COUNT_TO_AVOID_INFINITE_LOOP ->
      nextPtNodeArray (S fuel) h
      = followForwardLink fuel (setReadingState h entered)).
Proof.
  intros rs size entered Hin.
  assert (Hentered : readPtNodeArrayInfo rs = entered)
    by apply readPtNodeArrayInfo_fields.
  split.
  - intros Hbad.
    assert (Hinv : invalidPtNodeArrayInfo entered = true).
    { unfold invalidPtNodeArrayInfo, entered. simpl.
      destruct Hbad as [Hneg | [Hnodes | Harrays]].
      + apply Z.ltb_lt in Hneg. now rewrite Hneg.
      + apply Z.ltb_lt in Hnodes. rewrite Hnodes. now rewrite orb_true_r.
      + apply Z.ltb_lt in Harrays. rewrite Harrays. now rewrite !orb_true_r. }
    assert (Hone : forall f, nextPtNodeArray (S f) h
              = Some (mkHelper true (setPos entered NOT_A_DICT_POS)
                        (mReadingStateStack h))).
    { intros f. rewrite nextPtNodeArray_S. fold rs. rewrite Hin.
      cbv zeta. rewrite Hentered, Hinv. reflexivity. }
    split; [apply Hone|]. split; [now rewrite !Hone|].
    intros h0 Hout. rewrite nextPtNodeArray_S, Hout. reflexivity.
  - intros Hzero Hnodes Harrays.
    rewrite nextPtNodeArray_S. fold rs. rewrite Hin. cbv zeta.
    rewrite Hentered.
    assert (Hinv : invalidPtNodeArrayInfo entered = false).
    { unfold invalidPtNodeArrayInfo, entered. simpl. rewrite Hzero.
      apply orb_false_iff. split; [apply orb_false_iff; split|];
        apply Z.ltb_ge; lia. }
    rewrite Hinv. unfold entered at 1. simpl. rewrite Hzero. reflexivity.
Qed.

(** C7, as the code has it.  When the forward link field at the current
    position decodes to a valid offset, [followForwardLink] records the
    position of the field, moves the current position to the position of
    that field plus the offset, and goes on as [nextPtNodeArray] from
    there. *)
Theorem followForwardLink_follows_from_link_field (fuel : nat) (h : Helper) :
  let rs := mReadingState h in
  outOfDictionary (mPos rs) = false ->
  isValidForwardLinkPosition (forwardLinkAt (mPos rs)) = true ->
  followForwardLink fuel h
  = nextPtNodeArray fuel
      (setReadingState h
         (setPos (setPosOfLastForwardLinkField rs (mPos rs))
            (mPos rs + forwardLinkAt (mPos rs)))).
Proof.
  intros rs Hin Hvalid. unfold followForwardLink.
  rewrite followForwardLinkWith_fields. fold rs. rewrite Hin. cbv zeta.
  rewrite Hvalid. reflexivity.
Qed.

End NavigationClaims.

(** C4 at work: the decoder of [negativeSizeDictionary] reports -1 at the
    array at 0. *)
Lemma nextPtNodeArray_invalid_info_witness :
  @nextPtNodeArray exampleDefines negativeSizeDictionary 1
    (@cursor (mkReadingState 0 0 0 0 0 noPos noPos))
  = Some (mkHelper true (mkReadingState noPos (-1) 0 (-1) 1 noPos 0) []).
Proof.
  pose proof (@nextPtNodeArray_invalid_info_is_an_error exampleDefines
                negativeSizeDictionary 0
                (@cursor (mkReadingState 0 0 0 0 0 noPos noPos))) as H.
  cbv zeta in H. destruct (H eq_refl) as [Hbad _].
  destruct Hbad as [Hone _]; [left; vm_compute; reflexivity|].
  exact Hone.
Defined.

(** C7 at work: the link field at 5 of [exampleDictionary] holds 15, and
    the array entered next is the one at 20. *)
Lemma followForwardLink_follows_from_link_field_witness :
  @followForwardLink exampleDefines exampleDictionary 5
    (@cursor (mkReadingState 5 0 0 1 1 noPos 0))
  = Some (@cursor (mkReadingState 21 1 0 2 2 5 20)).
Proof.
  rewrite (@followForwardLink_follows_from_link_field exampleDefines
             exampleDictionary 5 (@cursor (mkReadingState 5 0 0 1 1 noPos 0)));
    vm_compute; reflexivity.
Defined.

(** C7 as worded fails: the array whose link field sits at 5 has its head at
    0, the offset is 15, and the array entered is not the one a cursor at
    [0 + 15] would enter. *)
Lemma followForwardLink_not_from_array_head :
  let h := @cursor (mkReadingState 5 0 0 1 1 noPos 0) in
  let rs := mReadingState h in
  @outOfDictionary exampleDictionary (mPos rs) = false
  /\ @isValidForwardLinkPosition exampleDictionary
       (@forwardLinkAt exampleDictionary (mPos rs)) = true
  /\ @followForwardLink exampleDefines exampleDictionary 5 h
     <> @nextPtNodeArray exampleDefines exampleDictionary 5
          (setReadingState h
             (setPos (setPosOfLastForwardLinkField rs (mPos rs))
                (mPosOfThisPtNodeArrayHead rs
                 + @forwardLinkAt exampleDictionary (mPos rs)))).
Proof.
  cbv zeta. split; [vm_compute; reflexivity|].
  split; [vm_compute; reflexivity|].
  vm_compute. discriminate.
Qed.

(** ** Word lookup, one node at a time *)

Section LookupFacts.
Context {defs : Defines} {dict : Dictionary}.

Lemma readAt_lookup {A : Type} (a : list A) (i : Z) :
  0 <= i -> readAt a i = a !! Z.to_nat i.
Proof.
  intros Hi. unfold readAt.
  destruct (i <? 0) eqn:Hneg; [apply Z.ltb_lt in Hneg; lia | reflexivity].
Qed.

Lemma readAt_in_range {A : Type} (a : list A) (i : Z) :
  0 <= i < Z.of_nat (length a) -> exists x, readAt a i = Some x.
Proof.
  intros Hi. rewrite readAt_lookup by lia.
  destruct (lookup_lt_is_Some_2 a (Z.to_nat i)) as [x Hx]; [lia|eauto].
Qed.

(** The inner loop compares the rest of the node's code points with the
    search code points that face them. *)
Lemma followingCodePointsMatch_slices (search : list Z) (p : PtNodeParams)
    (matched : Z) (n : nat) :
  forall k : nat,
    (k + n)%nat = getCodePointCount p ->
    0 <= matched ->
    matched + Z.of_nat (getCodePointCount p) <= Z.of_nat (length search) ->
    followingCodePointsMatch search p matched (seq k n)
    = Ok (bool_decide
            (drop k (getCodePoints p)
             = take n (drop (Z.to_nat matched + k) search))).
Proof.
  unfold getCodePointCount.
  induction n as [|n IH]; intros k Hk Hm Hfit; simpl.
  - rewrite drop_ge by lia. rewrite take_0. reflexivity.
  - destruct (lookup_lt_is_Some_2 (getCodePoints p) k) as [c Hc]; [lia|].
    destruct (lookup_lt_is_Some_2 search (Z.to_nat matched + k)) as [x Hx];
      [lia|].
    rewrite readAt_lookup by lia.
    replace (Z.to_nat (matched + Z.of_nat k)) with (Z.to_nat matched + k)%nat
      by lia.
    rewrite Hx. simpl. unfold isMatchedCodePoint. rewrite Hc. simpl.
    rewrite (drop_S _ _ _ Hc), (drop_S _ _ _ Hx). simpl.
    destruct (c =? x) eqn:Hcx.
    + apply Z.eqb_eq in Hcx. subst x.
      rewrite IH by lia.
      replace (Z.to_nat matched + S k)%nat with (S (Z.to_nat matched + k))
        by lia.
      f_equal. apply bool_decide_ext. split; intros Heq.
      * now rewrite Heq.
      * now inversion Heq.
    + apply Z.eqb_neq in Hcx. f_equal. symmetry. apply bool_decide_eq_false.
      intros Heq. inversion Heq. contradiction.
Qed.

Lemma facingCodePoints_length (search : list Z) (h : Helper)
    (p : PtNodeParams) :
  0 <= getPrevTotalCodePointCount h ->
  getTotalCodePointCount h p <= Z.of_nat (length search) ->
  length (facingCodePoints search h p) = getCodePointCount p.
Proof.
  unfold facingCodePoints, getTotalCodePointCount, getPrevTotalCodePointCount.
  intros Hm Hfit. rewrite length_take, length_drop. lia.
Qed.

Lemma skipsPtNode_too_long (search : list Z) (len : Z) (h : Helper)
    (p : PtNodeParams) :
  len < getTotalCodePointCount h p ->
  skipsPtNode search len h p = Ok true.
Proof.
  intros Hlong. unfold skipsPtNode.
  apply Z.ltb_lt in Hlong. now rewrite Hlong.
Qed.

Lemma skipsPtNode_first (search : list Z) (h : Helper) (p : PtNodeParams)
    (c : Z) (cs : list Z) :
  0 <= getPrevTotalCodePointCount h ->
  getTotalCodePointCount h p <= Z.of_nat (length search) ->
  getCodePoints p = c :: cs ->
  exists x xs,
    facingCodePoints search h p = x :: xs
    /\ length xs = length cs
    /\ skipsPtNode search (Z.of_nat (length search)) h p
       = Ok (negb (c =? x))
    /\ followingCodePointsMatch search p (getPrevTotalCodePointCount h)
         (seq 1 (getCodePointCount p - 1))
       = Ok (bool_decide (cs = xs)).
Proof.
  intros Hm Hfit Hcps.
  pose proof (facingCodePoints_length search h p Hm Hfit) as Hlen.
  unfold getTotalCodePointCount, getPrevTotalCodePointCount in *.
  set (m := mTotalCodePointCountSinceInitialization (mReadingState h)) in *.
  assert (Hcount : getCodePointCount p = S (length cs)).
  { unfold getCodePointCount. now rewrite Hcps. }
  destruct (lookup_lt_is_Some_2 search (Z.to_nat m)) as [x Hx]; [lia|].
  exists x, (take (length cs) (drop (S (Z.to_nat m)) search)).
  assert (Hface : facingCodePoints search h p
                  = x :: take (length cs) (drop (S (Z.to_nat m)) search)).
  { unfold facingCodePoints, getPrevTotalCodePointCount. fold m.
    rewrite Hcount, (drop_S _ _ _ Hx). reflexivity. }
  split; [exact Hface|]. split.
  { rewrite Hface in Hlen. simpl in Hlen. lia. }
  split.
  - unfold skipsPtNode, getTotalCodePointCount, getPrevTotalCodePointCount.
    fold m.
    replace (Z.of_nat (length search) <? m + Z.of_nat (getCodePointCount p))
      with false by (symmetry; apply Z.ltb_ge; lia).
    rewrite readAt_lookup by lia. rewrite Hx. simpl.
    unfold isMatchedCodePoint. rewrite Hcps. reflexivity.
  - rewrite (followingCodePointsMatch_slices search p m
               (getCodePointCount p - 1) 1) by lia.
    rewrite Hcps, Hcount. simpl. rewrite Nat.sub_0_r.
    replace (Z.to_nat m + 1)%nat with (S (Z.to_nat m)) by lia.
    rewrite drop_0. reflexivity.
Qed.

(** One turn of the lookup loop, case by case; [facing] are the search
    code points that face the node under the cursor. *)
Lemma lookupTurn_cases (fuel : nat) (search : list Z) (h : Helper) :
  let p := getPtNodeParams h in
  let len := Z.of_nat (length search) in
  let total := getTotalCodePointCount h p in
  let facing := facingCodePoints search h p in
  let nextSibling :=
    let* h' := ofFuel (readNextSiblingNode fuel h p) in Ok (Next h') in
  0 <= getPrevTotalCodePointCount h ->
  (len < total -> lookupTurn fuel search len h = nextSibling)
  /\ (total <= len -> getCodePoints p <> [] ->
      head (getCodePoints p) <> head facing ->
      lookupTurn fuel search len h = nextSibling)
  /\ (total <= len -> getCodePoints p <> [] ->
      head (getCodePoints p) = head facing ->
      getCodePoints p <> facing ->
      lookupTurn fuel search len h = Ok (Return (NOT_A_DICT_POS, h)))
  /\ (total <= len -> getCodePoints p <> [] ->
      getCodePoints p = facing ->
      total = len ->
      lookupTurn fuel search len h
      = Ok (Return (if isTerminal p then getHeadPos p else NOT_A_DICT_POS,
                    h)))
  /\ (total < len -> getCodePoints p <> [] ->
      getCodePoints p = facing ->
      lookupTurn fuel search len h
      = if hasChildren p then
          let* h' := ofFuel (readChildNode fuel h p) in Ok (Next h')
        else Ok (Return (NOT_A_DICT_POS, h))).
Proof.
  intros p len total facing nextSibling Hm.
  split; [|split; [|split; [|split]]].
  - intros Hlong. unfold lookupTurn. fold p.
    rewrite skipsPtNode_too_long by exact Hlong. reflexivity.
  - intros Hfit Hne Hhead.
    destruct (getCodePoints p) as [|c cs] eqn:Hcps; [contradiction|].
    destruct (skipsPtNode_first search h p c cs Hm Hfit Hcps)
      as (x & xs & Hface & _ & Hskip & _).
    unfold lookupTurn. fold p. fold len in Hskip. rewrite Hskip.
    fold facing in Hface. rewrite Hface in Hhead. simpl in Hhead.
    assert (c <> x) by congruence.
    replace (c =? x) with false by (symmetry; now apply Z.eqb_neq).
    reflexivity.
  - intros Hfit Hne Hhead Hdiff.
    destruct (getCodePoints p) as [|c cs] eqn:Hcps; [contradiction|].
    destruct (skipsPtNode_first search h p c cs Hm Hfit Hcps)
      as (x & xs & Hface & _ & Hskip & Hrest).
    unfold lookupTurn. fold p. fold len in Hskip. rewrite Hskip.
    fold facing in Hface. rewrite Hface in Hhead, Hdiff. simpl in Hhead.
    assert (c = x) by congruence. subst x.
    rewrite Z.eqb_refl. simpl. rewrite Hrest.
    rewrite bool_decide_eq_false_2 by congruence. reflexivity.
  - intros Hfit Hne Hsame Hlen.
    destruct (getCodePoints p) as [|c cs] eqn:Hcps; [contradiction|].
    destruct (skipsPtNode_first search h p c cs Hm Hfit Hcps)
      as (x & xs & Hface & _ & Hskip & Hrest).
    unfold lookupTurn. fold p. fold len in Hskip. rewrite Hskip.
    fold facing in Hface. rewrite Hface in Hsame.
    inversion Hsame; subst x xs.
    rewrite Z.eqb_refl. simpl. rewrite Hrest.
    rewrite bool_decide_eq_true_2 by reflexivity. simpl.
    fold total. rewrite Hlen, Z.eqb_refl.
    destruct (isTerminal p); reflexivity.
  - intros Hshort Hne Hsame.
    destruct (getCodePoints p) as [|c cs] eqn:Hcps; [contradiction|].
    destruct (skipsPtNode_first search h p c cs Hm ltac:(lia) Hcps)
      as (x & xs & Hface & _ & Hskip & Hrest).
    unfold lookupTurn. fold p. fold len in Hskip. rewrite Hskip.
    fold facing in Hface. rewrite Hface in Hsame.
    inversion Hsame; subst x xs.
    rewrite Z.eqb_refl. simpl. rewrite Hrest.
    rewrite bool_decide_eq_true_2 by reflexivity. simpl.
    fold total.
    replace (len =? total) with false by (symmetry; apply Z.eqb_neq; lia).
    destruct (hasChildren p); reflexivity.
Qed.

(** C2.  One turn of the lookup loop, for a cursor whose matched count is
    not negative and a search sequence [search] of the search length.  With
    [facing] the search code points that face the node: the node is skipped
    for its next sibling when its total count exceeds the search length or
    its first code point differs from the first facing one; the lookup
    returns the not-found sentinel when the first code points agree and a
    later one differs; and when the whole node agrees and its total count
    is the search length, the lookup returns the node's head position if the
    node is terminal and the sentinel otherwise. *)
Theorem lookupTurn_examines_one_node (fuel : nat) (search : list Z)
    (h : Helper) :
  let p := getPtNodeParams h in
  let len := Z.of_nat (length search) in
  let total := getTotalCodePointCount h p in
  let facing := facingCodePoints search h p in
  let nextSibling :=
    let* h' := ofFuel (readNextSiblingNode fuel h p) in Ok (Next h') in
  0 <= getPrevTotalCodePointCount h ->
  (len < total -> lookupTurn fuel search len h = nextSibling)
  /\ (total <= len -> getCodePoints p <> [] ->
      head (getCodePoints p) <> head facing ->
      lookupTurn fuel search len h = nextSibling)
  /\ (total <= len -> getCodePoints p <> [] ->
      head (getCodePoints p) = head facing ->
      getCodePoints p <> facing ->
      lookupTurn fuel search len h = Ok (Return (NOT_A_DICT_POS, h)))
  /\ (total <= len -> getCodePoints p <> [] ->
      getCodePoints p = facing ->
      total = len ->
      lookupTurn fuel search len h
      = Ok (Return (if isTerminal p then getHeadPos p else NOT_A_DICT_POS,
                    h))).
Proof.
  intros p len total facing nextSibling Hm.
  destruct (lookupTurn_cases fuel search h Hm)
    as (Hlong & Hfirst & Hlater & Hfound & _).
  repeat split; assumption.
Qed.

End LookupFacts.

(** C2 at work: the cursor is on "c" below "a", the search is "ac". *)
Lemma lookupTurn_examines_one_node_witness :
  let h := @cursor (mkReadingState 12 1 1 2 1 noPos 8) in
  @lookupTurn exampleDefines exampleDictionary 5 [97; 99] 2 h
  = Ok (Return (12, h)).
Proof.
  intros h.
  destruct (@lookupTurn_examines_one_node exampleDefines exampleDictionary
              5 [97; 99] h) as (_ & _ & _ & Hfound).
  - vm_compute. discriminate.
  - apply Hfound; vm_compute; try reflexivity; discriminate.
Defined.

(** ** Loops and their runs *)

Section LoopFacts.
Context {St R : Type} (cond : St -> bool) (turn : St -> Outcome (Step St R)).

Lemma whileLoop_S (fuel : nat) (s : St) :
  whileLoop cond turn (S fuel) s =
  if cond s then
    match turn s with
    | Ok (Next s') => whileLoop cond turn fuel s'
    | Ok (Break s') => Ok (inl s')
    | Ok (Return r) => Ok (inr r)
    | Faulted f => Faulted f
    | OutOfFuel => OutOfFuel
    end
  else Ok (inl s).
Proof. reflexivity. Qed.

(** A loop whose turns keep an invariant and never fault does not fault. *)
Lemma whileLoop_no_fault (Inv : St -> Prop) :
  (forall s, Inv s -> cond s = true ->
     (forall f, turn s <> Faulted f)
     /\ (forall s', turn s = Ok (Next s') -> Inv s')) ->
  forall fuel s f, Inv s -> whileLoop cond turn fuel s <> Faulted f.
Proof.
  intros Hturn fuel.
  induction fuel as [|fuel IH]; intros s f Hinv; [discriminate|].
  rewrite whileLoop_S.
  destruct (cond s) eqn:Hcond; [|discriminate].
  destruct (Hturn s Hinv Hcond) as [Hsafe Hnext].
  destruct (turn s) as [[s'|s'|r]|f'|] eqn:Hs; try discriminate.
  - apply IH. now apply Hnext.
  - exfalso. now apply (Hsafe f').
Qed.

(** An invariant of the turns holds wherever the loop stands. *)
Lemma Reaches_invariant (Inv : St -> Prop) :
  (forall s s', Inv s -> cond s = true -> turn s = Ok (Next s') -> Inv s') ->
  forall s s', Reaches cond turn s s' -> Inv s -> Inv s'.
Proof.
  intros Hturn s s' Hrun.
  induction Hrun as [s|s s1 s2 Hcond Hs _ IH]; intros Hinv; [exact Hinv|].
  apply IH. eapply Hturn; eauto.
Qed.

Lemma Turns_Reaches (n : nat) (s s' : St) :
  Turns cond turn n s s' -> Reaches cond turn s s'.
Proof.
  induction 1; [constructor | econstructor; eauto].
Qed.

Lemma Turns_app (n m : nat) (s s' s'' : St) :
  Turns cond turn n s s' -> Turns cond turn m s' s'' ->
  Turns cond turn (n + m) s s''.
Proof.
  induction 1; intros Hrest; simpl; [exact Hrest|].
  econstructor; eauto.
Qed.

Lemma Turns_cast (n : nat) (a a' b b' : St) :
  Turns cond turn n a b -> a = a' -> b = b' -> Turns cond turn n a' b'.
Proof. intros H <- <-. exact H. Qed.

Lemma Turns_one (s s' : St) :
  cond s = true -> turn s = Ok (Next s') -> Turns cond turn 1 s s'.
Proof. intros Hc Ht. econstructor; eauto. constructor. Qed.

(** A run of [n] turns uses up [n] units of fuel. *)
Lemma whileLoop_Turns (n : nat) (s s' : St) (fuel : nat) :
  Turns cond turn n s s' ->
  whileLoop cond turn (n + fuel) s = whileLoop cond turn fuel s'.
Proof.
  induction 1 as [s|n s s1 s2 Hcond Hs _ IH]; simpl; [reflexivity|].
  rewrite Hcond, Hs. exact IH.
Qed.

Lemma whileLoop_Turns_le (n : nat) (s s' : St) (fuel : nat) :
  Turns cond turn n s s' -> (n < fuel)%nat ->
  whileLoop cond turn fuel s = whileLoop cond turn (S (fuel - n - 1)) s'.
Proof.
  intros Hrun Hle.
  replace fuel with (n + S (fuel - n - 1))%nat at 1 by lia.
  now apply whileLoop_Turns.
Qed.

End LoopFacts.

Section LookupSafety.
Context {defs : Defines} {dict : Dictionary}.

Lemma ofFuel_no_fault {A : Type} (o : option A) (f : Fault) :
  ofFuel o <> Faulted f.
Proof. destruct o; discriminate. Qed.

(** One turn of the lookup on a node that has a code point: no array is
    read outside its bounds, and the matched count stays non-negative. *)
Lemma lookupTurn_in_range (fuel : nat) (search : list Z) (len : Z)
    (h : Helper) :
  Z.of_nat (length search) = Z.max 0 len ->
  0 <= getPrevTotalCodePointCount h ->
  getCodePoints (getPtNodeParams h) <> [] ->
  (forall f, lookupTurn fuel search len h <> Faulted f)
  /\ (forall h', lookupTurn fuel search len h = Ok (Next h') ->
      0 <= getPrevTotalCodePointCount h').
Proof.
  intros Hlen Hm Hne.
  set (p := getPtNodeParams h) in *.
  destruct (Z.ltb_spec len (getTotalCodePointCount h p)) as [Hlong|Hfit].
  - unfold lookupTurn. fold p.
    rewrite skipsPtNode_too_long by exact Hlong. simpl.
    destruct (readNextSiblingNode fuel h p) as [h1|] eqn:Hsib; simpl.
    + split; [discriminate|]. intros h' Heq. inversion Heq; subst h'.
      unfold getPrevTotalCodePointCount in *.
      now rewrite (readNextSiblingNode_codePointCount _ _ _ _ Hsib).
    + split; discriminate.
  - destruct (getCodePoints p) as [|c cs] eqn:Hcps; [contradiction|].
    assert (Hpos : 0 <= len).
    { unfold getTotalCodePointCount, getPrevTotalCodePointCount in *. lia. }
    assert (Hlen' : len = Z.of_nat (length search)) by lia.
    assert (Hfit' : getTotalCodePointCount h p <= Z.of_nat (length search))
      by lia.
    destruct (skipsPtNode_first search h p c cs Hm Hfit' Hcps)
      as (x & xs & _ & _ & Hskip & Hrest).
    unfold lookupTurn. fold p. rewrite Hlen', Hskip. simpl.
    destruct (c =? x); simpl.
    + rewrite Hrest. simpl.
      destruct (bool_decide (cs = xs)); simpl; [|split; discriminate].
      destruct (_ =? _); [destruct (isTerminal p); split; discriminate|].
      destruct (hasChildren p) eqn:Hkids; simpl; [|split; discriminate].
      destruct (readChildNode fuel h p) as [h1|] eqn:Hchild; simpl.
      * split; [discriminate|]. intros h' Heq. inversion Heq; subst h'.
        unfold getPrevTotalCodePointCount in *.
        rewrite (readChildNode_codePointCount _ _ _ _ Hkids Hchild). lia.
      * split; discriminate.
    + destruct (readNextSiblingNode fuel h p) as [h1|] eqn:Hsib; simpl.
      * split; [discriminate|]. intros h' Heq. inversion Heq; subst h'.
        unfold getPrevTotalCodePointCount in *.
        now rewrite (readNextSiblingNode_codePointCount _ _ _ _ Hsib).
      * split; discriminate.
Qed.

(** A run of the loop goes on by one more turn. *)
Lemma Reaches_one_more {St R : Type} (cond : St -> bool)
    (turn : St -> Outcome (Step St R)) (s s' s'' : St) :
  Reaches cond turn s s' -> cond s' = true -> turn s' = Ok (Next s'') ->
  Reaches cond turn s s''.
Proof.
  induction 1 as [s|s s1 s2 Hcond Hs _ IH]; intros Hc Ht.
  - econstructor; [exact Hc | exact Ht | constructor].
  - econstructor; [exact Hcond | exact Hs | now apply IH].
Qed.

(** C10.  A lookup for a search length of at least one, in which every
    record that is decoded (the record under the cursor at the head of each
    turn of the loop of lines 220-252) carries at least one code point,
    never reads its lowered search array outside [0, length): the
    first-code-point read at the matched count and the reads at matched
    count + j all succeed, and so do the reads of the node's own code
    points.  The lookup may start from any cursor whose matched count is
    not negative; nothing is asked of the records it does not decode. *)
Theorem lookup_reads_search_codePoints_in_range (fuel : nat) (h : Helper)
    (inWord : list Z) (length : Z) (forceLowerCaseSearch : bool) :
  (forall searchCodePoints h',
     lowerSearchCodePoints inWord length forceLowerCaseSearch
     = Ok searchCodePoints ->
     Reaches (fun h => negb (isEnd h))
       (lookupTurn fuel searchCodePoints length) h h' ->
     isEnd h' = false ->
     (1 <= getCodePointCount (getPtNodeParams h'))%nat) ->
  0 <= getPrevTotalCodePointCount h ->
  1 <= length ->
  getTerminalPtNodePositionOfWord fuel h inWord length forceLowerCaseSearch
  <> Faulted SearchIndexOutOfRange
  /\ getTerminalPtNodePositionOfWord fuel h inWord length forceLowerCaseSearch
     <> Faulted NodeCodePointIndexOutOfRange.
Proof.
  intros Hnodes Hm Hlen.
  unfold getTerminalPtNodePositionOfWord.
  destruct (lowerSearchCodePoints inWord length forceLowerCaseSearch)
    as [search|f|] eqn:Hlower; simpl; [| |split; discriminate].
  2:{ unfold lowerSearchCodePoints in Hlower.
      destruct (_ <? _); inversion Hlower; subst f. split; discriminate. }
  assert (Hsearch : Z.of_nat (List.length search) = Z.max 0 length).
  { unfold lowerSearchCodePoints in Hlower.
    destruct (Z.ltb_spec (Z.of_nat (List.length inWord)) length);
      [discriminate|].
    inversion Hlower; subst search. rewrite length_map, length_take. lia. }
  set (cond := fun h : Helper => negb (isEnd h)).
  assert (Hsafe : forall f,
            whileLoop cond (lookupTurn fuel search length) fuel h
            <> Faulted f).
  { intros f.
    apply (whileLoop_no_fault _ _
             (fun s => Reaches cond (lookupTurn fuel search length) h s
                       /\ 0 <= getPrevTotalCodePointCount s));
      [|split; [constructor | exact Hm]].
    intros s [Hreach Hs] Hcond.
    assert (Hne : getCodePoints (getPtNodeParams s) <> []).
    { unfold cond in Hcond. apply negb_true_iff in Hcond.
      specialize (Hnodes search s eq_refl Hreach Hcond).
      unfold getCodePointCount in Hnodes.
      destruct (getCodePoints _); [simpl in Hnodes; lia | discriminate]. }
    destruct (lookupTurn_in_range fuel search length s Hsearch Hs Hne)
      as [Hno Hnext].
    split; [exact Hno|].
    intros s' Hturn. split; [|now apply Hnext].
    eapply Reaches_one_more; eauto. }
  destruct (whileLoop _ _ fuel h) as [[h'|r]|f|] eqn:Hloop; simpl;
    try (split; discriminate).
  exfalso. now apply (Hsafe f).
Qed.

End LookupSafety.

(** ** Reverse reconstruction *)

Section ReconstructFacts.
Context {defs : Defines} {dict : Dictionary}.

Lemma writeAt_in_range {A : Type} (a : list A) (i : Z) (v : A) :
  0 <= i < Z.of_nat (length a) ->
  writeAt a i v = Some (<[Z.to_nat i := v]> a).
Proof.
  intros Hi. unfold writeAt.
  replace (0 <=? i) with true by (symmetry; apply Z.leb_le; lia).
  replace (i <? Z.of_nat (length a)) with true
    by (symmetry; apply Z.ltb_lt; lia).
  reflexivity.
Qed.

Lemma rev_lookup_back {A : Type} (l : list A) (i : nat) :
  (i < length l)%nat -> l !! (length l - 1 - i)%nat = reverse l !! i.
Proof.
  intros Hi. rewrite reverse_lookup by exact Hi. f_equal. lia.
Qed.

(** The copying loop fills the slots [index + i .. index + i + n) with the
    node's code points taken from the back, and touches nothing else. *)
Lemma fetchMergedNodeCodePointsLoop_fills (p : PtNodeParams) (index : Z)
    (n : nat) :
  forall (i : nat) (buf : list (option Z)),
    (i + n)%nat = getCodePointCount p ->
    0 <= index ->
    index + Z.of_nat (getCodePointCount p) <= Z.of_nat (length buf) ->
    fetchMergedNodeCodePointsLoop p index (seq i n) buf
    = Ok (take (Z.to_nat index + i) buf
          ++ map Some (take n (drop i (reverse (getCodePoints p))))
          ++ drop (Z.to_nat index + i + n) buf).
Proof.
  unfold getCodePointCount.
  induction n as [|n IH]; intros i buf Hi Hindex Hfit; simpl.
  - rewrite Nat.add_0_r, take_drop. reflexivity.
  - destruct (lookup_lt_is_Some_2 (reverse (getCodePoints p)) i) as [c Hc];
      [rewrite length_reverse; lia|].
    unfold getCodePointCount.
    rewrite rev_lookup_back by lia. rewrite Hc. simpl.
    rewrite writeAt_in_range by lia. simpl.
    replace (Z.to_nat (index + Z.of_nat i)) with (Z.to_nat index + i)%nat
      by lia.
    rewrite IH by (rewrite ?length_insert; lia).
    f_equal.
    rewrite (drop_S _ _ _ Hc). simpl.
    replace (Z.to_nat index + S i)%nat with (S (Z.to_nat index + i)) by lia.
    destruct (lookup_lt_is_Some_2 buf (Z.to_nat index + i)) as [old Hold];
      [lia|].
    rewrite (take_S_r _ _ (Some c))
      by (apply list_lookup_insert_eq; lia).
    rewrite take_insert_ge by lia.
    rewrite drop_insert_lt by lia.
    rewrite <- app_assoc. simpl.
    replace (S (Z.to_nat index + i) + n)%nat
      with (Z.to_nat index + i + S n)%nat by lia.
    repeat f_equal; lia.
Qed.

Lemma fetchMergedNodeCodePointsInReverseOrder_fills (p : PtNodeParams)
    (index : Z) (buf : list (option Z)) :
  0 <= index ->
  index + Z.of_nat (getCodePointCount p) <= Z.of_nat (length buf) ->
  fetchMergedNodeCodePointsInReverseOrder p index buf
  = Ok (take (Z.to_nat index) buf
        ++ map Some (reverse (getCodePoints p))
        ++ drop (Z.to_nat index + getCodePointCount p) buf).
Proof.
  intros Hindex Hfit. unfold fetchMergedNodeCodePointsInReverseOrder.
  rewrite (fetchMergedNodeCodePointsLoop_fills p index _ 0 buf)
    by (try lia; reflexivity).
  rewrite Nat.add_0_r, drop_0.
  rewrite (take_ge (reverse _))
    by (rewrite length_reverse; unfold getCodePointCount; lia).
  reflexivity.
Qed.

Lemma readParentNode_codePointCount (h : Helper) (p : PtNodeParams) :
  0 <= getPrevTotalCodePointCount h ->
  0 <= getPrevTotalCodePointCount (readParentNode h p).
Proof.
  unfold readParentNode, getPrevTotalCodePointCount.
  destruct (negb _); simpl; lia.
Qed.

Lemma parentChain_S (k : nat) (h : Helper) :
  parentChain (S k) h
  = readParentNode (parentChain k h) (getPtNodeParams (parentChain k h)).
Proof.
  revert h. induction k as [|k IH]; intros h; [reflexivity|].
  change (parentChain (S (S k)) h)
    with (parentChain (S k) (readParentNode h (getPtNodeParams h))).
  rewrite IH. reflexivity.
Qed.

Lemma parentChain_codePointCount (k : nat) (h : Helper) :
  0 <= getPrevTotalCodePointCount h ->
  0 <= getPrevTotalCodePointCount (parentChain k h).
Proof.
  revert h. induction k as [|k IH]; intros h Hm; [exact Hm|].
  simpl. apply IH. now apply readParentNode_codePointCount.
Qed.

Lemma parentChain_mIsError (k : nat) (h : Helper) :
  mIsError (parentChain k h) = mIsError h.
Proof.
  revert h. induction k as [|k IH]; intros h; [reflexivity|].
  simpl. rewrite IH. unfold readParentNode.
  destruct (negb _); reflexivity.
Qed.

(** One turn on an accepted node copies its code points and moves to the
    parent. *)
Lemma reconstructTurn_accepts (maxCodePointCount : Z) (out : list Z)
    (h : Helper) (buf : list (option Z)) (t : Z) :
  acceptsPtNode maxCodePointCount h ->
  0 <= getPrevTotalCodePointCount h ->
  maxCodePointCount <= Z.of_nat (length buf) ->
  exists buf',
    reconstructTurn maxCodePointCount out (h, buf, t)
    = Ok (Next (readParentNode h (getPtNodeParams h), buf',
                getTotalCodePointCount h (getPtNodeParams h)))
    /\ length buf' = length buf
    /\ buf' = take (Z.to_nat (getPrevTotalCodePointCount h)) buf
              ++ map Some (reverse (getCodePoints (getPtNodeParams h)))
              ++ drop (Z.to_nat (getPrevTotalCodePointCount h)
                       + getCodePointCount (getPtNodeParams h)) buf.
Proof.
  intros (Hend & Hvalid & Hfit) Hm Hbuf.
  unfold reconstructTurn. rewrite Hvalid. simpl.
  replace (maxCodePointCount <? _) with false
    by (symmetry; apply Z.ltb_ge; exact Hfit).
  unfold getTotalCodePointCount, getPrevTotalCodePointCount in *.
  rewrite fetchMergedNodeCodePointsInReverseOrder_fills by lia.
  eexists. split; [reflexivity|]. split; [|reflexivity].
  rewrite !length_app, length_map, length_reverse, length_take, length_drop.
  unfold getCodePointCount in *. lia.
Qed.

(** Up to the first node the loop does not accept, the loop walks the
    parent chain. *)
Lemma reconstruct_Turns (maxCodePointCount : Z) (out : list Z) (k : nat) :
  forall (h : Helper) (buf : list (option Z)) (t : Z),
    (forall i, (i < k)%nat ->
       acceptsPtNode maxCodePointCount (parentChain i h)) ->
    0 <= getPrevTotalCodePointCount h ->
    maxCodePointCount <= Z.of_nat (length buf) ->
    exists buf' t',
      Turns (fun s => negb (isEnd (fst (fst s))))
        (reconstructTurn maxCodePointCount out) k
        (h, buf, t) (parentChain k h, buf', t')
      /\ length buf' = length buf.
Proof.
  induction k as [|k IH]; intros h buf t Hacc Hm Hbuf.
  - exists buf, t. split; [constructor | reflexivity].
  - assert (Hacc0 : acceptsPtNode maxCodePointCount h)
      by (apply (Hacc 0%nat); lia).
    destruct (reconstructTurn_accepts maxCodePointCount out h buf t
                Hacc0 Hm Hbuf) as (buf1 & Hturn & Hlen1 & _).
    destruct (IH (readParentNode h (getPtNodeParams h)) buf1
                (getTotalCodePointCount h (getPtNodeParams h)))
      as (buf' & t' & Hturns & Hlen).
    + intros i Hi. apply (Hacc (S i)). lia.
    + now apply readParentNode_codePointCount.
    + lia.
    + exists buf', t'. split; [|lia].
      econstructor; [|exact Hturn|exact Hturns].
      simpl. destruct Hacc0 as (Hend & _). now rewrite Hend.
Qed.

End ReconstructFacts.

Section LoopPost.
Context {St R : Type} (cond : St -> bool) (turn : St -> Outcome (Step St R)).

(** Hoare-style rule for the loop: what every way out of the loop
    establishes holds of the loop, however much fuel it is given. *)
Lemma whileLoop_post (Inv : St -> Prop) (Post : Outcome (St + R) -> Prop) :
  (forall s, Inv s -> cond s = true ->
     match turn s with
     | Ok (Next s') => Inv s'
     | Ok (Break s') => Post (Ok (inl s'))
     | Ok (Return r) => Post (Ok (inr r))
     | Faulted f => Post (Faulted f)
     | OutOfFuel => Post OutOfFuel
     end) ->
  (forall s, Inv s -> cond s = false -> Post (Ok (inl s))) ->
  Post OutOfFuel ->
  forall fuel s, Inv s -> Post (whileLoop cond turn fuel s).
Proof.
  intros Hturn Hexit Hfuel fuel.
  induction fuel as [|fuel IH]; intros s Hinv; [exact Hfuel|].
  rewrite whileLoop_S.
  destruct (cond s) eqn:Hcond; [|now apply Hexit].
  specialize (Hturn s Hinv Hcond).
  destruct (turn s) as [[s'|s'|r]|f|]; try assumption.
  now apply IH.
Qed.

End LoopPost.

Section ReconstructClaims.
Context {defs : Defines} {dict : Dictionary}.

(** The closing loop of lines 208-210 stays inside both arrays and leaves
    the caller's array alone from slot [t] on. *)
Lemma reverseStoredCodePoints_in_range (buf : list (option Z)) (t : Z)
    (n : nat) :
  forall (i : nat) (out : list Z),
    (i + n)%nat = Z.to_nat t ->
    0 <= t <= Z.of_nat (length buf) ->
    t <= Z.of_nat (length out) ->
    match reverseStoredCodePoints buf t (seq i n) out with
    | Ok out' =>
      length out' = length out
      /\ drop (Z.to_nat t) out' = drop (Z.to_nat t) out
    | Faulted f => f = ReverseBufferUninitialised
    | OutOfFuel => False
    end.
Proof.
  induction n as [|n IH]; intros i out Hi Ht Hout; simpl; [tauto|].
  destruct (readAt_in_range buf (t - Z.of_nat i - 1)) as [slot Hslot]; [lia|].
  rewrite Hslot. simpl.
  destruct slot as [c|]; simpl; [|reflexivity].
  rewrite writeAt_in_range by lia. simpl.
  rewrite Nat2Z.id.
  specialize (IH (S i) (<[i:=c]> out)).
  destruct (reverseStoredCodePoints buf t (seq (S i) n) (<[i:=c]> out)).
  - destruct IH as [Hlen Hdrop]; [lia|lia|rewrite length_insert; lia|].
    rewrite length_insert in Hlen. split; [exact Hlen|].
    rewrite Hdrop. apply drop_insert_lt. lia.
  - apply IH; [lia|lia|rewrite length_insert; lia].
  - apply IH; [lia|lia|rewrite length_insert; lia].
Qed.

(** C6.  Reverse reconstruction from a cursor that stands on a valid
    terminal node, with the matched count not negative.  Let the first [k]
    nodes of the parent chain be accepted by the loop.  If node [k] is not
    valid, or the code point count up to and including it exceeds
    [maxCodePointCount], the call returns length zero and the no-probability
    sentinel; so it does when the chain ends after [k] nodes and the error
    flag is up.  And whatever the dictionary holds, when the caller's array
    has room for [maxCodePointCount] code points no write falls outside an
    array, and the caller's array keeps its length and its content from slot
    [maxCodePointCount] on. *)
Theorem reconstruction_fails_closed (fuel k : nat) (h : Helper)
    (maxCodePointCount : Z) (out : list Z) :
  let result f :=
    getCodePointsAndProbabilityAndReturnCodePointCount f h maxCodePointCount
      out in
  let hk := parentChain k h in
  let failed := Ok (mkReconstruction 0 out NOT_A_PROBABILITY hk) in
  0 <= getPrevTotalCodePointCount h ->
  (isValidTerminalNode h (getPtNodeParams h) = true ->
   (forall i, (i < k)%nat ->
      acceptsPtNode maxCodePointCount (parentChain i h)) ->
   (k < fuel)%nat ->
   (isEnd hk = false ->
    isValid (getPtNodeParams hk) = false
    \/ maxCodePointCount < getTotalCodePointCount hk (getPtNodeParams hk) ->
    result fuel = failed)
   /\ (isEnd hk = true -> isError h = true -> result fuel = failed))
  /\ (maxCodePointCount <= Z.of_nat (length out) ->
      forall f,
        result f <> Faulted ReverseBufferIndexOutOfRange
        /\ result f <> Faulted OutputIndexOutOfRange
        /\ forall r, result f = Ok r ->
             length (outCodePoints r) = length out
             /\ drop (Z.to_nat maxCodePointCount) (outCodePoints r)
                = drop (Z.to_nat maxCodePointCount) out).
Proof.
  intros result hk failed Hm. split.
  - intros Hterminal Hacc Hfuel.
    destruct (reconstruct_Turns maxCodePointCount out k h
                (replicate (Z.to_nat maxCodePointCount) None) 0 Hacc Hm)
      as (buf & t & Hturns & _); [rewrite length_replicate; lia|].
    assert (Hloop : forall f',
              whileLoop (fun s => negb (isEnd (fst (fst s))))
                (reconstructTurn maxCodePointCount out) (k + f')
                (h, replicate (Z.to_nat maxCodePointCount) None, 0)
              = whileLoop (fun s => negb (isEnd (fst (fst s))))
                  (reconstructTurn maxCodePointCount out) f' (hk, buf, t))
      by (intros f'; now apply whileLoop_Turns).
    unfold result, getCodePointsAndProbabilityAndReturnCodePointCount.
    rewrite Hterminal. simpl.
    replace fuel with (k + S (fuel - S k))%nat by lia.
    rewrite Hloop, whileLoop_S. simpl. split.
    + intros Hend Hbad. rewrite Hend. simpl.
      unfold reconstructTurn. fold hk.
      replace (negb (isValid (getPtNodeParams hk))
               || (maxCodePointCount
                   <? getTotalCodePointCount hk (getPtNodeParams hk)))
        with true; [reflexivity|].
      symmetry. apply orb_true_iff.
      destruct Hbad as [Hinvalid|Hlong].
      * left. now rewrite Hinvalid.
      * right. now apply Z.ltb_lt.
    + intros Hend Herr. rewrite Hend. simpl.
      unfold isError in *. unfold hk at 1.
      rewrite parentChain_mIsError, Herr. reflexivity.
  - intros Hroom f.
    unfold result, getCodePointsAndProbabilityAndReturnCodePointCount.
    destruct (negb (isValidTerminalNode h (getPtNodeParams h))).
    { simpl. split; [discriminate|]. split; [discriminate|].
      intros rr Hr. now inversion Hr. }
    set (n := Z.to_nat maxCodePointCount).
    pose (Inv := fun s : Helper * list (option Z) * Z =>
                   0 <= getPrevTotalCodePointCount (fst (fst s))
                   /\ length (snd (fst s)) = n
                   /\ 0 <= snd s <= Z.of_nat n).
    pose (Post := fun o : Outcome (Helper * list (option Z) * Z
                                   + Reconstruction) =>
                    match o with
                    | Ok (inl s) => length (snd (fst s)) = n
                                    /\ 0 <= snd s <= Z.of_nat n
                    | Ok (inr r) => outCodePoints r = out
                    | Faulted _ => False
                    | OutOfFuel => True
                    end).
    assert (Hpost : Post (whileLoop (fun s => negb (isEnd (fst (fst s))))
                            (reconstructTurn maxCodePointCount out) f
                            (h, replicate n None, 0))).
    { apply (whileLoop_post _ _ Inv Post).
      - intros [[h1 buf] t] (Hm1 & Hlen & Ht) Hcond.
        simpl in Hm1, Hlen, Ht, Hcond.
        destruct (negb (isValid (getPtNodeParams h1))
                  || (maxCodePointCount
                      <? getTotalCodePointCount h1 (getPtNodeParams h1)))
          eqn:Hbad.
        + unfold reconstructTurn. cbv zeta. rewrite Hbad. reflexivity.
        + apply orb_false_iff in Hbad. destruct Hbad as [Hvalid Hfit].
          apply negb_false_iff in Hvalid. apply Z.ltb_ge in Hfit.
          apply negb_true_iff in Hcond.
          assert (Hacc : acceptsPtNode maxCodePointCount h1)
            by (repeat split; assumption).
          assert (0 <= getTotalCodePointCount h1 (getPtNodeParams h1))
            by (unfold getTotalCodePointCount, getPrevTotalCodePointCount
                  in *; lia).
          destruct (reconstructTurn_accepts maxCodePointCount out h1 buf t
                      Hacc Hm1) as (buf' & Hturn & Hlen' & _); [lia|].
          rewrite Hturn. unfold Inv. simpl.
          split; [now apply readParentNode_codePointCount|].
          split; [lia|lia].
      - intros [[h1 buf] t] (_ & Hlen & Ht) _. simpl in *. tauto.
      - exact I.
      - unfold Inv. simpl. rewrite length_replicate. lia. }
    destruct (whileLoop _ _ f _) as [[[[h1 buf] t]|r]|fl|]; simpl in *;
      try contradiction.
    + destruct Hpost as [Hlen Ht].
      destruct (isError h1).
      { split; [discriminate|]. split; [discriminate|].
        intros rr Hr. now inversion Hr. }
      pose proof (reverseStoredCodePoints_in_range buf t (Z.to_nat t) 0 out)
        as Hrev.
      destruct (reverseStoredCodePoints buf t (seq 0 (Z.to_nat t)) out)
        as [out'|fl|]; simpl.
      * destruct Hrev as [Hlen' Hdrop]; [lia|lia|lia|].
        split; [discriminate|]. split; [discriminate|].
        intros rr Hr. inversion Hr; subst rr. simpl. split; [exact Hlen'|].
        replace n with (Z.to_nat t + (n - Z.to_nat t))%nat by lia.
        rewrite <- !drop_drop. now rewrite Hdrop.
      * rewrite Hrev by lia.
        split; [discriminate|]. split; discriminate.
      * exfalso. apply Hrev; lia.
    + split; [discriminate|]. split; [discriminate|].
      intros rr Hr. inversion Hr; subst rr. now rewrite Hpost.
    + split; [discriminate|]. split; discriminate.
Qed.

End ReconstructClaims.

(** C6 at work: from "c", whose parent is "a", with room for one code
    point: "c" is accepted, and at "a" the count is two. *)
Lemma reconstruction_fails_closed_witness :
  let h := @initWithPtNodePos exampleDefines (@freshHelper exampleDefines) 12 in
  @getCodePointsAndProbabilityAndReturnCodePointCount exampleDefines
    exampleDictionary 5 h 1 [0; 0]
  = Ok (mkReconstruction 0 [0; 0] (-1)
          (@parentChain exampleDefines exampleDictionary 1 h)).
Proof.
  intros h.
  destruct (@reconstruction_fails_closed exampleDefines exampleDictionary
              5 1 h 1 [0; 0]) as [Hfails _].
  - vm_compute. discriminate.
  - destruct Hfails as [Hnode _].
    + vm_compute. reflexivity.
    + intros i Hi. assert (i = 0%nat) by lia. subst i.
      split; [vm_compute; reflexivity|].
      split; [vm_compute; reflexivity|].
      vm_compute. discriminate.
    + lia.
    + apply Hnode; [vm_compute; reflexivity|].
      right. vm_compute. reflexivity.
Defined.

(** C10 at work: the lookup of "ac" on the example trie decodes "a", "b"
    and "c" and returns at "c". *)
Lemma lookup_reads_search_codePoints_in_range_witness :
  let h := @cursor exampleRoot in
  @getTerminalPtNodePositionOfWord exampleDefines exampleDictionary 5 h
    [97; 99] 2 false <> Faulted SearchIndexOutOfRange
  /\ @getTerminalPtNodePositionOfWord exampleDefines exampleDictionary 5 h
       [97; 99] 2 false <> Faulted NodeCodePointIndexOutOfRange.
Proof.
  intros h.
  apply (@lookup_reads_search_codePoints_in_range exampleDefines
           exampleDictionary 5 h [97; 99] 2 false).
  - intros search h' Hlower Hreach _.
    vm_compute in Hlower. inversion Hlower; subst search. clear Hlower.
    inversion Hreach as [|s0 s1 s2 _ Hturn1 Hrest1]; subst;
      [vm_compute; lia|].
    vm_compute in Hturn1. inversion Hturn1; subst s1. clear Hturn1 Hreach.
    inversion Hrest1 as [|s0 s1 s2 _ Hturn2 Hrest2]; subst;
      [vm_compute; lia|].
    vm_compute in Hturn2. inversion Hturn2; subst s1. clear Hturn2 Hrest1.
    inversion Hrest2 as [|s0 s1 s2 _ Hturn3 _]; subst;
      [vm_compute; lia|].
    vm_compute in Hturn3. discriminate Hturn3.
  - vm_compute. discriminate.
  - lia.
Defined.

(** ** The empty root array *)

Section EmptyRoot.
Context {defs : Defines} {dict : Dictionary}.
Context {L : Type} (listener : TraversingEventListener L).

Lemma pushReadingStateToStack_isEnd (h : Helper) :
  isEnd h = true -> isEnd (pushReadingStateToStack h) = true.
Proof.
  intros Hend. unfold pushReadingStateToStack.
  destruct (_ <=? _)%nat; [apply raiseError_isEnd | exact Hend].
Qed.

(** C9.  When the array-level pre-order traversal starts at end-of-chain
    and the listener accepts the opening [onDescend], the tail event is
    delivered right after it, before the loop, and it is the only tail event
    of the call: the events are the descent, the tail and, unless the
    listener stops at the tail, the closing ascent. *)
Theorem preorder_notifies_tail_of_empty_root (fuel : nat) (h : Helper) (l : L) :
  isEnd h = true ->
  fst (onDescend listener (getPosOfLastPtNodeArrayHead h) l) = true ->
  exists (result : bool) (w : Walk L) (closing : list Event),
    traverseAllPtNodesInPtNodeArrayLevelPreorderDepthFirstManner listener
      (S fuel) h l = Ok (result, w)
    /\ wEvents w
       = [EvDescend (getPosOfLastPtNodeArrayHead h); EvReadingPtNodeArrayTail]
         ++ closing
    /\ (closing = [] \/ closing = [EvAscend])
    /\ length (List.filter isTailEvent (wEvents w)) = 1%nat.
Proof.
  intros Hend Hdescend.
  unfold traverseAllPtNodesInPtNodeArrayLevelPreorderDepthFirstManner,
    preorderEnter, notify.
  simpl.
  destruct (onDescend listener (getPosOfLastPtNodeArrayHead h) l)
    as [ok1 l1]. simpl in Hdescend. subst ok1. simpl. rewrite Hend.
  destruct (onReadingPtNodeArrayTail listener l1) as [ok2 l2]. simpl.
  destruct ok2; simpl.
  - rewrite (pushReadingStateToStack_isEnd h Hend). simpl.
    unfold ascendToRoot, notify. simpl.
    destruct (onAscend listener l2) as [ok3 l3].
    destruct ok3; simpl; eexists _, _, [EvAscend]; simpl;
      (split; [reflexivity|]); (split; [reflexivity|]); (split; [|reflexivity]);
      now right.
  - eexists _, _, []; simpl.
    split; [reflexivity|]. split; [reflexivity|]. split; [|reflexivity].
    now left.
Qed.

End EmptyRoot.

(** C9 at work, on the dictionary without words. *)
Lemma preorder_notifies_tail_of_empty_root_witness :
  exists (result : bool) (w : Walk unit) (closing : list Event),
    @traverseAllPtNodesInPtNodeArrayLevelPreorderDepthFirstManner
      exampleDefines emptyDictionary unit silentListener 1
      (@cursor (mkReadingState noPos 0 0 0 1 1 0)) tt = Ok (result, w)
    /\ wEvents w = [EvDescend 0; EvReadingPtNodeArrayTail] ++ closing
    /\ (closing = [] \/ closing = [EvAscend])
    /\ length (List.filter isTailEvent (wEvents w)) = 1%nat.
Proof.
  apply (@preorder_notifies_tail_of_empty_root exampleDefines emptyDictionary
           unit silentListener 0 (@cursor (mkReadingState noPos 0 0 0 1 1 0))
           tt); reflexivity.
Defined.

(** ** Turns of the two traversal loops *)

Section TraversalTurns.
Context {defs : Defines} {dict : Dictionary}.
Context {L : Type} (listener : TraversingEventListener L).
Hypothesis listener_goes_on : neverStops listener.

Lemma notify_goes_on (ev : Event) (w : Walk L) :
  notify listener ev w
  = (true, mkWalk (wHelper w) (snd (deliver listener ev (wListener w)))
             (wEvents w ++ [ev])).
Proof.
  unfold notify. specialize (listener_goes_on ev (wListener w)).
  destruct (deliver listener ev (wListener w)) as [ok l].
  simpl in listener_goes_on. now subst ok.
Qed.

Lemma listenerAfter_app (E1 E2 : list Event) (l : L) :
  listenerAfter listener (E1 ++ E2) l
  = listenerAfter listener E2 (listenerAfter listener E1 l).
Proof. unfold listenerAfter. apply fold_left_app. Qed.

Lemma walkOn_walkOn (w : Walk L) (h1 h2 : Helper) (E1 E2 : list Event) :
  walkOn listener (walkOn listener w h1 E1) h2 E2 = walkOn listener w h2 (E1 ++ E2).
Proof.
  unfold walkOn. simpl. now rewrite listenerAfter_app, app_assoc.
Qed.

Lemma setHelper_walkOn (w : Walk L) (h h' : Helper) (E : list Event) :
  setHelper (walkOn listener w h E) h' = walkOn listener w h' E.
Proof. reflexivity. Qed.

Lemma walkOn_nil (w : Walk L) : walkOn listener w (wHelper w) [] = w.
Proof. destruct w. unfold walkOn. simpl. now rewrite app_nil_r. Qed.

Lemma isEnd_false (h : Helper) :
  isEnd h = false <-> mPos (mReadingState h) <> NOT_A_DICT_POS.
Proof. unfold isEnd. apply Z.eqb_neq. Qed.

Lemma isEnd_true (h : Helper) :
  isEnd h = true <-> mPos (mReadingState h) = NOT_A_DICT_POS.
Proof. unfold isEnd. apply Z.eqb_eq. Qed.

Lemma getPtNodeParams_on_node (h : Helper) :
  isEnd h = false ->
  getPtNodeParams h
  = fetchNodeInfoInBufferFromPtNodePos (mPos (mReadingState h)).
Proof. intros Hend. unfold getPtNodeParams. now rewrite Hend. Qed.

Ltac walk_eq :=
  unfold walkOn, setHelper, listenerAfter; simpl;
  rewrite <- ?app_assoc; simpl; rewrite ?app_nil_r; reflexivity.

(** Post-order, children not yet visited, a node without children. *)
Lemma postorderTurn_leaf (fuel : nat) (w : Walk L) :
  isValid (getPtNodeParams (wHelper w)) = true ->
  hasChildren (getPtNodeParams (wHelper w)) = false ->
  postorderTurn listener fuel (w, false) = Ok (Next (w, true)).
Proof.
  intros Hvalid Hkids. unfold postorderTurn. now rewrite Hvalid, Hkids.
Qed.

(** Post-order, children not yet visited, a node with children. *)
Lemma postorderTurn_descend (fuel : nat) (w : Walk L) :
  let p := getPtNodeParams (wHelper w) in
  isValid p = true ->
  hasChildren p = true ->
  postorderTurn listener fuel (w, false)
  = let* h := ofFuel (readChildNode fuel
                        (pushReadingStateToStack (wHelper w)) p) in
    Ok (Next (walkOn listener w h [EvDescend (getChildrenPos p)], false)).
Proof.
  intros p Hvalid Hkids. unfold postorderTurn. fold p.
  rewrite Hvalid, Hkids, notify_goes_on. simpl.
  destruct (readChildNode _ _ _); [walk_eq | reflexivity].
Qed.

(** Post-order, children visited: the node is visited and the cursor
    moves on. *)
Lemma postorderTurn_visit (fuel : nat) (w : Walk L) :
  let p := getPtNodeParams (wHelper w) in
  isValid p = true ->
  postorderTurn listener fuel (w, true)
  = let* h := ofFuel (readNextSiblingNode fuel (wHelper w) p) in
    if isEnd h then
      if (length (mReadingStateStack h) <=? 0)%nat then
        Ok (Break (walkOn listener w h [EvVisitingPtNode p; EvReadingPtNodeArrayTail],
                   true))
      else
        Ok (Next (walkOn listener w (popReadingStateFromStack h)
                    [EvVisitingPtNode p; EvReadingPtNodeArrayTail; EvAscend],
                  true))
    else Ok (Next (walkOn listener w h [EvVisitingPtNode p], false)).
Proof.
  intros p Hvalid. unfold postorderTurn. fold p.
  rewrite Hvalid. simpl negb. cbv iota. rewrite notify_goes_on. simpl.
  destruct (readNextSiblingNode fuel (wHelper w) p) as [h|]; [|reflexivity].
  simpl. destruct (isEnd h); [|walk_eq].
  rewrite notify_goes_on. simpl.
  destruct (_ <=? 0)%nat; [walk_eq|].
  rewrite notify_goes_on. walk_eq.
Qed.

(** Array-level pre-order, array not yet visited: the node is visited and
    the cursor moves on; at the end of the chain the saved head of the
    array comes back. *)
Lemma preorderTurn_visit (fuel : nat) (w : Walk L) (cv : bool) :
  let p := getPtNodeParams (wHelper w) in
  isValid p = true ->
  preorderTurn listener fuel (w, false, cv)
  = let* h := ofFuel (readNextSiblingNode fuel (wHelper w) p) in
    if isEnd h then
      Ok (Next (walkOn listener w (popReadingStateFromStack h)
                  [EvVisitingPtNode p; EvReadingPtNodeArrayTail],
                true, cv))
    else Ok (Next (walkOn listener w h [EvVisitingPtNode p], false, cv)).
Proof.
  intros p Hvalid. unfold preorderTurn. fold p.
  rewrite Hvalid. simpl negb. cbv iota. rewrite notify_goes_on. simpl.
  destruct (readNextSiblingNode fuel (wHelper w) p) as [h|]; [|reflexivity].
  simpl. destruct (isEnd h); [|walk_eq].
  rewrite notify_goes_on. walk_eq.
Qed.

(** Array-level pre-order, array visited, a node without children. *)
Lemma preorderTurn_leaf (fuel : nat) (w : Walk L) :
  isValid (getPtNodeParams (wHelper w)) = true ->
  hasChildren (getPtNodeParams (wHelper w)) = false ->
  preorderTurn listener fuel (w, true, false) = Ok (Next (w, true, true)).
Proof.
  intros Hvalid Hkids. unfold preorderTurn. now rewrite Hvalid, Hkids.
Qed.

(** Array-level pre-order, array visited, a node with children. *)
Lemma preorderTurn_descend (fuel : nat) (w : Walk L) :
  let p := getPtNodeParams (wHelper w) in
  isValid p = true ->
  hasChildren p = true ->
  preorderTurn listener fuel (w, true, false)
  = let* h := ofFuel (readChildNode fuel
                        (pushReadingStateToStack (wHelper w)) p) in
    Ok (Next (walkOn listener w (pushReadingStateToStack h)
                [EvDescend (getChildrenPos p)], false, false)).
Proof.
  intros p Hvalid Hkids. unfold preorderTurn. fold p.
  rewrite Hvalid, Hkids. simpl negb. cbv iota. rewrite notify_goes_on.
  simpl. destruct (readChildNode _ _ _); [walk_eq | reflexivity].
Qed.

(** Array-level pre-order, array and children visited: on to the children
    of the next sibling, or back to the parent. *)
Lemma preorderTurn_next (fuel : nat) (w : Walk L) :
  let p := getPtNodeParams (wHelper w) in
  isValid p = true ->
  preorderTurn listener fuel (w, true, true)
  = let* h := ofFuel (readNextSiblingNode fuel (wHelper w) p) in
    if isEnd h then
      if (length (mReadingStateStack h) <=? 0)%nat then
        Ok (Break (walkOn listener w h [EvAscend], true, true))
      else
        Ok (Next (walkOn listener w (popReadingStateFromStack h) [EvAscend],
                  true, true))
    else Ok (Next (walkOn listener w h [], true, false)).
Proof.
  intros p Hvalid. unfold preorderTurn. fold p. rewrite Hvalid.
  simpl negb. cbv iota.
  destruct (readNextSiblingNode fuel (wHelper w) p) as [h|]; [|reflexivity].
  simpl. destruct (isEnd h).
  - rewrite notify_goes_on. simpl.
    destruct (_ <=? 0)%nat; walk_eq.
  - destruct w. walk_eq.
Qed.

End TraversalTurns.

Ltac walk_norm :=
  unfold walkOn; simpl; rewrite ?listenerAfter_app;
  rewrite <- ?app_assoc; simpl.

Ltac walk_norm_in H :=
  unfold walkOn in H; simpl in H; rewrite ?listenerAfter_app in H;
  rewrite <- ?app_assoc in H; simpl in H.

(** ** A forward link back to an ancestor array *)

Section ShortRuns.
Context {St R : Type} (cond : St -> bool) (turn : St -> Outcome (Step St R)).

(** Fuel that gives out during a run gives no result. *)
Lemma whileLoop_Turns_short (n : nat) (s s' : St) (fuel : nat) :
  Turns cond turn n s s' -> (fuel <= n)%nat ->
  whileLoop cond turn fuel s = OutOfFuel.
Proof.
  intros Hrun. revert fuel.
  induction Hrun as [s|n s s1 s2 Hcond Hs _ IH]; intros fuel Hle.
  - assert (fuel = 0%nat) by lia. now subst fuel.
  - destruct fuel as [|fuel]; [reflexivity|].
    rewrite whileLoop_S, Hcond, Hs. apply IH. lia.
Qed.

(** A family of states that the loop always comes back to, some turns
    later, is never left. *)
Lemma whileLoop_hangs (Family : St -> Prop) (period : nat) :
  (forall s, Family s ->
     exists s', Family s' /\ Turns cond turn (S period) s s') ->
  forall fuel s, Family s -> whileLoop cond turn fuel s = OutOfFuel.
Proof.
  intros Hcycle fuel.
  induction fuel as [fuel IH] using lt_wf_ind. intros s Hs.
  destruct (Hcycle s Hs) as (s' & Hs' & Hrun).
  destruct (le_lt_dec fuel (S period)) as [Hshort|Hlong].
  - eapply whileLoop_Turns_short; eauto.
  - replace fuel with (S period + (fuel - S period))%nat by lia.
    rewrite (whileLoop_Turns _ _ _ _ _ _ Hrun).
    apply IH; [lia | exact Hs'].
Qed.

End ShortRuns.

Section AncestorLink.
#[local] Existing Instance exampleDefines.
#[local] Existing Instance ancestorLinkDictionary.

Lemma silentListener_neverStops : neverStops silentListener.
Proof. intros [pos| | |p] []; reflexivity. Qed.

(** Entering the child array at 8 from a fresh chain. *)
Lemma ancestorLink_readChildNode (fuel : nat) (h : Helper) :
  exists h',
    readChildNode (S fuel) h loopNodeN = Some h'
    /\ exists T,
         mReadingState h' = mkReadingState 9 1 T 1 1 noPos 8.
Proof.
  unfold readChildNode. simpl hasChildren. cbv iota.
  rewrite nextPtNodeArray_S. simpl mPos.
  replace (outOfDictionary (getChildrenPos loopNodeN)) with false
    by reflexivity.
  cbv zeta. rewrite readPtNodeArrayInfo_fields. simpl mPos.
  replace (arraySizeAt (getChildrenPos loopNodeN)) with (1, 9)
    by (vm_compute; reflexivity).
  simpl. eexists. split; [reflexivity|]. eexists. reflexivity.
Qed.

(** Leaving the child array through its forward link, which leads to the
    root array at 0 and its node at 1. *)
Lemma ancestorLink_readNextSiblingNode (fuel : nat) (h : Helper) (T : Z) :
  mReadingState h = mkReadingState 9 1 T 1 1 noPos 8 ->
  exists h',
    readNextSiblingNode (S fuel) h loopNodeC = Some h'
    /\ mIsError h' = mIsError h
    /\ mReadingStateStack h' = mReadingStateStack h
    /\ mReadingState h' = mkReadingState 1 1 T 2 2 12 0.
Proof.
  intros Hrs. unfold readNextSiblingNode. rewrite Hrs. simpl.
  unfold followForwardLink. rewrite followForwardLinkWith_fields. simpl mPos.
  replace (outOfDictionary 12) with false by reflexivity.
  cbv zeta.
  replace (forwardLinkAt 12) with (-12) by (vm_compute; reflexivity).
  simpl isValidForwardLinkPosition. cbv iota.
  rewrite nextPtNodeArray_S. simpl mPos.
  replace (outOfDictionary (12 + -12)) with false by reflexivity.
  cbv zeta. rewrite readPtNodeArrayInfo_fields. simpl mPos.
  replace (arraySizeAt (12 + -12)) with (1, 1) by (vm_compute; reflexivity).
  simpl. eexists. repeat split; reflexivity.
Qed.

(** From the node at 1 the post-order loop is back on it three turns
    later: down into the child array, over its only node, and along the
    forward link. *)
Lemma ancestorLink_cycle (fuel : nat) (s : Walk unit * bool) :
  onLoopNode s ->
  exists s',
    onLoopNode s'
    /\ Turns (fun s => negb (isEnd (wHelper (fst s))))
         (postorderTurn silentListener (S fuel)) 3 s s'.
Proof.
  destruct s as [w avc]. intros [Hpos Havc]. simpl in Hpos, Havc. subst avc.
  assert (Hend : isEnd (wHelper w) = false).
  { apply isEnd_false. rewrite Hpos. discriminate. }
  assert (Hp : getPtNodeParams (wHelper w) = loopNodeN).
  { rewrite getPtNodeParams_on_node by exact Hend. now rewrite Hpos. }
  destruct (ancestorLink_readChildNode fuel
              (pushReadingStateToStack (wHelper w))) as (h1 & Hchild & T & Hrs1).
  pose (w1 := walkOn silentListener w h1 [EvDescend 8]).
  assert (Hend1 : isEnd (wHelper w1) = false).
  { apply isEnd_false. simpl. rewrite Hrs1. discriminate. }
  assert (Hp1 : getPtNodeParams (wHelper w1) = loopNodeC).
  { rewrite getPtNodeParams_on_node by exact Hend1. simpl. now rewrite Hrs1. }
  destruct (ancestorLink_readNextSiblingNode fuel h1 T Hrs1)
    as (h2 & Hsib & _ & _ & Hrs2).
  pose (w2 := walkOn silentListener w1 h2 [EvVisitingPtNode loopNodeC]).
  exists (w2, false). split.
  { split; [|reflexivity]. simpl. now rewrite Hrs2. }
  eapply Turns_S with (s' := (w1, false)).
  { simpl. now rewrite Hend. }
  { rewrite (postorderTurn_descend _ silentListener_neverStops)
      by (rewrite Hp; reflexivity).
    rewrite Hp, Hchild. reflexivity. }
  eapply Turns_S with (s' := (w1, true)).
  { simpl fst. now rewrite Hend1. }
  { apply postorderTurn_leaf; rewrite Hp1; reflexivity. }
  eapply Turns_S with (s' := (w2, false)); [| |constructor].
  { simpl fst. now rewrite Hend1. }
  rewrite (postorderTurn_visit _ silentListener_neverStops)
    by (rewrite Hp1; reflexivity).
  rewrite Hp1. simpl wHelper. rewrite Hsib. simpl.
  replace (isEnd h2) with false; [reflexivity|].
  symmetry. apply isEnd_false. rewrite Hrs2. discriminate.
Qed.

(** C5, the failing case.  On the dictionary whose child array links
    forward to its ancestor array, the post-order traversal returns nothing
    whatever fuel it is given: every descent resets the two counters, so the
    ceilings are never reached, and a refused push does not end the loop. *)
Theorem postorder_hangs_on_ancestor_link (fuel : nat) :
  traverseAllPtNodesInPostorderDepthFirstManner silentListener fuel
    (cursor (mkReadingState 1 1 0 1 1 noPos 0)) tt
  = OutOfFuel.
Proof.
  unfold traverseAllPtNodesInPostorderDepthFirstManner.
  rewrite (notify_goes_on _ silentListener_neverStops). simpl negb. cbv iota.
  replace (whileLoop _ _ fuel _) with (@OutOfFuel (Walk unit * bool
                                                   + bool * Walk unit));
    [reflexivity|].
  symmetry.
  destruct fuel as [|nav]; [reflexivity|].
  apply (whileLoop_hangs _ _ onLoopNode 2).
  - intros s Hs. apply ancestorLink_cycle. exact Hs.
  - split; reflexivity.
Qed.

End AncestorLink.

(** The root array of that dictionary is entered without error. *)
Example ancestorLinkDictionary_root :
  @initWithPtNodeArrayPos exampleDefines ancestorLinkDictionary 1
    (@freshHelper exampleDefines) 0
  = Some (@cursor (mkReadingState 1 1 0 1 1 noPos 0)).
Proof. vm_compute. reflexivity. Qed.

(** The array-level pre-order traversal of the same dictionary ends, with
    the error result. *)
Example preorder_ends_on_ancestor_link :
  match
    @traverseAllPtNodesInPtNodeArrayLevelPreorderDepthFirstManner
      exampleDefines ancestorLinkDictionary unit silentListener 2000
      (@cursor (mkReadingState 1 1 0 1 1 noPos 0)) tt
  with
  | Ok (result, w) => result = false /\ mIsError (wHelper w) = true
  | _ => False
  end.
Proof. vm_compute. split; reflexivity. Qed.

(** A forward link from an empty array to itself: the pair
    [nextPtNodeArray] / [followForwardLink] stops at the array ceiling and
    reports the error. *)
Example selfLink_reports_error :
  match
    @nextPtNodeArray exampleDefines selfLinkDictionary (Z.to_nat 100001)
      (@cursor (mkReadingState 0 0 0 0 0 noPos noPos))
  with
  | Some h =>
    mIsError h = true
    /\ mPtNodeArrayIndexInThisArrayChain (mReadingState h) = 100001
  | None => False
  end.
Proof. vm_compute. split; reflexivity. Qed.

(** ** The depth of the reading state stack *)

Section StackDepth.
Context {defs : Defines} {dict : Dictionary}.

Lemma nextPtNodeArray_stack (fuel : nat) (h h' : Helper) :
  nextPtNodeArray fuel h = Some h' ->
  mReadingStateStack h' = mReadingStateStack h.
Proof.
  destruct h as [e rs st]. rewrite nextPtNodeArray_frame.
  destruct (nextPtNodeArray fuel _); simpl; [|discriminate].
  intros Heq. inversion Heq. reflexivity.
Qed.

Lemma readNextSiblingNode_stack (fuel : nat) (h h' : Helper)
    (p : PtNodeParams) :
  readNextSiblingNode fuel h p = Some h' ->
  mReadingStateStack h' = mReadingStateStack h.
Proof.
  destruct h as [e rs st]. rewrite readNextSiblingNode_frame.
  destruct (readNextSiblingNode fuel _ _); simpl; [|discriminate].
  intros Heq. inversion Heq. reflexivity.
Qed.

Lemma readChildNode_stack (fuel : nat) (h h' : Helper) (p : PtNodeParams) :
  readChildNode fuel h p = Some h' ->
  mReadingStateStack h' = mReadingStateStack h.
Proof.
  destruct h as [e rs st]. rewrite readChildNode_frame.
  destruct (readChildNode fuel _ _); simpl; [|discriminate].
  intros Heq. inversion Heq. reflexivity.
Qed.

Lemma pushReadingStateToStack_depth (h : Helper) :
  (length (mReadingStateStack h) <= MAX_WORD_LENGTH)%nat ->
  (length (mReadingStateStack (pushReadingStateToStack h))
   <= MAX_WORD_LENGTH)%nat.
Proof.
  intros Hdepth. unfold pushReadingStateToStack, MAX_READING_STATE_STACK_SIZE.
  destruct (Nat.leb_spec MAX_WORD_LENGTH (length (mReadingStateStack h)));
    unfold raiseError, setStack; simpl; lia.
Qed.

Lemma popReadingStateFromStack_depth (h : Helper) :
  (length (mReadingStateStack (popReadingStateFromStack h))
   <= length (mReadingStateStack h))%nat.
Proof.
  unfold popReadingStateFromStack.
  destruct (mReadingStateStack h) eqn:Hst; simpl; rewrite ?Hst; simpl; lia.
Qed.

Context {L : Type} (listener : TraversingEventListener L).

Lemma notify_wHelper (ev : Event) (w : Walk L) :
  wHelper (snd (notify listener ev w)) = wHelper w.
Proof. unfold notify. destruct (deliver _ _ _). reflexivity. Qed.

Lemma postorderTurn_depth (fuel : nat) (s s' : Walk L * bool) :
  (depthOf (fst s) <= MAX_WORD_LENGTH)%nat ->
  postorderTurn listener fuel s = Ok (Next s') ->
  (depthOf (fst s') <= MAX_WORD_LENGTH)%nat.
Proof.
  destruct s as [w avc]. unfold depthOf. simpl fst. intros Hdepth.
  unfold postorderTurn.
  destruct (negb (isValid _)); [discriminate|].
  destruct (negb avc).
  - destruct (hasChildren _).
    + pose proof (notify_wHelper
                    (EvDescend (getChildrenPos (getPtNodeParams (wHelper w))))
                    w) as Hw.
      destruct (notify listener _ w) as [ok w1]. simpl in Hw.
      destruct (negb ok); [discriminate|].
      destruct (readChildNode fuel _ _) as [h1|] eqn:Hchild; [|discriminate].
      simpl. intros Heq. inversion Heq; subst s'. simpl.
      rewrite (readChildNode_stack _ _ _ _ Hchild), Hw.
      now apply pushReadingStateToStack_depth.
    + intros Heq. inversion Heq; subst s'. exact Hdepth.
  - pose proof (notify_wHelper
                  (EvVisitingPtNode (getPtNodeParams (wHelper w))) w) as Hw.
    destruct (notify listener _ w) as [ok w1]. simpl in Hw.
    destruct (negb ok); [discriminate|].
    destruct (readNextSiblingNode fuel _ _) as [h1|] eqn:Hsib; [|discriminate].
    apply readNextSiblingNode_stack in Hsib. rewrite Hw in Hsib.
    simpl. destruct (isEnd h1).
    + pose proof (notify_wHelper EvReadingPtNodeArrayTail (setHelper w1 h1))
        as Hw2.
      destruct (notify listener _ (setHelper w1 h1)) as [ok2 w2].
      simpl in Hw2.
      destruct (negb ok2); [discriminate|].
      destruct (_ <=? 0)%nat; [discriminate|].
      pose proof (notify_wHelper EvAscend w2) as Hw3.
      destruct (notify listener _ w2) as [ok3 w3]. simpl in Hw3.
      destruct (negb ok3); [discriminate|].
      intros Heq. inversion Heq; subst s'. simpl.
      pose proof (popReadingStateFromStack_depth (wHelper w3)).
      rewrite Hw3, Hw2 in *. rewrite Hsib in *. lia.
    + intros Heq. inversion Heq; subst s'. simpl. now rewrite Hsib.
Qed.

Lemma preorderTurn_depth (fuel : nat) (s s' : Walk L * bool * bool) :
  (depthOf (fst (fst s)) <= MAX_WORD_LENGTH)%nat ->
  preorderTurn listener fuel s = Ok (Next s') ->
  (depthOf (fst (fst s')) <= MAX_WORD_LENGTH)%nat.
Proof.
  destruct s as [[w av] cv]. unfold depthOf. simpl fst. intros Hdepth.
  unfold preorderTurn.
  destruct (negb (isValid _)); [discriminate|].
  destruct av.
  - destruct cv.
    + destruct (readNextSiblingNode fuel _ _) as [h1|] eqn:Hsib;
        [|discriminate].
      apply readNextSiblingNode_stack in Hsib.
      simpl. destruct (isEnd h1).
      * pose proof (notify_wHelper EvAscend (setHelper w h1)) as Hw2.
        destruct (notify listener _ (setHelper w h1)) as [ok2 w2].
        simpl in Hw2.
        destruct (negb ok2); [discriminate|].
        destruct (_ <=? 0)%nat; [discriminate|].
        intros Heq. inversion Heq; subst s'. simpl.
        pose proof (popReadingStateFromStack_depth (wHelper w2)).
        rewrite Hw2 in *. rewrite Hsib in *. lia.
      * intros Heq. inversion Heq; subst s'. simpl. now rewrite Hsib.
    + destruct (hasChildren _).
      * pose proof (notify_wHelper
                      (EvDescend
                         (getChildrenPos (getPtNodeParams (wHelper w))))
                      w) as Hw.
        destruct (notify listener _ w) as [ok w1]. simpl in Hw.
        destruct (negb ok); [discriminate|].
        destruct (readChildNode fuel _ _) as [h1|] eqn:Hchild;
          [|discriminate].
        simpl. intros Heq. inversion Heq; subst s'. simpl.
        apply pushReadingStateToStack_depth.
        rewrite (readChildNode_stack _ _ _ _ Hchild), Hw.
        now apply pushReadingStateToStack_depth.
      * intros Heq. inversion Heq; subst s'. exact Hdepth.
  - pose proof (notify_wHelper
                  (EvVisitingPtNode (getPtNodeParams (wHelper w))) w) as Hw.
    destruct (notify listener _ w) as [ok w1]. simpl in Hw.
    destruct (negb ok); [discriminate|].
    destruct (readNextSiblingNode fuel _ _) as [h1|] eqn:Hsib; [|discriminate].
    apply readNextSiblingNode_stack in Hsib. rewrite Hw in Hsib.
    simpl. destruct (isEnd h1).
    + pose proof (notify_wHelper EvReadingPtNodeArrayTail (setHelper w1 h1))
        as Hw2.
      destruct (notify listener _ (setHelper w1 h1)) as [ok2 w2].
      simpl in Hw2.
      destruct (negb ok2); [discriminate|].
      intros Heq. inversion Heq; subst s'. simpl.
      pose proof (popReadingStateFromStack_depth (wHelper w2)).
      rewrite Hw2 in *. rewrite Hsib in *. lia.
    + intros Heq. inversion Heq; subst s'. simpl. now rewrite Hsib.
Qed.

Lemma lookupTurn_stack (fuel : nat) (search : list Z) (len : Z)
    (h h' : Helper) :
  lookupTurn fuel search len h = Ok (Next h') ->
  mReadingStateStack h' = mReadingStateStack h.
Proof.
  unfold lookupTurn.
  destruct (skipsPtNode _ _ _ _) as [skip| |]; simpl; try discriminate.
  destruct skip.
  - destruct (readNextSiblingNode fuel _ _) as [h1|] eqn:Hsib; [|discriminate].
    simpl. intros Heq. inversion Heq; subst h'.
    eapply readNextSiblingNode_stack; eauto.
  - destruct (followingCodePointsMatch _ _ _ _) as [same| |]; simpl;
      try discriminate.
    destruct (negb same); [discriminate|].
    destruct (_ =? _); [destruct (negb _); discriminate|].
    destruct (negb (hasChildren _)); [discriminate|].
    destruct (readChildNode fuel _ _) as [h1|] eqn:Hchild; [|discriminate].
    simpl. intros Heq. inversion Heq; subst h'.
    eapply readChildNode_stack; eauto.
Qed.

(** C8.  In a call that starts with at most [MAX_WORD_LENGTH] saved states
    (none, for a fresh helper), the reading state stack never holds more
    than [MAX_WORD_LENGTH] states, wherever the loop of either traversal
    stands; and a lookup leaves the stack as it found it. *)
Theorem reading_state_stack_depth (fuel : nat) :
  (forall (s s' : Walk L * bool),
     (depthOf (fst s) <= MAX_WORD_LENGTH)%nat ->
     Reaches (fun s => negb (isEnd (wHelper (fst s))))
       (postorderTurn listener fuel) s s' ->
     (depthOf (fst s') <= MAX_WORD_LENGTH)%nat)
  /\ (forall (h : Helper) (l : L) (w : Walk L) (s' : Walk L * bool * bool),
        (length (mReadingStateStack h) <= MAX_WORD_LENGTH)%nat ->
        preorderEnter listener h l = inl w ->
        Reaches (fun s => negb (isEnd (wHelper (fst (fst s)))))
          (preorderTurn listener fuel)
          (setHelper w (pushReadingStateToStack (wHelper w)), false, false)
          s' ->
        (depthOf (fst (fst s')) <= MAX_WORD_LENGTH)%nat)
  /\ (forall (search : list Z) (len : Z) (h h' : Helper),
        Reaches (fun h => negb (isEnd h)) (lookupTurn fuel search len) h h' ->
        mReadingStateStack h' = mReadingStateStack h).
Proof.
  split; [|split].
  - intros s s' Hdepth Hrun.
    refine (Reaches_invariant _ _
              (fun s => (depthOf (fst s) <= MAX_WORD_LENGTH)%nat)
              _ s s' Hrun Hdepth).
    intros s1 s2 Hs1 _ Hturn. eapply postorderTurn_depth; eauto.
  - intros h l w s' Hdepth Henter Hrun.
    refine (Reaches_invariant _ _
              (fun s => (depthOf (fst (fst s)) <= MAX_WORD_LENGTH)%nat)
              _ _ s' Hrun _).
    + intros s1 s2 Hs1 _ Hturn. eapply preorderTurn_depth; eauto.
    + unfold depthOf. simpl. apply pushReadingStateToStack_depth.
      unfold preorderEnter in Henter.
      pose proof (notify_wHelper
                    (EvDescend (getPosOfLastPtNodeArrayHead h))
                    (mkWalk h l [])) as Hw.
      simpl wHelper in Henter.
      destruct (notify listener _ (mkWalk h l [])) as [ok w1]. simpl in Hw.
      destruct (negb ok); [discriminate|].
      destruct (isEnd (wHelper w1)).
      * pose proof (notify_wHelper EvReadingPtNodeArrayTail w1) as Hw2.
        destruct (notify listener _ w1) as [ok2 w2]. simpl in Hw2.
        destruct (negb ok2); [discriminate|].
        inversion Henter; subst w. now rewrite Hw2, Hw.
      * inversion Henter; subst w. now rewrite Hw.
  - intros search len h h' Hrun.
    refine (Reaches_invariant _ _
              (fun h1 => mReadingStateStack h1 = mReadingStateStack h)
              _ h h' Hrun eq_refl).
    intros s1 s2 Hs1 _ Hturn.
    rewrite <- Hs1. eapply lookupTurn_stack; eauto.
Qed.

End StackDepth.

(** C8 at work: the first turn of the post-order loop on the example trie
    goes down into the children of "a" and saves one reading state. *)
Lemma reading_state_stack_depth_witness :
  match
    @postorderTurn exampleDefines exampleDictionary unit silentListener 5
      (mkWalk (@cursor exampleRoot) tt [], false)
  with
  | Ok (Next s') => (depthOf (fst s') <= 48)%nat
  | _ => False
  end.
Proof.
  destruct (@postorderTurn exampleDefines exampleDictionary unit
              silentListener 5 (mkWalk (@cursor exampleRoot) tt [], false))
    as [[s'|s'|r]|f|] eqn:Hturn;
    try (vm_compute in Hturn; discriminate Hturn).
  apply (proj1 (@reading_state_stack_depth exampleDefines exampleDictionary
                  unit silentListener 5)
           (mkWalk (@cursor exampleRoot) tt [], false) s').
  - vm_compute. lia.
  - eapply Reaches_turn; [reflexivity|exact Hturn|apply Reaches_here].
Defined.

(** ** The traversals on a well-formed trie *)

Ltac events_eq :=
  repeat (progress (simpl; rewrite <- ?app_assoc));
  rewrite ?app_nil_r; reflexivity.

Ltac walk_same :=
  rewrite ?walkOn_walkOn;
  match goal with
  | |- (_, _, _) = (_, _, _) => do 2 f_equal
  | |- (_, _) = (_, _) => f_equal
  end;
  apply (f_equal (walkOn _ _ _)); events_eq.

Section PostorderOnTrie.
Context {defs : Defines} {dict : Dictionary}.
Context {L : Type} (listener : TraversingEventListener L).
Hypothesis listener_goes_on : neverStops listener.
Variable navFuel : nat.

Lemma postorderEventsOfPtNode_eq (p : PtNodeParams) (kids : list PtNode) :
  postorderEventsOfPtNode (Node p kids)
  = eventsBelow p kids ++ [EvVisitingPtNode p].
Proof. reflexivity. Qed.

Lemma PtNodeOk_on_node (parentPos : Z) (rs : ReadingState) (p : PtNodeParams)
    (e : bool) (st : list ReadingState) :
  PtNodeOk parentPos rs p ->
  isEnd (mkHelper e rs st) = false
  /\ getPtNodeParams (mkHelper e rs st) = p
  /\ isValid p = true.
Proof.
  intros Hok.
  assert (Hend : isEnd (mkHelper e rs st) = false)
    by (apply isEnd_false; apply (ok_onNode _ _ _ Hok)).
  split; [exact Hend|]. split; [|apply (ok_valid _ _ _ Hok)].
  rewrite getPtNodeParams_on_node by exact Hend.
  apply (ok_fetched _ _ _ Hok).
Qed.

Lemma pushReadingStateToStack_room (e : bool) (rs : ReadingState)
    (st : list ReadingState) :
  (length st < MAX_WORD_LENGTH)%nat ->
  pushReadingStateToStack (mkHelper e rs st) = mkHelper e rs (rs :: st).
Proof.
  intros Hroom. unfold pushReadingStateToStack, MAX_READING_STATE_STACK_SIZE.
  simpl.
  destruct (Nat.leb_spec MAX_WORD_LENGTH (length st)); [lia|reflexivity].
Qed.

Lemma readNextSiblingNode_on_trie (fuel : nat) (e : bool)
    (rs rs' : ReadingState) (st : list ReadingState) (p : PtNodeParams) :
  (navFuel <= fuel)%nat ->
  readNextSiblingNode navFuel (cursor rs) p = Some (cursor rs') ->
  readNextSiblingNode fuel (mkHelper e rs st) p = Some (mkHelper e rs' st)
  /\ mTotalCodePointCountSinceInitialization rs'
     = mTotalCodePointCountSinceInitialization rs.
Proof.
  intros Hfuel Hsib. split.
  - apply readNextSiblingNode_cursor.
    eapply readNextSiblingNode_more_fuel; eauto.
  - apply readNextSiblingNode_codePointCount in Hsib. exact Hsib.
Qed.

Lemma readChildNode_on_trie (fuel : nat) (e : bool)
    (rs rs' : ReadingState) (st : list ReadingState) (p : PtNodeParams) :
  (navFuel <= fuel)%nat ->
  hasChildren p = true ->
  readChildNode navFuel (cursor rs) p = Some (cursor rs') ->
  readChildNode fuel (mkHelper e rs st) p = Some (mkHelper e rs' st)
  /\ mTotalCodePointCountSinceInitialization rs'
     = mTotalCodePointCountSinceInitialization rs
       + Z.of_nat (getCodePointCount p).
Proof.
  intros Hfuel Hkids Hchild. split.
  - apply readChildNode_cursor.
    eapply readChildNode_more_fuel; eauto.
  - apply (readChildNode_codePointCount _ _ _ _ Hkids) in Hchild.
    exact Hchild.
Qed.

Lemma postorder_runs :
  forall parentPos rs forest,
    ReadsChain navFuel parentPos rs forest ->
    forest <> [] -> postorderChainRun listener navFuel rs forest.
Proof.
  apply (@ReadsChain_mut defs dict navFuel
           (fun _ rs forest => forest <> [] -> postorderChainRun listener navFuel rs forest)
           (postorderBelowRun listener navFuel)).
  - (* end of chain *)
    intros parentPos rs _ Hne. contradiction.
  - (* a node and the rest of its chain *)
    intros parentPos rs p kids rest rs' Hok _ IHbelow Hsib Hrest IHrest _.
    intros e st w Hw Hdepth.
    destruct (IHbelow e st w parentPos Hw Hok Hdepth) as (n1 & Hrun1).
    destruct (PtNodeOk_on_node parentPos rs p e st Hok)
      as (Hend & Hp & Hvalid).
    destruct rest as [|r rest'].
    + (* the node is the last one *)
      assert (Hrse : mPos rs' = NOT_A_DICT_POS)
        by (inversion Hrest; assumption).
      exists n1, (eventsBelow p kids), p, rs.
      split; [simpl; now rewrite app_nil_r|].
      split; [|exact Hrun1].
      split; [apply (ok_onNode _ _ _ Hok)|].
      split; [apply (ok_fetched _ _ _ Hok)|].
      split; [exact Hvalid|]. eauto.
    + (* the node has a next sibling *)
      assert (Hon' : mPos rs' <> NOT_A_DICT_POS).
      { inversion Hrest as [|? ? ? ? ? ? Hok' _ _ _].
        apply (ok_onNode _ _ _ Hok'). }
      assert (Hcount : mTotalCodePointCountSinceInitialization rs'
                       = mTotalCodePointCountSinceInitialization rs)
        by (apply readNextSiblingNode_codePointCount in Hsib; exact Hsib).
      destruct (IHrest ltac:(discriminate) e st
                  (walkOn listener
                     (walkOn listener w (mkHelper e rs st)
                        (eventsBelow p kids))
                     (mkHelper e rs' st) [EvVisitingPtNode p]) eq_refl)
        as (n2 & E2 & pl & rsl & HE2 & Hlast & Hrun2); [lia|].
      exists (n1 + (1 + n2))%nat,
        ((eventsBelow p kids ++ [EvVisitingPtNode p]) ++ E2), pl, rsl.
      split.
      { change (flat_map postorderEventsOfPtNode (Node p kids :: r :: rest'))
          with (postorderEventsOfPtNode (Node p kids)
                ++ flat_map postorderEventsOfPtNode (r :: rest')).
        rewrite HE2, postorderEventsOfPtNode_eq. now rewrite <- !app_assoc. }
      split; [exact Hlast|].
      intros fuel Hfuel.
      eapply Turns_app; [apply Hrun1; exact Hfuel|].
      eapply Turns_app.
      * apply Turns_one.
        { simpl. now rewrite Hend. }
        rewrite (postorderTurn_visit _ listener_goes_on); simpl wHelper;
          [|now rewrite Hp].
        rewrite Hp.
        destruct (readNextSiblingNode_on_trie fuel e rs rs' st p Hfuel Hsib)
          as [Hmove _].
        rewrite Hmove. simpl.
        replace (isEnd (mkHelper e rs' st)) with false
          by (symmetry; now apply isEnd_false).
        reflexivity.
      * eapply Turns_cast; [exact (Hrun2 fuel Hfuel)|reflexivity|].
        walk_same.
  - (* no children *)
    intros rs p Hkids e st w parentPos Hw Hok Hdepth.
    exists 1%nat. intros fuel Hfuel.
    destruct (PtNodeOk_on_node parentPos rs p e st Hok)
      as (Hend & Hp & Hvalid).
    rewrite <- Hw in Hend, Hp.
    replace (walkOn listener w (mkHelper e rs st) (eventsBelow p []))
      with w by (rewrite <- Hw; symmetry; apply walkOn_nil).
    apply Turns_one.
    + simpl. now rewrite Hend.
    + apply postorderTurn_leaf; now rewrite Hp.
  - (* children *)
    intros rs p k kids rs' Hkids Hchild Hchain IHchain.
    intros e st w parentPos Hw Hok Hdepth.
    destruct (PtNodeOk_on_node parentPos rs p e st Hok)
      as (Hend & Hp & Hvalid).
    rewrite <- Hw in Hend, Hp.
    pose proof (ok_codePoints _ _ _ Hok) as Hcps.
    pose proof (ok_wordLength _ _ _ Hok) as Hword.
    assert (Hcount : mTotalCodePointCountSinceInitialization rs'
                     = mTotalCodePointCountSinceInitialization rs
                       + Z.of_nat (getCodePointCount p))
      by (apply (readChildNode_codePointCount _ _ _ _ Hkids) in Hchild;
          exact Hchild).
    set (w1 := walkOn listener w (mkHelper e rs' (rs :: st))
                 [EvDescend (getChildrenPos p)]).
    destruct (IHchain ltac:(discriminate) e (rs :: st) w1 eq_refl)
      as (n & E & pl & rsl & HE & Hlast & Hrun); [simpl length; lia|].
    destruct Hlast as (Honl & Hfetchl & Hvalidl & rse & Hsibl & Hrse).
    exists (1 + (n + 1))%nat. intros fuel Hfuel.
    eapply Turns_app.
    { apply Turns_one.
      { simpl. now rewrite Hend. }
      rewrite (postorderTurn_descend _ listener_goes_on); rewrite Hp;
        try assumption.
      rewrite Hw.
      rewrite pushReadingStateToStack_room by lia.
      destruct (readChildNode_on_trie fuel e rs rs' (rs :: st) p Hfuel Hkids
                  Hchild) as [Hmove _].
      rewrite Hmove. reflexivity. }
    eapply Turns_app; [exact (Hrun fuel Hfuel)|].
    apply Turns_one.
    { simpl. apply negb_true_iff. now apply isEnd_false. }
    assert (Hpl : getPtNodeParams (mkHelper e rsl (rs :: st)) = pl).
    { rewrite getPtNodeParams_on_node by now apply isEnd_false.
      exact Hfetchl. }
    rewrite (postorderTurn_visit _ listener_goes_on); simpl wHelper;
      rewrite Hpl; try assumption.
    destruct (readNextSiblingNode_on_trie fuel e rsl rse (rs :: st) pl Hfuel
                Hsibl) as [Hmove _].
    rewrite Hmove.
    change (ofFuel (Some ?h)) with (Ok h). cbn [bindOutcome].
    replace (isEnd (mkHelper e rse (rs :: st))) with true
      by (symmetry; now apply isEnd_true).
    cbn [mReadingStateStack length Nat.leb].
    unfold w1. rewrite !walkOn_walkOn.
    unfold popReadingStateFromStack. cbn [mReadingStateStack mIsError].
    do 3 f_equal. f_equal. unfold eventsBelow. rewrite HE. events_eq.
Qed.

End PostorderOnTrie.

Section PreorderOnTrie.
Context {defs : Defines} {dict : Dictionary}.
Context {L : Type} (listener : TraversingEventListener L).
Hypothesis listener_goes_on : neverStops listener.
Variable navFuel : nat.

(** The first pass over a chain: every node of the chain is visited, and at
    the tail the state saved on top of the stack comes back. *)
Lemma preorder_visits_chain :
  forall parentPos rs forest,
    ReadsChain navFuel parentPos rs forest ->
    forest <> [] ->
    forall (e : bool) (top : ReadingState) (st : list ReadingState)
           (w : Walk L) (cv : bool),
      wHelper w = mkHelper e rs (top :: st) ->
      exists n : nat,
        forall fuel, (navFuel <= fuel)%nat ->
          Turns preCond (preorderTurn listener fuel) n
            (w, false, cv)
            (walkOn listener w (mkHelper e top st)
               (visitsOf forest ++ [EvReadingPtNodeArrayTail]), true, cv).
Proof.
  intros parentPos rs forest Hchain.
  induction Hchain as [|parentPos rs p kids rest rs' Hok Hkids Hsib Hrest IH];
    intros Hne e top st w cv Hw; [contradiction|].
  destruct (PtNodeOk_on_node parentPos rs p e (top :: st) Hok)
    as (Hend & Hp & Hvalid).
  rewrite <- Hw in Hend, Hp.
  destruct rest as [|r rest'].
  - assert (Hrse : mPos rs' = NOT_A_DICT_POS)
      by (inversion Hrest; assumption).
    exists 1%nat. intros fuel Hfuel. apply Turns_one.
    { simpl. now rewrite Hend. }
    rewrite (preorderTurn_visit _ listener_goes_on); rewrite Hp;
      try assumption.
    destruct (readNextSiblingNode_on_trie navFuel fuel e rs rs' (top :: st) p
                Hfuel Hsib) as [Hmove _].
    rewrite Hw, Hmove. simpl.
    replace (isEnd (mkHelper e rs' (top :: st))) with true
      by (symmetry; now apply isEnd_true).
    reflexivity.
  - assert (Hon' : mPos rs' <> NOT_A_DICT_POS).
    { inversion Hrest as [|? ? ? ? ? ? Hok' _ _ _].
      apply (ok_onNode _ _ _ Hok'). }
    destruct (IH ltac:(discriminate) e top st
                (walkOn listener w (mkHelper e rs' (top :: st))
                   [EvVisitingPtNode p]) cv eq_refl) as (n & Hrun).
    exists (1 + n)%nat. intros fuel Hfuel.
    eapply Turns_app.
    + apply Turns_one.
      { simpl. now rewrite Hend. }
      rewrite (preorderTurn_visit _ listener_goes_on); rewrite Hp;
        try assumption.
      destruct (readNextSiblingNode_on_trie navFuel fuel e rs rs' (top :: st)
                  p Hfuel Hsib) as [Hmove _].
      rewrite Hw, Hmove. simpl.
      replace (isEnd (mkHelper e rs' (top :: st))) with false
        by (symmetry; now apply isEnd_false).
      reflexivity.
    + specialize (Hrun fuel Hfuel). rewrite walkOn_walkOn in Hrun.
      exact Hrun.
Qed.

Lemma preorder_runs :
  forall parentPos rs forest,
    ReadsChain navFuel parentPos rs forest ->
    forest <> [] -> preorderChainRun listener navFuel rs forest.
Proof.
  apply (@ReadsChain_mut defs dict navFuel
           (fun _ rs forest => forest <> [] -> preorderChainRun listener navFuel rs forest)
           (preorderBelowRun listener navFuel)).
  - intros parentPos rs _ Hne. contradiction.
  - intros parentPos rs p kids rest rs' Hok _ IHbelow Hsib Hrest IHrest _.
    intros e st w Hw Hdepth.
    destruct (IHbelow e st w parentPos Hw Hok Hdepth) as (n1 & Hrun1).
    destruct (PtNodeOk_on_node parentPos rs p e st Hok)
      as (Hend & Hp & Hvalid).
    destruct rest as [|r rest'].
    + assert (Hrse : mPos rs' = NOT_A_DICT_POS)
        by (inversion Hrest; assumption).
      exists n1, p, rs. split.
      { split; [apply (ok_onNode _ _ _ Hok)|].
        split; [apply (ok_fetched _ _ _ Hok)|].
        split; [exact Hvalid|]. eauto. }
      intros fuel Hfuel. specialize (Hrun1 fuel Hfuel).
      change (flat_map preorderEventsOfPtNode [Node p kids])
        with (preorderEventsOfPtNode (Node p kids) ++ []).
      rewrite app_nil_r. exact Hrun1.
    + assert (Hon' : mPos rs' <> NOT_A_DICT_POS).
      { inversion Hrest as [|? ? ? ? ? ? Hok' _ _ _].
        apply (ok_onNode _ _ _ Hok'). }
      assert (Hcount : mTotalCodePointCountSinceInitialization rs'
                       = mTotalCodePointCountSinceInitialization rs)
        by (apply readNextSiblingNode_codePointCount in Hsib; exact Hsib).
      destruct (IHrest ltac:(discriminate) e st
                  (walkOn listener
                     (walkOn listener w (mkHelper e rs st)
                        (preorderEventsOfPtNode (Node p kids)))
                     (mkHelper e rs' st) []) eq_refl)
        as (n2 & pl & rsl & Hlast & Hrun2); [lia|].
      exists (n1 + (1 + n2))%nat, pl, rsl.
      split; [exact Hlast|].
      intros fuel Hfuel.
      eapply Turns_app; [apply Hrun1; exact Hfuel|].
      eapply Turns_app.
      * apply Turns_one.
        { simpl. now rewrite Hend. }
        rewrite (preorderTurn_next _ listener_goes_on); simpl wHelper;
          [|now rewrite Hp].
        rewrite Hp.
        destruct (readNextSiblingNode_on_trie navFuel fuel e rs rs' st p Hfuel
                    Hsib) as [Hmove _].
        rewrite Hmove. simpl.
        replace (isEnd (mkHelper e rs' st)) with false
          by (symmetry; now apply isEnd_false).
        reflexivity.
      * eapply Turns_cast; [exact (Hrun2 fuel Hfuel)|reflexivity|].
        walk_same.
  - intros rs p Hkids e st w parentPos Hw Hok Hdepth.
    exists 1%nat. intros fuel Hfuel.
    destruct (PtNodeOk_on_node parentPos rs p e st Hok)
      as (Hend & Hp & Hvalid).
    rewrite <- Hw in Hend, Hp.
    replace (walkOn listener w (mkHelper e rs st)
               (preorderEventsOfPtNode (Node p [])))
      with w by (rewrite <- Hw; symmetry; apply walkOn_nil).
    apply Turns_one.
    + simpl. now rewrite Hend.
    + apply preorderTurn_leaf; now rewrite Hp.
  - intros rs p k kids rs' Hkids Hchild Hchain IHchain.
    intros e st w parentPos Hw Hok Hdepth.
    destruct (PtNodeOk_on_node parentPos rs p e st Hok)
      as (Hend & Hp & Hvalid).
    rewrite <- Hw in Hend, Hp.
    pose proof (ok_codePoints _ _ _ Hok) as Hcps.
    pose proof (ok_wordLength _ _ _ Hok) as Hword.
    assert (Hcount : mTotalCodePointCountSinceInitialization rs'
                     = mTotalCodePointCountSinceInitialization rs
                       + Z.of_nat (getCodePointCount p))
      by (apply (readChildNode_codePointCount _ _ _ _ Hkids) in Hchild;
          exact Hchild).
    assert (Hroom : mTotalCodePointCountSinceInitialization rs' + 1
                    <= Z.of_nat MAX_WORD_LENGTH).
    { inversion Hchain as [|? ? pk ? ? ? Hokk _ _ _].
      pose proof (ok_codePoints _ _ _ Hokk).
      pose proof (ok_wordLength _ _ _ Hokk). lia. }
    set (w1 := walkOn listener w (mkHelper e rs' (rs' :: rs :: st))
                 [EvDescend (getChildrenPos p)]).
    destruct (preorder_visits_chain _ _ _ Hchain ltac:(discriminate)
                e rs' (rs :: st) w1 false eq_refl) as (n1 & Hrun1).
    set (w2 := walkOn listener w1 (mkHelper e rs' (rs :: st))
                 (visitsOf (k :: kids) ++ [EvReadingPtNodeArrayTail]))
      in Hrun1.
    destruct (IHchain ltac:(discriminate) e (rs :: st) w2 eq_refl)
      as (n2 & pl & rsl & Hlast & Hrun2); [simpl length; lia|].
    destruct Hlast as (Honl & Hfetchl & Hvalidl & rse & Hsibl & Hrse).
    exists (1 + (n1 + (n2 + 1)))%nat. intros fuel Hfuel.
    eapply Turns_app.
    { apply Turns_one.
      { simpl. now rewrite Hend. }
      rewrite (preorderTurn_descend _ listener_goes_on); rewrite Hp;
        try assumption.
      rewrite Hw.
      rewrite pushReadingStateToStack_room by lia.
      destruct (readChildNode_on_trie navFuel fuel e rs rs' (rs :: st) p Hfuel
                  Hkids Hchild) as [Hmove _].
      rewrite Hmove. simpl.
      rewrite pushReadingStateToStack_room by (simpl length; lia).
      reflexivity. }
    eapply Turns_app; [exact (Hrun1 fuel Hfuel)|].
    eapply Turns_app; [exact (Hrun2 fuel Hfuel)|].
    apply Turns_one.
    { simpl. apply negb_true_iff. now apply isEnd_false. }
    assert (Hpl : getPtNodeParams (mkHelper e rsl (rs :: st)) = pl).
    { rewrite getPtNodeParams_on_node by now apply isEnd_false.
      exact Hfetchl. }
    rewrite (preorderTurn_next _ listener_goes_on); simpl wHelper;
      rewrite Hpl; try assumption.
    destruct (readNextSiblingNode_on_trie navFuel fuel e rsl rse (rs :: st) pl
                Hfuel Hsibl) as [Hmove _].
    rewrite Hmove.
    change (ofFuel (Some ?h)) with (Ok h).
    cbn [bindOutcome].
    replace (isEnd (mkHelper e rse (rs :: st))) with true
      by (symmetry; now apply isEnd_true).
    cbn [mReadingStateStack length Nat.leb].
    unfold w2, w1. rewrite !walkOn_walkOn.
    unfold popReadingStateFromStack. cbn [mReadingStateStack mIsError].
    do 3 f_equal. f_equal. unfold visitsOf. events_eq.
Qed.

End PreorderOnTrie.

(** ** Both traversals, from the root of a well-formed trie *)

Section TraversalsOnTrie.
Context {defs : Defines} {dict : Dictionary}.
Context {L : Type} (listener : TraversingEventListener L).
Hypothesis listener_goes_on : neverStops listener.
Variable navFuel : nat.

Lemma postorder_on_trie (parentPos : Z) (rs : ReadingState)
    (forest : list PtNode) (l : L) :
  ReadsChain navFuel parentPos rs forest ->
  0 <= mTotalCodePointCountSinceInitialization rs ->
  exists fuel0 : nat,
    forall fuel, (fuel0 <= fuel)%nat ->
      exists h,
        traverseAllPtNodesInPostorderDepthFirstManner listener fuel
          (cursor rs) l
        = Ok (true,
              walkOn listener (mkWalk (cursor rs) l []) h
                (postorderTrace (mPosOfThisPtNodeArrayHead rs) forest)).
Proof.
  intros Hchain Hcount.
  unfold traverseAllPtNodesInPostorderDepthFirstManner.
  rewrite (notify_goes_on _ listener_goes_on). simpl negb. cbv iota.
  set (hd := mPosOfThisPtNodeArrayHead rs).
  change (getPosOfLastPtNodeArrayHead (wHelper (mkWalk (cursor rs) l [])))
    with hd.
  set (w0 := mkWalk (cursor rs) l []).
  change (mkWalk (wHelper w0) (snd (deliver listener (EvDescend hd)
                                      (wListener w0)))
            (wEvents w0 ++ [EvDescend hd]))
    with (walkOn listener w0 (cursor rs) [EvDescend hd]).
  destruct forest as [|r rest].
  - assert (Hend : isEnd (cursor rs) = true)
      by (apply isEnd_true; inversion Hchain; assumption).
    exists 1%nat. intros fuel Hfuel.
    destruct fuel as [|fuel]; [lia|].
    rewrite whileLoop_S. simpl fst. simpl wHelper. rewrite Hend. simpl.
    unfold ascendToRoot. rewrite (notify_goes_on _ listener_goes_on).
    simpl. exists (cursor rs). f_equal.
  - destruct (postorder_runs listener listener_goes_on navFuel _ _ _ Hchain
                ltac:(discriminate) false []
                (walkOn listener w0 (cursor rs) [EvDescend hd]) eq_refl)
      as (n & E & pl & rsl & HE & Hlast & Hrun); [simpl; lia|].
    destruct Hlast as (Honl & Hfetchl & Hvalidl & rse & Hsibl & Hrse).
    exists (navFuel + n + 1)%nat. intros fuel Hfuel.
    specialize (Hrun fuel ltac:(lia)).
    rewrite (whileLoop_Turns_le _ _ _ _ _ _ Hrun) by lia.
    rewrite whileLoop_S. simpl fst. simpl wHelper.
    replace (isEnd (mkHelper false rsl [])) with false
      by (symmetry; now apply isEnd_false).
    simpl negb. cbv iota.
    assert (Hpl : getPtNodeParams (mkHelper false rsl []) = pl).
    { rewrite getPtNodeParams_on_node by now apply isEnd_false.
      exact Hfetchl. }
    rewrite (postorderTurn_visit _ listener_goes_on); simpl wHelper;
      rewrite Hpl; try assumption.
    destruct (readNextSiblingNode_on_trie navFuel fuel false rsl rse [] pl
                ltac:(lia) Hsibl) as [Hmove _].
    rewrite Hmove.
    change (ofFuel (Some ?h)) with (Ok h). cbn [bindOutcome].
    replace (isEnd (mkHelper false rse [])) with true
      by (symmetry; now apply isEnd_true).
    cbn [mReadingStateStack length Nat.leb bindOutcome]. cbv beta iota.
    unfold ascendToRoot. rewrite (notify_goes_on _ listener_goes_on).
    simpl negb. cbv iota.
    exists (mkHelper false rse []).
    unfold postorderTrace, postorderEvents. rewrite HE.
    unfold isError. simpl mIsError. simpl negb.
    change (mkWalk ?h (snd (deliver listener ?ev (wListener ?w)))
              (wEvents ?w ++ [?ev]))
      with (walkOn listener w h [ev]).
    simpl wHelper. rewrite !walkOn_walkOn.
    do 2 f_equal. events_eq.
Qed.

Lemma popReadingStateFromStack_empty (e : bool) (rs : ReadingState) :
  mPos rs = NOT_A_DICT_POS ->
  popReadingStateFromStack (mkHelper e rs []) = mkHelper e rs [].
Proof.
  intros Hend. unfold popReadingStateFromStack, setReadingState, setPos.
  simpl. rewrite <- Hend. now destruct rs.
Qed.

Lemma preorder_on_trie (parentPos : Z) (rs : ReadingState)
    (forest : list PtNode) (l : L) :
  (1 <= MAX_WORD_LENGTH)%nat ->
  ReadsChain navFuel parentPos rs forest ->
  0 <= mTotalCodePointCountSinceInitialization rs ->
  exists fuel0 : nat,
    forall fuel, (fuel0 <= fuel)%nat ->
      exists h,
        traverseAllPtNodesInPtNodeArrayLevelPreorderDepthFirstManner listener
          fuel (cursor rs) l
        = Ok (true,
              walkOn listener (mkWalk (cursor rs) l []) h
                (preorderTrace (mPosOfThisPtNodeArrayHead rs) forest)).
Proof.
  intros Hmax Hchain Hcount.
  unfold traverseAllPtNodesInPtNodeArrayLevelPreorderDepthFirstManner,
    preorderEnter.
  rewrite (notify_goes_on _ listener_goes_on). simpl negb. cbv iota.
  set (hd := mPosOfThisPtNodeArrayHead rs).
  change (getPosOfLastPtNodeArrayHead (wHelper (mkWalk (cursor rs) l [])))
    with hd.
  set (w0 := mkWalk (cursor rs) l []).
  change (mkWalk (wHelper w0) (snd (deliver listener (EvDescend hd)
                                      (wListener w0)))
            (wEvents w0 ++ [EvDescend hd]))
    with (walkOn listener w0 (cursor rs) [EvDescend hd]).
  simpl wHelper.
  destruct forest as [|r rest].
  - assert (Hpos : mPos rs = NOT_A_DICT_POS)
      by (inversion Hchain; assumption).
    assert (Hend : isEnd (cursor rs) = true) by now apply isEnd_true.
    rewrite Hend. rewrite (notify_goes_on _ listener_goes_on).
    simpl negb. cbv iota.
    exists 1%nat. intros fuel Hfuel.
    destruct fuel as [|fuel]; [lia|].
    rewrite whileLoop_S. simpl fst. simpl wHelper.
    rewrite (pushReadingStateToStack_isEnd _ Hend). simpl.
    unfold ascendToRoot. rewrite (notify_goes_on _ listener_goes_on).
    simpl. unfold cursor at 1 2.
    rewrite pushReadingStateToStack_room by (simpl; lia).
    exists (mkHelper false rs []). reflexivity.
  - assert (Hok : exists p kids, r = Node p kids
                                 /\ PtNodeOk parentPos rs p).
    { inversion Hchain; subst. eauto. }
    destruct Hok as (p & kids & -> & Hok).
    assert (Hend : isEnd (cursor rs) = false)
      by (apply isEnd_false; apply (ok_onNode _ _ _ Hok)).
    rewrite Hend.
    pose proof (ok_codePoints _ _ _ Hok) as Hcps.
    pose proof (ok_wordLength _ _ _ Hok) as Hword.
    unfold setHelper. simpl wHelper. unfold cursor.
    rewrite pushReadingStateToStack_room by (simpl; lia).
    match goal with
    | |- context [mkWalk (mkHelper false rs [rs]) ?a ?b] =>
      change (mkWalk (mkHelper false rs [rs]) a b)
        with (walkOn listener w0 (mkHelper false rs [rs]) [EvDescend hd])
    end.
    set (w1 := walkOn listener w0 (mkHelper false rs [rs]) [EvDescend hd]).
    destruct (preorder_visits_chain listener listener_goes_on navFuel _ _ _
                Hchain ltac:(discriminate) false rs [] w1 false eq_refl)
      as (n1 & Hrun1).
    destruct (preorder_runs listener listener_goes_on navFuel _ _ _ Hchain
                ltac:(discriminate) false []
                (walkOn listener w1 (mkHelper false rs [])
                   (visitsOf (Node p kids :: rest)
                    ++ [EvReadingPtNodeArrayTail])) eq_refl)
      as (n2 & pl & rsl & Hlast & Hrun2); [simpl; lia|].
    destruct Hlast as (Honl & Hfetchl & Hvalidl & rse & Hsibl & Hrse).
    exists (navFuel + n1 + n2 + 1)%nat. intros fuel Hfuel.
    specialize (Hrun1 fuel ltac:(lia)). specialize (Hrun2 fuel ltac:(lia)).
    pose proof (Turns_app _ _ _ _ _ _ _ Hrun1 Hrun2) as Hrun.
    rewrite (whileLoop_Turns_le _ _ _ _ _ _ Hrun) by lia.
    rewrite whileLoop_S. simpl fst. simpl wHelper.
    replace (isEnd (mkHelper false rsl [])) with false
      by (symmetry; now apply isEnd_false).
    simpl negb. cbv iota.
    assert (Hpl : getPtNodeParams (mkHelper false rsl []) = pl).
    { rewrite getPtNodeParams_on_node by now apply isEnd_false.
      exact Hfetchl. }
    rewrite (preorderTurn_next _ listener_goes_on); simpl wHelper;
      rewrite Hpl; try assumption.
    destruct (readNextSiblingNode_on_trie navFuel fuel false rsl rse [] pl
                ltac:(lia) Hsibl) as [Hmove _].
    rewrite Hmove.
    change (ofFuel (Some ?h)) with (Ok h). cbn [bindOutcome].
    replace (isEnd (mkHelper false rse [])) with true
      by (symmetry; now apply isEnd_true).
    cbn [mReadingStateStack length Nat.leb bindOutcome]. cbv beta iota.
    simpl wHelper.
    rewrite popReadingStateFromStack_empty by exact Hrse.
    match goal with
    | |- context [mkWalk ?h (wListener ?X) (wEvents ?X)] =>
      change (mkWalk h (wListener X) (wEvents X)) with (setHelper X h)
    end.
    rewrite setHelper_walkOn.
    unfold ascendToRoot. rewrite (notify_goes_on _ listener_goes_on).
    simpl negb. cbv iota.
    exists (mkHelper false rse []).
    unfold preorderTrace, preorderEvents, isError. simpl mIsError.
    simpl negb.
    change (mkWalk ?h (snd (deliver listener ?ev (wListener ?w)))
              (wEvents ?w ++ [?ev]))
      with (walkOn listener w h [ev]).
    simpl wHelper. unfold w1. rewrite !walkOn_walkOn.
    do 2 f_equal. unfold visitsOf. events_eq.
Qed.

End TraversalsOnTrie.

(** ** The nodes the two traversals visit *)

Section VisitedNodes.

(** Induction over a node together with the forest below it. *)
Lemma PtNode_forest_ind (P : PtNode -> Prop) (Q : list PtNode -> Prop) :
  Q [] ->
  (forall n forest, P n -> Q forest -> Q (n :: forest)) ->
  (forall p kids, Q kids -> P (Node p kids)) ->
  forall forest, Q forest.
Proof.
  intros Hnil Hcons Hnode.
  assert (Hall : forall n, P n).
  { fix IH 1. intros [p kids]. apply Hnode.
    induction kids as [|k kids IHkids]; [exact Hnil|].
    apply Hcons; [apply IH | exact IHkids]. }
  induction forest as [|n forest IHforest]; [exact Hnil|].
  apply Hcons; [apply Hall | exact IHforest].
Qed.

Lemma visitedPtNodes_app (E1 E2 : list Event) :
  visitedPtNodes (E1 ++ E2) = visitedPtNodes E1 ++ visitedPtNodes E2.
Proof. unfold visitedPtNodes. apply omap_app. Qed.

Lemma visitedPtNodes_visits (forest : list PtNode) :
  visitedPtNodes (map (fun k => EvVisitingPtNode (paramsOf k)) forest)
  = map paramsOf forest.
Proof.
  induction forest as [|n forest IH]; [reflexivity|].
  change (paramsOf n
          :: visitedPtNodes
               (map (fun k => EvVisitingPtNode (paramsOf k)) forest)
          = paramsOf n :: map paramsOf forest).
  now rewrite IH.
Qed.

Lemma visitedPtNodes_postorder_node (p : PtNodeParams) (kids : list PtNode) :
  visitedPtNodes (postorderEventsOfPtNode (Node p kids))
  = visitedPtNodes (flat_map postorderEventsOfPtNode kids) ++ [p].
Proof.
  destruct kids as [|k kids]; [reflexivity|].
  change (postorderEventsOfPtNode (Node p (k :: kids)))
    with ((EvDescend (getChildrenPos p)
           :: flat_map postorderEventsOfPtNode (k :: kids)
           ++ [EvReadingPtNodeArrayTail; EvAscend])
          ++ [EvVisitingPtNode p]).
  rewrite visitedPtNodes_app.
  change (visitedPtNodes (EvDescend (getChildrenPos p)
                          :: flat_map postorderEventsOfPtNode (k :: kids)
                          ++ [EvReadingPtNodeArrayTail; EvAscend]))
    with (visitedPtNodes (flat_map postorderEventsOfPtNode (k :: kids)
                          ++ [EvReadingPtNodeArrayTail; EvAscend])).
  rewrite visitedPtNodes_app. simpl. now rewrite app_nil_r.
Qed.

(** The post-order loop visits the nodes of the forest, each once. *)
Lemma visitedPtNodes_postorder (forest : list PtNode) :
  Permutation (visitedPtNodes (flat_map postorderEventsOfPtNode forest))
    (nodesOf forest).
Proof.
  apply (PtNode_forest_ind
           (fun n => Permutation (visitedPtNodes (postorderEventsOfPtNode n))
                       (nodesOfPtNode n))
           (fun forest =>
              Permutation
                (visitedPtNodes (flat_map postorderEventsOfPtNode forest))
                (nodesOf forest))).
  - constructor.
  - intros n rest Hn Hrest. simpl. rewrite visitedPtNodes_app.
    unfold nodesOf. simpl. now apply Permutation_app.
  - intros p kids Hkids. rewrite visitedPtNodes_postorder_node.
    simpl. rewrite Permutation_app_comm. simpl.
    apply perm_skip. exact Hkids.
Qed.

Lemma visitedPtNodes_preorder_node (p : PtNodeParams) (kids : list PtNode) :
  visitedPtNodes (preorderEventsOfPtNode (Node p kids))
  = map paramsOf kids
    ++ visitedPtNodes (flat_map preorderEventsOfPtNode kids).
Proof.
  destruct kids as [|k kids]; [reflexivity|].
  change (preorderEventsOfPtNode (Node p (k :: kids)))
    with ([EvDescend (getChildrenPos p)]
          ++ map (fun k => EvVisitingPtNode (paramsOf k)) (k :: kids)
          ++ [EvReadingPtNodeArrayTail]
          ++ flat_map preorderEventsOfPtNode (k :: kids)
          ++ [EvAscend]).
  rewrite !visitedPtNodes_app, visitedPtNodes_visits.
  simpl. now rewrite app_nil_r.
Qed.

(** The two passes of the pre-order loop visit the nodes of the forest, each
    once. *)
Lemma visitedPtNodes_preorder (forest : list PtNode) :
  Permutation
    (map paramsOf forest
     ++ visitedPtNodes (flat_map preorderEventsOfPtNode forest))
    (nodesOf forest).
Proof.
  apply (PtNode_forest_ind
           (fun n => Permutation
                       (paramsOf n
                        :: visitedPtNodes (preorderEventsOfPtNode n))
                       (nodesOfPtNode n))
           (fun forest =>
              Permutation
                (map paramsOf forest
                 ++ visitedPtNodes (flat_map preorderEventsOfPtNode forest))
                (nodesOf forest))).
  - constructor.
  - intros n rest Hn Hrest. simpl. rewrite visitedPtNodes_app.
    unfold nodesOf. simpl.
    rewrite <- Hn, <- Hrest. simpl. apply perm_skip.
    rewrite !app_assoc. apply Permutation_app_tail.
    apply Permutation_app_comm.
  - intros p kids Hkids. rewrite visitedPtNodes_preorder_node.
    simpl. apply perm_skip. exact Hkids.
Qed.

Lemma visitedPtNodes_postorderTrace (head : Z) (forest : list PtNode) :
  Permutation (visitedPtNodes (postorderTrace head forest)) (nodesOf forest).
Proof.
  destruct forest as [|n rest]; [constructor|].
  unfold postorderTrace, postorderEvents.
  change (visitedPtNodes (EvDescend head :: ?E)) with (visitedPtNodes E).
  rewrite visitedPtNodes_app.
  change (visitedPtNodes [EvReadingPtNodeArrayTail; EvAscend])
    with (@nil PtNodeParams).
  rewrite app_nil_r.
  apply (visitedPtNodes_postorder (n :: rest)).
Qed.

Lemma visitedPtNodes_preorderTrace (head : Z) (forest : list PtNode) :
  Permutation (visitedPtNodes (preorderTrace head forest)) (nodesOf forest).
Proof.
  destruct forest as [|n rest]; [constructor|].
  unfold preorderTrace, preorderEvents.
  change (visitedPtNodes (EvDescend head :: ?E)) with (visitedPtNodes E).
  rewrite !visitedPtNodes_app, visitedPtNodes_visits.
  change (visitedPtNodes [EvReadingPtNodeArrayTail])
    with (@nil PtNodeParams).
  change (visitedPtNodes [EvAscend]) with (@nil PtNodeParams).
  rewrite !app_nil_r. rewrite app_nil_l.
  apply (visitedPtNodes_preorder (n :: rest)).
Qed.

End VisitedNodes.

Section TraversalClaim.
Context {defs : Defines} {dict : Dictionary}.
Context {L : Type} (listener : TraversingEventListener L).

Lemma initWithPtNodeArrayPos_codePointCount (fuel : nat) (rootPos : Z)
    (rs : ReadingState) :
  initWithPtNodeArrayPos fuel freshHelper rootPos = Some (cursor rs) ->
  mTotalCodePointCountSinceInitialization rs = 0.
Proof.
  unfold initWithPtNodeArrayPos.
  destruct (rootPos =? NOT_A_DICT_POS).
  - intros Heq. inversion Heq. reflexivity.
  - intros Hnext. apply nextPtNodeArray_codePointCount in Hnext.
    exact Hnext.
Qed.

(** The two traversals agree where no child array is empty.  On a trie
    that [WellFormedTrie] describes (in particular: every node that has
    children has at least one node in its child array chain) and whose
    words may have at least one code point, with a listener that never
    stops, both traversals run to their end and report success, and the
    nodes handed to [onVisitingPtNode] by the post-order traversal and by
    the array-level pre-order traversal are the nodes of the trie, each
    exactly once in each traversal: the two lists are permutations of the
    node list of the trie, hence of each other, and no position is visited
    twice. *)
Theorem traversals_visit_the_same_nodes (navFuel : nat) (rootPos : Z)
    (rs : ReadingState) (forest : list PtNode) (l : L) :
  neverStops listener ->
  (1 <= MAX_WORD_LENGTH)%nat ->
  WellFormedTrie navFuel rootPos rs forest ->
  exists fuel0 : nat,
    forall fuel, (fuel0 <= fuel)%nat ->
      exists w1 w2 : Walk L,
        traverseAllPtNodesInPostorderDepthFirstManner listener fuel
          (cursor rs) l = Ok (true, w1)
        /\ traverseAllPtNodesInPtNodeArrayLevelPreorderDepthFirstManner
             listener fuel (cursor rs) l = Ok (true, w2)
        /\ Permutation (visitedPtNodes (wEvents w1)) (nodesOf forest)
        /\ Permutation (visitedPtNodes (wEvents w2)) (nodesOf forest)
        /\ Permutation (visitedPtNodes (wEvents w1))
             (visitedPtNodes (wEvents w2))
        /\ NoDup (map getHeadPos (visitedPtNodes (wEvents w1)))
        /\ NoDup (map getHeadPos (visitedPtNodes (wEvents w2))).
Proof.
  intros Hgo Hmax (Hinit & Hchain & Hnodup & _).
  assert (Hcount : 0 <= mTotalCodePointCountSinceInitialization rs).
  { rewrite (initWithPtNodeArrayPos_codePointCount _ _ _ Hinit). lia. }
  destruct (postorder_on_trie listener Hgo navFuel _ rs forest l Hchain Hcount)
    as (f1 & Hpost).
  destruct (preorder_on_trie listener Hgo navFuel _ rs forest l Hmax Hchain
              Hcount) as (f2 & Hpre).
  exists (f1 + f2)%nat. intros fuel Hfuel.
  destruct (Hpost fuel ltac:(lia)) as (h1 & Hrun1).
  destruct (Hpre fuel ltac:(lia)) as (h2 & Hrun2).
  eexists _, _. split; [exact Hrun1|]. split; [exact Hrun2|].
  simpl wEvents.
  pose proof (visitedPtNodes_postorderTrace
                (mPosOfThisPtNodeArrayHead rs) forest) as H1.
  pose proof (visitedPtNodes_preorderTrace
                (mPosOfThisPtNodeArrayHead rs) forest) as H2.
  split; [exact H1|]. split; [exact H2|].
  split; [now rewrite H1, H2|].
  split.
  - rewrite (Permutation_map getHeadPos H1). exact Hnodup.
  - rewrite (Permutation_map getHeadPos H2). exact Hnodup.
Qed.

End TraversalClaim.

(** ** A child array without nodes *)

(** The root array of the dictionary with the empty child array is entered
    without error. *)
Example emptyChildArrayDictionary_root :
  @initWithPtNodeArrayPos exampleDefines emptyChildArrayDictionary 2
    (@freshHelper exampleDefines) 0
  = Some (@cursor emptyChildRoot).
Proof. vm_compute. reflexivity. Qed.

(** Its two words are found where they are stored. *)
Example emptyChildArrayDictionary_words :
  (exists h, @getTerminalPtNodePositionOfWord exampleDefines
               emptyChildArrayDictionary 5 (@cursor emptyChildRoot)
               [97] 1 false = Ok (1, h))
  /\ (exists h, @getTerminalPtNodePositionOfWord exampleDefines
                  emptyChildArrayDictionary 5 (@cursor emptyChildRoot)
                  [98] 1 false = Ok (5, h)).
Proof. split; eexists; vm_compute; reflexivity. Qed.

(** C3, the failing case.  On the dictionary whose node "a" names an empty
    array as its children, with a listener that never stops, both
    traversals report success, yet they do not visit the same nodes: the
    post-order traversal leaves its loop as soon as it has moved into the
    empty array (the cursor is at the end there, line 42) and has visited
    no node at all, while the array-level pre-order traversal has visited
    "a" and "b" before it leaves its loop the same way (line 110). *)
Theorem traversals_disagree_on_empty_child_array (fuel : nat) :
  exists w1 w2 : Walk unit,
    @traverseAllPtNodesInPostorderDepthFirstManner exampleDefines
      emptyChildArrayDictionary unit silentListener (4 + fuel)
      (@cursor emptyChildRoot) tt = Ok (true, w1)
    /\ @traverseAllPtNodesInPtNodeArrayLevelPreorderDepthFirstManner
         exampleDefines emptyChildArrayDictionary unit silentListener
         (4 + fuel) (@cursor emptyChildRoot) tt = Ok (true, w2)
    /\ wEvents w1 = [EvDescend 0; EvDescend 12; EvAscend]
    /\ wEvents w2
       = [EvDescend 0; EvVisitingPtNode emptyChildNodeA;
          EvVisitingPtNode emptyChildNodeB; EvReadingPtNodeArrayTail;
          EvDescend 12; EvAscend]
    /\ visitedPtNodes (wEvents w1) = []
    /\ visitedPtNodes (wEvents w2) = [emptyChildNodeA; emptyChildNodeB].
Proof.
  eexists _, _.
  split; [vm_compute; reflexivity|].
  split; [vm_compute; reflexivity|].
  repeat split.
Qed.

(** ** Lookup and reverse reconstruction on a trie *)

Section LookupOnTrie.
Context {defs : Defines} {dict : Dictionary}.
Variable navFuel : nat.













End LookupOnTrie.

Section ReconstructOnTrie.
Context {defs : Defines} {dict : Dictionary}.



(** The closing loop of lines 208-210 turns the stored code points round
    into the caller's array. *)
Lemma reverseStoredCodePoints_reverses (buf : list (option Z))
    (stored : list Z) (n : nat) :
  forall (i : nat) (out : list Z),
    (i + n)%nat = length stored ->
    take (length stored) buf = map Some stored ->
    (length stored <= length out)%nat ->
    reverseStoredCodePoints buf (Z.of_nat (length stored)) (seq i n) out
    = Ok (take i out ++ take n (drop i (reverse stored))
          ++ drop (i + n) out).
Proof.
  induction n as [|n IH]; intros i out Hi Hbuf Hout; simpl.
  - rewrite Nat.add_0_r, take_drop. reflexivity.
  - destruct (lookup_lt_is_Some_2 (reverse stored) i) as [c Hc];
      [rewrite length_reverse; lia|].
    assert (Hslot : buf !! (length stored - 1 - i)%nat = Some (Some c)).
    { rewrite <- (lookup_take_lt _ (length stored)) by lia.
      rewrite Hbuf, list_lookup_fmap, rev_lookup_back by lia.
      now rewrite Hc. }
    rewrite readAt_lookup by lia.
    replace (Z.to_nat (Z.of_nat (length stored) - Z.of_nat i - 1))
      with (length stored - 1 - i)%nat by lia.
    rewrite Hslot. simpl.
    rewrite writeAt_in_range by lia. simpl. rewrite Nat2Z.id.
    rewrite IH by (try exact Hbuf; rewrite ?length_insert; lia).
    f_equal.
    rewrite (drop_S _ _ _ Hc). simpl.
    destruct (lookup_lt_is_Some_2 out i) as [old Hold]; [lia|].
    rewrite (take_S_r _ _ c) by (apply list_lookup_insert_eq; lia).
    rewrite take_insert_ge by lia.
    rewrite drop_insert_lt by lia.
    rewrite <- app_assoc. simpl.
    replace (S (i + n)) with (i + S n)%nat by lia.
    reflexivity.
Qed.


End ReconstructOnTrie.

Section RoundTrip.
Context {defs : Defines} {dict : Dictionary}.


End RoundTrip.

(** ** The example trie is well formed *)

Ltac decide_closed :=
  vm_compute;
  first [ reflexivity | discriminate | lia
        | let H := fresh in intros H; discriminate H ].

Ltac example_node_ok :=
  split; decide_closed.

Lemma exampleDictionary_reads :
  @ReadsChain exampleDefines exampleDictionary 5 noPos exampleRoot
    exampleForest.
Proof.
  apply (@ReadsChain_node exampleDefines exampleDictionary 5 noPos exampleRoot
           nodeA _ _ exampleAtXYZ).
  - example_node_ok.
  - apply (@ReadsChildren_some exampleDefines exampleDictionary 5 exampleRoot
             nodeA _ _ exampleAtB); [reflexivity | decide_closed |].
    apply (@ReadsChain_node exampleDefines exampleDictionary 5 _ exampleAtB
             nodeB _ _ exampleAtC).
    + example_node_ok.
    + apply ReadsChildren_none. reflexivity.
    + decide_closed.
    + apply (@ReadsChain_node exampleDefines exampleDictionary 5 _ exampleAtC
               nodeC _ _ exampleAfterC).
      * example_node_ok.
      * apply ReadsChildren_none. reflexivity.
      * decide_closed.
      * apply ReadsChain_end. reflexivity.
  - decide_closed.
  - apply (@ReadsChain_node exampleDefines exampleDictionary 5 noPos
             exampleAtXYZ nodeXYZ _ _ exampleAfterXYZ).
    + example_node_ok.
    + apply ReadsChildren_none. reflexivity.
    + decide_closed.
    + apply ReadsChain_end. reflexivity.
Qed.

Lemma exampleForest_disjoint : DisjointEdges exampleForest.
Proof.
  unfold exampleForest.
  repeat first [ apply DisjointEdges_nil
               | apply DisjointEdges_cons
               | apply Forall_nil_2
               | apply Forall_cons_2; [vm_compute; discriminate|] ].
Qed.

Lemma exampleDictionary_wellFormed :
  @WellFormedTrie exampleDefines exampleDictionary 5 0 exampleRoot
    exampleForest.
Proof.
  split; [decide_closed|]. split; [apply exampleDictionary_reads|].
  split; [|apply exampleForest_disjoint].
  apply NoDup_ListNoDup. vm_compute.
  repeat constructor; simpl; intuition discriminate.
Qed.

(** The two traversals on the trie of "a", "ab", "ac" and "xyz", where no
    child array is empty. *)
Lemma traversals_visit_the_same_nodes_witness :
  exists fuel0 : nat,
    forall fuel, (fuel0 <= fuel)%nat ->
      exists w1 w2 : Walk unit,
        @traverseAllPtNodesInPostorderDepthFirstManner exampleDefines
          exampleDictionary unit silentListener fuel
          (@cursor exampleRoot) tt = Ok (true, w1)
        /\ @traverseAllPtNodesInPtNodeArrayLevelPreorderDepthFirstManner
             exampleDefines exampleDictionary unit silentListener fuel
             (@cursor exampleRoot) tt = Ok (true, w2)
        /\ Permutation (visitedPtNodes (wEvents w1)) (nodesOf exampleForest)
        /\ Permutation (visitedPtNodes (wEvents w2)) (nodesOf exampleForest)
        /\ Permutation (visitedPtNodes (wEvents w1))
             (visitedPtNodes (wEvents w2))
        /\ NoDup (map getHeadPos (visitedPtNodes (wEvents w1)))
        /\ NoDup (map getHeadPos (visitedPtNodes (wEvents w2))).
Proof.
  apply (@traversals_visit_the_same_nodes exampleDefines exampleDictionary
           unit silentListener 5 0 exampleRoot exampleForest tt).
  - apply silentListener_neverStops.
  - vm_compute. lia.
  - apply exampleDictionary_wellFormed.
Defined.

(** The orders in which the two traversals visit the example trie. *)
Example example_visit_orders :
  match
    @traverseAllPtNodesInPostorderDepthFirstManner exampleDefines
      exampleDictionary unit silentListener 20 (@cursor exampleRoot) tt,
    @traverseAllPtNodesInPtNodeArrayLevelPreorderDepthFirstManner
      exampleDefines exampleDictionary unit silentListener 20
      (@cursor exampleRoot) tt
  with
  | Ok (true, w1), Ok (true, w2) =>
    visitedPtNodes (wEvents w1) = [nodeB; nodeC; nodeA; nodeXYZ]
    /\ visitedPtNodes (wEvents w2) = [nodeA; nodeXYZ; nodeB; nodeC]
  | _, _ => False
  end.
Proof. vm_compute. split; reflexivity. Qed.



(** The same round trip, run. *)
Example example_round_trip :
  match
    @getTerminalPtNodePositionOfWord exampleDefines exampleDictionary 20
      (@cursor exampleRoot) [97; 99] 2 false
  with
  | Ok (pos, h) =>
    pos = 12
    /\ match
         @getCodePointsAndProbabilityAndReturnCodePointCount exampleDefines
           exampleDictionary 20 (@initWithPtNodePos exampleDefines h pos) 2
           [0; 0; 0]
       with
       | Ok r => codePointCount r = 2 /\ outCodePoints r = [97; 99; 0]
                 /\ outUnigramProbability r = 30
       | _ => False
       end
  | _ => False
  end.
Proof. vm_compute. repeat split; reflexivity. Qed.

(** * Further properties *)

(** ** Array navigation, for every dictionary *)

Section NavigationLanding.
Context {defs : Defines} {dict : Dictionary}.

Lemma nextPtNodeArray_Lands (fuel : nat) :
  forall h h' : Helper, nextPtNodeArray fuel h = Some h' -> Lands h h'.
Proof.
  induction fuel as [|fuel IH]; intros h h' Hrun; [discriminate|].
  rewrite nextPtNodeArray_S in Hrun.
  destruct (outOfDictionary (mPos (mReadingState h))) eqn:Hin.
  { inversion Hrun; subst h'. left. split; reflexivity. }
  cbv zeta in Hrun. rewrite readPtNodeArrayInfo_fields in Hrun.
  destruct (invalidPtNodeArrayInfo _) eqn:Hinv.
  { inversion Hrun; subst h'. left. split; reflexivity. }
  unfold invalidPtNodeArrayInfo in Hinv. simpl in Hinv, Hrun.
  apply orb_false_iff in Hinv. destruct Hinv as [Hinv Harrays].
  apply orb_false_iff in Hinv. destruct Hinv as [Hneg Hnodes].
  apply Z.ltb_ge in Hneg, Hnodes, Harrays.
  destruct (fst (arraySizeAt (mPos (mReadingState h))) =? 0) eqn:Hzero.
  - unfold followForwardLink in Hrun.
    rewrite followForwardLinkWith_fields in Hrun. simpl in Hrun.
    destruct (outOfDictionary (snd (arraySizeAt (mPos (mReadingState h)))))
      eqn:Hin2.
    { inversion Hrun; subst h'. left. split; reflexivity. }
    destruct (isValidForwardLinkPosition _) eqn:Hlink.
    + apply IH in Hrun. exact Hrun.
    + inversion Hrun; subst h'. right. left.
      split; [reflexivity|]. split; [reflexivity|]. simpl.
      split; assumption.
  - apply Z.eqb_neq in Hzero.
    inversion Hrun; subst h'. right. right.
    split; [reflexivity|]. unfold InPtNodeArray. simpl.
    split; [exact Hin|]. split; [now destruct (arraySizeAt _)|].
    split; [lia|]. split; assumption.
Qed.

Lemma followForwardLink_Lands (fuel : nat) (h h' : Helper) :
  followForwardLink fuel h = Some h' -> Lands h h'.
Proof.
  intros Hrun. unfold followForwardLink in Hrun.
  rewrite followForwardLinkWith_fields in Hrun.
  destruct (outOfDictionary (mPos (mReadingState h))) eqn:Hin.
  { inversion Hrun; subst h'. left. split; reflexivity. }
  cbv zeta in Hrun.
  destruct (isValidForwardLinkPosition _) eqn:Hlink.
  - apply nextPtNodeArray_Lands in Hrun. exact Hrun.
  - inversion Hrun; subst h'. right. left.
    split; [reflexivity|]. split; [reflexivity|]. simpl.
    split; assumption.
Qed.

(** Where a navigation call can leave the helper, whatever the dictionary
    holds.  When [nextPtNodeArray] or [followForwardLink] returns, either
    the error flag is up and the position is the sentinel; or the flag is as
    it was and the chain has ended at a forward link field inside the
    dictionary that holds no link; or the flag is as it was and the cursor
    stands right behind the size field of an array that lies inside the
    dictionary and holds at least one node, with both counters within their
    ceilings.  ([followForwardLink] from a position outside the dictionary
    is the first case.) *)
Theorem navigation_lands (fuel : nat) (h h' : Helper) :
  nextPtNodeArray fuel h = Some h' \/ followForwardLink fuel h = Some h' ->
  Lands h h'.
Proof.
  intros [Hrun|Hrun];
    [now apply (nextPtNodeArray_Lands fuel)
    |now apply (followForwardLink_Lands fuel)].
Qed.

Lemma nextPtNodeArray_arrayIndex (fuel : nat) :
  forall h h' : Helper,
    nextPtNodeArray fuel h = Some h' ->
    mPtNodeArrayIndexInThisArrayChain (mReadingState h)
    <= mPtNodeArrayIndexInThisArrayChain (mReadingState h').
Proof.
  induction fuel as [|fuel IH]; intros h h' Hrun; [discriminate|].
  rewrite nextPtNodeArray_S in Hrun.
  destruct (outOfDictionary _); [inversion Hrun; simpl; lia|].
  cbv zeta in Hrun. rewrite readPtNodeArrayInfo_fields in Hrun.
  destruct (invalidPtNodeArrayInfo _); [inversion Hrun; simpl; lia|].
  simpl in Hrun.
  destruct (_ =? 0); [|inversion Hrun; simpl; lia].
  unfold followForwardLink in Hrun.
  rewrite followForwardLinkWith_fields in Hrun. simpl in Hrun.
  destruct (outOfDictionary _); [inversion Hrun; simpl; lia|].
  destruct (isValidForwardLinkPosition _); [|inversion Hrun; simpl; lia].
  apply IH in Hrun. simpl in Hrun. lia.
Qed.

(** What a navigation call never touches.  [nextPtNodeArray] leaves the
    reading state stack and the count of matched code points as they were,
    never lowers the error flag, and never counts the arrays of the chain
    down. *)
Theorem nextPtNodeArray_preserves (fuel : nat) (h h' : Helper) :
  nextPtNodeArray fuel h = Some h' ->
  mReadingStateStack h' = mReadingStateStack h
  /\ mTotalCodePointCountSinceInitialization (mReadingState h')
     = mTotalCodePointCountSinceInitialization (mReadingState h)
  /\ (mIsError h = true -> mIsError h' = true)
  /\ mPtNodeArrayIndexInThisArrayChain (mReadingState h)
     <= mPtNodeArrayIndexInThisArrayChain (mReadingState h').
Proof.
  intros Hrun.
  split; [|split; [now apply (nextPtNodeArray_codePointCount fuel)|split]].
  - destruct h as [e rs st]. rewrite nextPtNodeArray_frame in Hrun.
    destruct (nextPtNodeArray fuel _); [|discriminate].
    inversion Hrun. reflexivity.
  - destruct h as [e rs st]. rewrite nextPtNodeArray_frame in Hrun.
    destruct (nextPtNodeArray fuel _); [|discriminate].
    inversion Hrun. simpl. intros ->. reflexivity.
  - now apply (nextPtNodeArray_arrayIndex fuel).
Qed.

(** The pair [nextPtNodeArray] / [followForwardLink] returns on every
    dictionary: from a chain whose array counter is not negative, 100001
    activations (the array ceiling and one) are enough for either. *)
Theorem navigation_returns (fuel : nat) (h : Helper) :
  0 <= mPtNodeArrayIndexInThisArrayChain (mReadingState h) ->
  (Z.to_nat 100001 <= fuel)%nat ->
  (exists h', nextPtNodeArray fuel h = Some h')
  /\ (exists h', followForwardLink fuel h = Some h').
Proof.
  intros Hidx Hfuel. split.
  - apply (nextPtNodeArray_terminates (Z.to_nat 100000));
      [unfold MAX_PT_NODE_ARRAY_COUNT_TO_AVOID_INFINITE_LOOP; lia|lia].
  - apply (followForwardLink_terminates (Z.to_nat 100000));
      [unfold MAX_PT_NODE_ARRAY_COUNT_TO_AVOID_INFINITE_LOOP; lia|lia].
Qed.

End NavigationLanding.

(** The walk into the example trie lands in the root array. *)
Lemma navigation_lands_witness :
  @Lands exampleDefines exampleDictionary
    (@cursor (mkReadingState 0 0 0 0 0 noPos noPos)) (@cursor exampleRoot).
Proof.
  apply (@navigation_lands exampleDefines exampleDictionary 5).
  left. vm_compute. reflexivity.
Defined.

Lemma nextPtNodeArray_preserves_witness :
  let h := mkHelper false (mkReadingState 0 0 3 0 0 noPos noPos)
             [exampleAtB] in
  let h' := mkHelper false (mkReadingState 1 1 3 1 1 noPos 0) [exampleAtB] in
  mReadingStateStack h' = mReadingStateStack h
  /\ mTotalCodePointCountSinceInitialization (mReadingState h')
     = mTotalCodePointCountSinceInitialization (mReadingState h)
  /\ (mIsError h = true -> mIsError h' = true)
  /\ mPtNodeArrayIndexInThisArrayChain (mReadingState h)
     <= mPtNodeArrayIndexInThisArrayChain (mReadingState h').
Proof.
  intros h h'.
  apply (@nextPtNodeArray_preserves exampleDefines exampleDictionary 5 h h').
  vm_compute. reflexivity.
Defined.

(** From the empty array that links to itself, navigation returns. *)
Lemma navigation_returns_witness :
  (exists h', @nextPtNodeArray exampleDefines selfLinkDictionary
                (Z.to_nat 100001)
                (@cursor (mkReadingState 0 0 0 0 0 noPos noPos)) = Some h')
  /\ (exists h', @followForwardLink exampleDefines selfLinkDictionary
                   (Z.to_nat 100001)
                   (@cursor (mkReadingState 0 0 0 0 0 noPos noPos))
                 = Some h').
Proof.
  apply (@navigation_returns exampleDefines selfLinkDictionary
           (Z.to_nat 100001)
           (@cursor (mkReadingState 0 0 0 0 0 noPos noPos))).
  - simpl. lia.
  - lia.
Defined.

(** ** The traversals, for every dictionary and listener *)

Section TraversalOutcomes.
Context {defs : Defines} {dict : Dictionary}.
Context {L : Type} (listener : TraversingEventListener L).

Lemma allAccepted_snoc (E : list Event) (ev : Event) (l : L) :
  allAccepted listener (E ++ [ev]) l
  = allAccepted listener E l
    && fst (deliver listener ev (listenerAfter listener E l)).
Proof.
  revert l. induction E as [|e E IH]; intros l; simpl.
  - now rewrite andb_true_r.
  - rewrite IH, andb_assoc. reflexivity.
Qed.

Lemma listenerAfter_snoc (E : list Event) (ev : Event) (l : L) :
  listenerAfter listener (E ++ [ev]) l
  = snd (deliver listener ev (listenerAfter listener E l)).
Proof. unfold listenerAfter. now rewrite fold_left_app. Qed.

(** One callback of a traversal that is going on: the traversal goes on
    when the listener says so, and otherwise [false] is ready to be handed
    back. *)
Lemma notify_GoingOn (h0 : Helper) (l0 : L) (ev : Event) (w : Walk L) :
  GoingOn listener h0 l0 w ->
  validVisit ev ->
  wHelper (snd (notify listener ev w)) = wHelper w
  /\ (fst (notify listener ev w) = true ->
      GoingOn listener h0 l0 (snd (notify listener ev w)))
  /\ HandsBack listener h0 l0 false (snd (notify listener ev w)).
Proof.
  intros (Hl & Hacc & Hvalid & Herr) Hev. unfold notify.
  destruct (deliver listener ev (wListener w)) as [ok l] eqn:Hd. simpl.
  assert (Hl' : l = listenerAfter listener (wEvents w ++ [ev]) l0).
  { rewrite listenerAfter_snoc, <- Hl, Hd. reflexivity. }
  assert (Hvalid' : Forall validVisit (wEvents w ++ [ev])).
  { apply Forall_app. split; [exact Hvalid|]. now constructor. }
  split; [reflexivity|]. split.
  - intros ->. split; [exact Hl'|]. split; [|split; assumption].
    simpl. rewrite allAccepted_snoc, Hacc, <- Hl, Hd. reflexivity.
  - split; [exact Hl'|]. split; [simpl; now rewrite removelast_last|].
    split; [discriminate|]. split; [discriminate|]. split; [reflexivity|].
    exact Hvalid'.
Qed.

Lemma GoingOn_setHelper (h0 : Helper) (l0 : L) (w : Walk L) (h : Helper) :
  GoingOn listener h0 l0 w ->
  (mIsError (wHelper w) = true -> mIsError h = true) ->
  GoingOn listener h0 l0 (setHelper w h).
Proof.
  intros (Hl & Hacc & Hvalid & Herr) Hsticky.
  split; [exact Hl|]. split; [exact Hacc|]. split; [exact Hvalid|].
  intros H0. apply Hsticky, Herr, H0.
Qed.

Lemma readNextSiblingNode_sticky (fuel : nat) (h h' : Helper)
    (p : PtNodeParams) :
  readNextSiblingNode fuel h p = Some h' ->
  mIsError h = true -> mIsError h' = true.
Proof.
  destruct h as [e rs st]. rewrite readNextSiblingNode_frame.
  destruct (readNextSiblingNode fuel _ _); [|discriminate].
  intros Heq. inversion Heq. simpl. intros ->. reflexivity.
Qed.

Lemma readChildNode_sticky (fuel : nat) (h h' : Helper) (p : PtNodeParams) :
  readChildNode fuel h p = Some h' ->
  mIsError h = true -> mIsError h' = true.
Proof.
  destruct h as [e rs st]. rewrite readChildNode_frame.
  destruct (readChildNode fuel _ _); [|discriminate].
  intros Heq. inversion Heq. simpl. intros ->. reflexivity.
Qed.

Lemma pushReadingStateToStack_sticky (h : Helper) :
  mIsError h = true -> mIsError (pushReadingStateToStack h) = true.
Proof.
  unfold pushReadingStateToStack. destruct (_ <=? _)%nat; [reflexivity|].
  intros H. exact H.
Qed.

Lemma popReadingStateFromStack_mIsError (h : Helper) :
  mIsError (popReadingStateFromStack h) = mIsError h.
Proof.
  unfold popReadingStateFromStack.
  destruct (mReadingStateStack h); reflexivity.
Qed.

(** The closing statements of both traversals. *)
Lemma ascendToRoot_HandsBack (h0 : Helper) (l0 : L) (w : Walk L) :
  GoingOn listener h0 l0 w ->
  HandsBack listener h0 l0 (fst (ascendToRoot listener w))
    (snd (ascendToRoot listener w)).
Proof.
  intros Hgo. unfold ascendToRoot.
  destruct (notify_GoingOn h0 l0 EvAscend w Hgo I) as (Hh & Hon & Hback).
  destruct (notify listener EvAscend w) as [ok w1]. simpl in Hh, Hon, Hback.
  destruct ok; simpl; [|exact Hback].
  destruct (Hon eq_refl) as (Hl & Hacc & Hvalid & Herr).
  destruct Hback as (_ & Hlast & _).
  split; [exact Hl|]. split; [exact Hlast|]. split; [intros _; exact Hacc|].
  unfold isError. split.
  - intros Hb. now apply negb_true_iff in Hb.
  - split; [|exact Hvalid]. intros H0. now rewrite (Herr H0).
Qed.

Ltac notify_step h0 l0 ev w Hgo Hvalid :=
  let Hh := fresh "Hh" in
  let Hon := fresh "Hon" in
  let Hback := fresh "Hback" in
  let ok := fresh "ok" in
  let w1 := fresh "w" in
  destruct (notify_GoingOn h0 l0 ev w Hgo Hvalid) as (Hh & Hon & Hback);
  destruct (notify listener ev w) as [ok w1];
  simpl in Hh, Hon, Hback;
  destruct ok; simpl negb; cbv iota; [specialize (Hon eq_refl)|exact Hback].

Lemma postorder_HandsBack (fuel : nat) (h : Helper) (l : L) (b : bool)
    (w : Walk L) :
  traverseAllPtNodesInPostorderDepthFirstManner listener fuel h l
  = Ok (b, w) ->
  HandsBack listener h l b w.
Proof.
  unfold traverseAllPtNodesInPostorderDepthFirstManner.
  assert (Hstart : GoingOn listener h l (mkWalk h l [])).
  { split; [reflexivity|]. split; [reflexivity|]. split; [constructor|].
    intros H; exact H. }
  pose proof (notify_GoingOn h l
                (EvDescend (getPosOfLastPtNodeArrayHead h))
                (mkWalk h l []) Hstart I) as (_ & Hstart0 & Hback).
  simpl wHelper.
  destruct (notify listener _ (mkWalk h l [])) as [ok w0].
  simpl in Hstart0, Hback.
  destruct ok; simpl negb; cbv iota;
    [|intros Heq; inversion Heq; subst b w; exact Hback].
  specialize (Hstart0 eq_refl). clear Hback.
  pose (Post := fun o : Outcome (Walk L * bool + bool * Walk L) =>
                  match o with
                  | Ok (inl s) => GoingOn listener h l (fst s)
                  | Ok (inr r) => HandsBack listener h l (fst r) (snd r)
                  | _ => True
                  end).
  assert (Hpost : Post (whileLoop
                          (fun s => negb (isEnd (wHelper (fst s))))
                          (postorderTurn listener fuel) fuel (w0, false))).
  { apply (whileLoop_post _ _ (fun s => GoingOn listener h l (fst s)) Post);
      [| |exact I|exact Hstart0].
    - intros [w1 avc] Hgo _. simpl in Hgo. unfold postorderTurn.
      destruct (isValid (getPtNodeParams (wHelper w1))) eqn:Hv; simpl negb;
        cbv iota; [|exact Hgo].
      destruct avc; simpl negb; cbv iota.
      + notify_step h l (EvVisitingPtNode (getPtNodeParams (wHelper w1)))
          w1 Hgo Hv.
        destruct (readNextSiblingNode fuel (wHelper w2) _) as [h1|] eqn:Hsib;
          simpl; [|exact I].
        pose proof (GoingOn_setHelper h l w2 h1 Hon
                      (readNextSiblingNode_sticky _ _ _ _ Hsib)) as Hgo1.
        destruct (isEnd h1); [|exact Hgo1].
        notify_step h l EvReadingPtNodeArrayTail (setHelper w2 h1) Hgo1 I.
        destruct (_ <=? 0)%nat; [exact Hon0|].
        notify_step h l EvAscend w3 Hon0 I.
        simpl. apply GoingOn_setHelper; [exact Hon1|].
        now rewrite popReadingStateFromStack_mIsError.
      + destruct (hasChildren _); [|exact Hgo].
        notify_step h l
          (EvDescend (getChildrenPos (getPtNodeParams (wHelper w1)))) w1
          Hgo I.
        destruct (readChildNode fuel _ _) as [h1|] eqn:Hchild; simpl;
          [|exact I].
        apply GoingOn_setHelper; [exact Hon|].
        intros He. apply (readChildNode_sticky _ _ _ _ Hchild).
        now apply pushReadingStateToStack_sticky.
    - intros s Hgo _. exact Hgo. }
  destruct (whileLoop _ _ fuel _) as [[[w1 avc]|[b1 w1]]|f|]; simpl;
    try discriminate.
  - intros Heq. simpl in Hpost.
    pose proof (ascendToRoot_HandsBack h l w1 Hpost) as Hback.
    rewrite (surjective_pairing (ascendToRoot listener w1)) in Heq.
    inversion Heq; subst b w. exact Hback.
  - intros Heq. inversion Heq; subst b w. exact Hpost.
Qed.

Lemma preorder_HandsBack (fuel : nat) (h : Helper) (l : L) (b : bool)
    (w : Walk L) :
  traverseAllPtNodesInPtNodeArrayLevelPreorderDepthFirstManner listener fuel
    h l = Ok (b, w) ->
  HandsBack listener h l b w.
Proof.
  unfold traverseAllPtNodesInPtNodeArrayLevelPreorderDepthFirstManner,
    preorderEnter.
  assert (Hstart : GoingOn listener h l (mkWalk h l [])).
  { split; [reflexivity|]. split; [reflexivity|]. split; [constructor|].
    intros H; exact H. }
  pose proof (notify_GoingOn h l
                (EvDescend (getPosOfLastPtNodeArrayHead h))
                (mkWalk h l []) Hstart I) as (_ & Hstart0 & Hback).
  simpl wHelper.
  destruct (notify listener _ (mkWalk h l [])) as [ok w0].
  simpl in Hstart0, Hback.
  destruct ok; simpl negb; cbv iota;
    [|intros Heq; inversion Heq; subst b w; exact Hback].
  specialize (Hstart0 eq_refl). clear Hback.
  assert (Hentered :
            match (if isEnd (wHelper w0)
                   then let '(ok, w) :=
                          notify listener EvReadingPtNodeArrayTail w0 in
                        if negb ok then inr (false, w) else inl w
                   else inl w0) with
            | inl w1 => GoingOn listener h l w1
            | inr r => HandsBack listener h l (fst r) (snd r)
            end).
  { destruct (isEnd (wHelper w0)); [|exact Hstart0].
    destruct (notify_GoingOn h l EvReadingPtNodeArrayTail w0 Hstart0 I)
      as (_ & Hon1 & Hback1).
    destruct (notify listener EvReadingPtNodeArrayTail w0) as [ok1 w1].
    simpl in Hon1, Hback1.
    destruct ok1; simpl; [now apply Hon1|exact Hback1]. }
  destruct (if isEnd (wHelper w0) then _ else _) as [w1|[b1 w1]];
    [|intros Heq; inversion Heq; subst b w; exact Hentered].
  pose (Post := fun o : Outcome (Walk L * bool * bool + bool * Walk L) =>
                  match o with
                  | Ok (inl s) => GoingOn listener h l (fst (fst s))
                  | Ok (inr r) => HandsBack listener h l (fst r) (snd r)
                  | _ => True
                  end).
  assert (Hpost : Post (whileLoop
                          (fun s => negb (isEnd (wHelper (fst (fst s)))))
                          (preorderTurn listener fuel) fuel
                          (setHelper w1
                             (pushReadingStateToStack (wHelper w1)),
                           false, false))).
  { apply (whileLoop_post _ _
             (fun s => GoingOn listener h l (fst (fst s))) Post);
      [| |exact I|].
    - intros [[w2 av] cv] Hgo _. simpl in Hgo. unfold preorderTurn.
      destruct (isValid (getPtNodeParams (wHelper w2))) eqn:Hv; simpl negb;
        cbv iota; [|exact Hgo].
      destruct av; [destruct cv|].
      + destruct (readNextSiblingNode fuel (wHelper w2) _) as [h1|] eqn:Hsib;
          simpl; [|exact I].
        pose proof (GoingOn_setHelper h l w2 h1 Hgo
                      (readNextSiblingNode_sticky _ _ _ _ Hsib)) as Hgo1.
        destruct (isEnd h1); [|exact Hgo1].
        notify_step h l EvAscend (setHelper w2 h1) Hgo1 I.
        destruct (_ <=? 0)%nat; [exact Hon|].
        simpl. apply GoingOn_setHelper; [exact Hon|].
        now rewrite popReadingStateFromStack_mIsError.
      + destruct (hasChildren _); [|exact Hgo].
        notify_step h l
          (EvDescend (getChildrenPos (getPtNodeParams (wHelper w2)))) w2
          Hgo I.
        destruct (readChildNode fuel _ _) as [h1|] eqn:Hchild; simpl;
          [|exact I].
        apply GoingOn_setHelper; [exact Hon|].
        intros He. apply pushReadingStateToStack_sticky.
        apply (readChildNode_sticky _ _ _ _ Hchild).
        now apply pushReadingStateToStack_sticky.
      + notify_step h l (EvVisitingPtNode (getPtNodeParams (wHelper w2)))
          w2 Hgo Hv.
        destruct (readNextSiblingNode fuel (wHelper w3) _) as [h1|] eqn:Hsib;
          simpl; [|exact I].
        pose proof (GoingOn_setHelper h l w3 h1 Hon
                      (readNextSiblingNode_sticky _ _ _ _ Hsib)) as Hgo1.
        destruct (isEnd h1); [|exact Hgo1].
        notify_step h l EvReadingPtNodeArrayTail (setHelper w3 h1) Hgo1 I.
        simpl. apply GoingOn_setHelper; [exact Hon0|].
        now rewrite popReadingStateFromStack_mIsError.
    - intros s Hgo _. exact Hgo.
    - simpl. apply GoingOn_setHelper; [exact Hentered|].
      apply pushReadingStateToStack_sticky. }
  destruct (whileLoop _ _ fuel _) as [[[[w2 av] cv]|[b1 w2]]|f|]; simpl;
    try discriminate.
  - intros Heq. simpl in Hpost.
    assert (Hgo : GoingOn listener h l
                    (setHelper w2 (popReadingStateFromStack (wHelper w2)))).
    { apply GoingOn_setHelper; [exact Hpost|].
      now rewrite popReadingStateFromStack_mIsError. }
    pose proof (ascendToRoot_HandsBack h l _ Hgo) as Hback.
    rewrite (surjective_pairing (ascendToRoot listener _)) in Heq.
    inversion Heq; subst b w. exact Hback.
  - intros Heq. inversion Heq; subst b w. exact Hpost.
Qed.

(** The listener's answer is honoured, on every dictionary.  In the record
    of either traversal the listener object is what the callbacks made of
    it, every callback but the last one answered "go on" (so none is made
    after a "stop"), and when the traversal returns [true] the last one did
    too. *)
Theorem traversals_honour_the_listener (fuel : nat) (h : Helper) (l : L)
    (b : bool) (w : Walk L) :
  traverseAllPtNodesInPostorderDepthFirstManner listener fuel h l = Ok (b, w)
  \/ traverseAllPtNodesInPtNodeArrayLevelPreorderDepthFirstManner listener
       fuel h l = Ok (b, w) ->
  wListener w = listenerAfter listener (wEvents w) l
  /\ allAccepted listener (removelast (wEvents w)) l = true
  /\ (b = true -> allAccepted listener (wEvents w) l = true).
Proof.
  intros [Hrun|Hrun];
    [apply postorder_HandsBack in Hrun|apply preorder_HandsBack in Hrun];
    destruct Hrun as (Hl & Hlast & Hall & _); auto.
Qed.

(** Success means no error, on every dictionary.  Whenever either
    traversal returns, it returns [true] only with the error flag down at
    the end, and a traversal that returns after it was started on a helper
    whose flag is up already returns [false].  Nothing is said here about
    whether the traversal returns. *)
Theorem traversals_report_the_error_flag (fuel : nat) (h : Helper) (l : L)
    (b : bool) (w : Walk L) :
  traverseAllPtNodesInPostorderDepthFirstManner listener fuel h l = Ok (b, w)
  \/ traverseAllPtNodesInPtNodeArrayLevelPreorderDepthFirstManner listener
       fuel h l = Ok (b, w) ->
  (b = true -> mIsError (wHelper w) = false)
  /\ (mIsError h = true -> b = false).
Proof.
  intros [Hrun|Hrun];
    [apply postorder_HandsBack in Hrun|apply preorder_HandsBack in Hrun];
    destruct Hrun as (_ & _ & _ & Herr & Hsticky & _); auto.
Qed.

(** Only valid records are visited, on every dictionary: every node that
    either traversal hands to [onVisitingPtNode] is a valid record. *)
Theorem traversals_visit_valid_records (fuel : nat) (h : Helper) (l : L)
    (b : bool) (w : Walk L) :
  traverseAllPtNodesInPostorderDepthFirstManner listener fuel h l = Ok (b, w)
  \/ traverseAllPtNodesInPtNodeArrayLevelPreorderDepthFirstManner listener
       fuel h l = Ok (b, w) ->
  Forall (fun p => isValid p = true) (visitedPtNodes (wEvents w)).
Proof.
  intros Hrun.
  assert (Hvalid : Forall validVisit (wEvents w)).
  { destruct Hrun as [Hrun|Hrun];
      [apply postorder_HandsBack in Hrun|apply preorder_HandsBack in Hrun];
      destruct Hrun as (_ & _ & _ & _ & _ & Hvalid); exact Hvalid. }
  clear Hrun. unfold visitedPtNodes.
  induction Hvalid as [|ev E Hev _ IH]; [constructor|].
  destruct ev; simpl; try exact IH. constructor; assumption.
Qed.

End TraversalOutcomes.

(** On the example trie the counting listener stops the post-order
    traversal at its first visit, the third callback. *)
Lemma traversals_honour_the_listener_witness :
  let w := mkWalk (mkHelper false exampleAtB [exampleRoot]) 3%nat
             [EvDescend 0; EvDescend 8; EvVisitingPtNode nodeB] in
  wListener w = listenerAfter countingListener (wEvents w) 0%nat
  /\ allAccepted countingListener (removelast (wEvents w)) 0%nat = true
  /\ (false = true -> allAccepted countingListener (wEvents w) 0%nat = true).
Proof.
  intros w.
  apply (@traversals_honour_the_listener exampleDefines exampleDictionary
           nat countingListener 20 (@cursor exampleRoot) 0%nat false w).
  left. vm_compute. reflexivity.
Defined.

(** A helper whose error flag is up already: the post-order traversal of the
    example trie delivers every event and returns [false]. *)
Lemma traversals_report_the_error_flag_witness :
  let h := mkHelper true exampleRoot [] in
  let w := mkWalk (mkHelper true exampleAfterXYZ []) tt
             (postorderTrace 0 exampleForest) in
  (false = true -> mIsError (wHelper w) = false)
  /\ (mIsError h = true -> false = false).
Proof.
  intros h w.
  apply (@traversals_report_the_error_flag exampleDefines exampleDictionary
           unit silentListener 20 h tt false w).
  left. vm_compute. reflexivity.
Defined.

(** The array-level pre-order traversal of the example trie, stopped at its
    first visit. *)
Lemma traversals_visit_valid_records_witness :
  Forall (fun p => isValid p = true)
    (visitedPtNodes [EvDescend 0; EvVisitingPtNode nodeA]).
Proof.
  apply (@traversals_visit_valid_records exampleDefines exampleDictionary
           nat countingListener 20 (@cursor exampleRoot) 0%nat false
           (mkWalk (mkHelper false exampleRoot [exampleRoot]) 2%nat
              [EvDescend 0; EvVisitingPtNode nodeA])).
  right. vm_compute. reflexivity.
Defined.

(** ** The order of the callbacks on a well-formed trie *)

Section TraversalOrders.
Context {defs : Defines} {dict : Dictionary}.
Context {L : Type} (listener : TraversingEventListener L).

Lemma visitedPtNodes_postorder_order (forest : list PtNode) :
  visitedPtNodes (flat_map postorderEventsOfPtNode forest)
  = postorderNodes forest.
Proof.
  apply (PtNode_forest_ind
           (fun n => visitedPtNodes (postorderEventsOfPtNode n)
                     = postorderNodesOfPtNode n)
           (fun forest =>
              visitedPtNodes (flat_map postorderEventsOfPtNode forest)
              = postorderNodes forest)).
  - reflexivity.
  - intros n rest Hn Hrest. simpl. rewrite visitedPtNodes_app.
    unfold postorderNodes in *. simpl. now rewrite Hn, Hrest.
  - intros p kids Hkids. rewrite visitedPtNodes_postorder_node.
    simpl. unfold postorderNodes in Hkids. now rewrite Hkids.
Qed.

Lemma visitedPtNodes_preorder_order (forest : list PtNode) :
  visitedPtNodes (flat_map preorderEventsOfPtNode forest)
  = flat_map arrayLevelNodesBelow forest.
Proof.
  apply (PtNode_forest_ind
           (fun n => visitedPtNodes (preorderEventsOfPtNode n)
                     = arrayLevelNodesBelow n)
           (fun forest =>
              visitedPtNodes (flat_map preorderEventsOfPtNode forest)
              = flat_map arrayLevelNodesBelow forest)).
  - reflexivity.
  - intros n rest Hn Hrest. simpl. rewrite visitedPtNodes_app.
    now rewrite Hn, Hrest.
  - intros p kids Hkids. rewrite visitedPtNodes_preorder_node.
    simpl. now rewrite Hkids.
Qed.

Lemma visitedPtNodes_postorderTrace_order (head : Z) (forest : list PtNode) :
  visitedPtNodes (postorderTrace head forest) = postorderNodes forest.
Proof.
  destruct forest as [|n rest]; [reflexivity|].
  unfold postorderTrace, postorderEvents.
  change (visitedPtNodes (EvDescend head :: ?E)) with (visitedPtNodes E).
  rewrite visitedPtNodes_app.
  change (visitedPtNodes [EvReadingPtNodeArrayTail; EvAscend])
    with (@nil PtNodeParams).
  rewrite app_nil_r.
  apply (visitedPtNodes_postorder_order (n :: rest)).
Qed.

Lemma visitedPtNodes_preorderTrace_order (head : Z) (forest : list PtNode) :
  visitedPtNodes (preorderTrace head forest) = arrayLevelNodes forest.
Proof.
  destruct forest as [|n rest]; [reflexivity|].
  unfold preorderTrace, preorderEvents, arrayLevelNodes.
  change (visitedPtNodes (EvDescend head :: ?E)) with (visitedPtNodes E).
  rewrite !visitedPtNodes_app, visitedPtNodes_visits.
  change (visitedPtNodes [EvReadingPtNodeArrayTail])
    with (@nil PtNodeParams).
  change (visitedPtNodes [EvAscend]) with (@nil PtNodeParams).
  rewrite !app_nil_r. rewrite app_nil_l.
  now rewrite (visitedPtNodes_preorder_order (n :: rest)).
Qed.

(** The callbacks of the post-order traversal of a trie that
    [WellFormedTrie] describes (so no node has an empty child array chain),
    with a listener that never stops: the traversal returns [true]; it
    delivers
    [onDescend] of the array head, then for every node of a chain what lies
    below the node ([onDescend] of its children, the child chain in the
    same way, [onReadingPtNodeArrayTail], [onAscend]) followed by the visit
    of the node, and at the end of the root chain the tail callback and
    [onAscend] (for a trie without nodes, [onDescend] and [onAscend] alone);
    so every node is visited after all the nodes below it. *)
Theorem postorder_callbacks (navFuel : nat) (rootPos : Z)
    (rs : ReadingState) (forest : list PtNode) (l : L) :
  neverStops listener ->
  WellFormedTrie navFuel rootPos rs forest ->
  exists fuel0 : nat,
    forall fuel, (fuel0 <= fuel)%nat ->
      exists w : Walk L,
        traverseAllPtNodesInPostorderDepthFirstManner listener fuel
          (cursor rs) l = Ok (true, w)
        /\ wEvents w = postorderTrace (mPosOfThisPtNodeArrayHead rs) forest
        /\ wListener w = listenerAfter listener (wEvents w) l
        /\ visitedPtNodes (wEvents w) = postorderNodes forest.
Proof.
  intros Hgo (Hinit & Hchain & _).
  assert (Hcount : 0 <= mTotalCodePointCountSinceInitialization rs).
  { rewrite (initWithPtNodeArrayPos_codePointCount _ _ _ Hinit). lia. }
  destruct (postorder_on_trie listener Hgo navFuel _ rs forest l Hchain Hcount)
    as (f1 & Hpost).
  exists f1. intros fuel Hfuel.
  destruct (Hpost fuel Hfuel) as (h1 & Hrun).
  eexists. split; [exact Hrun|].
  unfold walkOn. cbn [wEvents wListener app].
  split; [reflexivity|]. split; [reflexivity|].
  apply visitedPtNodes_postorderTrace_order.
Qed.

(** The callbacks of the array-level pre-order traversal of a trie that
    [WellFormedTrie] describes (so no node has an empty child array chain),
    with a listener that never stops: the traversal returns [true]; it
    delivers [onDescend] of the array head, the visits of all nodes of
    the root chain, the tail callback, then for every node of the chain that
    has children [onDescend] of the children, the child chain in the same
    way and [onAscend], and at the end two more [onAscend] (for a trie
    without nodes, [onDescend], the tail callback and one [onAscend]); so
    the nodes of an array chain are all visited before any node below
    them. *)
Theorem preorder_callbacks (navFuel : nat) (rootPos : Z)
    (rs : ReadingState) (forest : list PtNode) (l : L) :
  neverStops listener ->
  (1 <= MAX_WORD_LENGTH)%nat ->
  WellFormedTrie navFuel rootPos rs forest ->
  exists fuel0 : nat,
    forall fuel, (fuel0 <= fuel)%nat ->
      exists w : Walk L,
        traverseAllPtNodesInPtNodeArrayLevelPreorderDepthFirstManner
          listener fuel (cursor rs) l = Ok (true, w)
        /\ wEvents w = preorderTrace (mPosOfThisPtNodeArrayHead rs) forest
        /\ wListener w = listenerAfter listener (wEvents w) l
        /\ visitedPtNodes (wEvents w) = arrayLevelNodes forest.
Proof.
  intros Hgo Hmax (Hinit & Hchain & _).
  assert (Hcount : 0 <= mTotalCodePointCountSinceInitialization rs).
  { rewrite (initWithPtNodeArrayPos_codePointCount _ _ _ Hinit). lia. }
  destruct (preorder_on_trie listener Hgo navFuel _ rs forest l Hmax Hchain
              Hcount) as (f1 & Hpre).
  exists f1. intros fuel Hfuel.
  destruct (Hpre fuel Hfuel) as (h1 & Hrun).
  eexists. split; [exact Hrun|].
  unfold walkOn. cbn [wEvents wListener app].
  split; [reflexivity|]. split; [reflexivity|].
  apply visitedPtNodes_preorderTrace_order.
Qed.

Lemma descents_app (E1 E2 : list Event) :
  descents (E1 ++ E2) = (descents E1 + descents E2)%nat.
Proof. unfold descents. now rewrite List.filter_app, length_app. Qed.

Lemma ascents_app (E1 E2 : list Event) :
  ascents (E1 ++ E2) = (ascents E1 + ascents E2)%nat.
Proof. unfold ascents. now rewrite List.filter_app, length_app. Qed.

Lemma visits_neither (forest : list PtNode) :
  descents (map (fun k => EvVisitingPtNode (paramsOf k)) forest) = 0%nat
  /\ ascents (map (fun k => EvVisitingPtNode (paramsOf k)) forest) = 0%nat.
Proof.
  induction forest as [|n forest [IHd IHa]]; [split; reflexivity|].
  split; [exact IHd|exact IHa].
Qed.

Lemma postorderEvents_balanced (forest : list PtNode) :
  ascents (flat_map postorderEventsOfPtNode forest)
  = descents (flat_map postorderEventsOfPtNode forest).
Proof.
  apply (PtNode_forest_ind
           (fun n => ascents (postorderEventsOfPtNode n)
                     = descents (postorderEventsOfPtNode n))
           (fun forest =>
              ascents (flat_map postorderEventsOfPtNode forest)
              = descents (flat_map postorderEventsOfPtNode forest))).
  - reflexivity.
  - intros n rest Hn Hrest. simpl.
    now rewrite ascents_app, descents_app, Hn, Hrest.
  - intros p kids Hkids. destruct kids as [|k kids]; [reflexivity|].
    change (postorderEventsOfPtNode (Node p (k :: kids)))
      with (([EvDescend (getChildrenPos p)]
             ++ flat_map postorderEventsOfPtNode (k :: kids)
             ++ [EvReadingPtNodeArrayTail; EvAscend])
            ++ [EvVisitingPtNode p]).
    rewrite !ascents_app, !descents_app, Hkids.
    change (ascents [EvDescend (getChildrenPos p)]) with 0%nat.
    change (descents [EvDescend (getChildrenPos p)]) with 1%nat.
    change (ascents [EvReadingPtNodeArrayTail; EvAscend]) with 1%nat.
    change (descents [EvReadingPtNodeArrayTail; EvAscend]) with 0%nat.
    change (ascents [EvVisitingPtNode p]) with 0%nat.
    change (descents [EvVisitingPtNode p]) with 0%nat.
    lia.
Qed.

Lemma preorderEvents_balanced (forest : list PtNode) :
  ascents (flat_map preorderEventsOfPtNode forest)
  = descents (flat_map preorderEventsOfPtNode forest).
Proof.
  apply (PtNode_forest_ind
           (fun n => ascents (preorderEventsOfPtNode n)
                     = descents (preorderEventsOfPtNode n))
           (fun forest =>
              ascents (flat_map preorderEventsOfPtNode forest)
              = descents (flat_map preorderEventsOfPtNode forest))).
  - reflexivity.
  - intros n rest Hn Hrest. simpl.
    now rewrite ascents_app, descents_app, Hn, Hrest.
  - intros p kids Hkids. destruct kids as [|k kids]; [reflexivity|].
    change (preorderEventsOfPtNode (Node p (k :: kids)))
      with ([EvDescend (getChildrenPos p)]
            ++ map (fun k => EvVisitingPtNode (paramsOf k)) (k :: kids)
            ++ [EvReadingPtNodeArrayTail]
            ++ flat_map preorderEventsOfPtNode (k :: kids)
            ++ [EvAscend]).
    destruct (visits_neither (k :: kids)) as [Hd Ha].
    rewrite !ascents_app, !descents_app, Hkids, Hd, Ha.
    change (ascents [EvDescend (getChildrenPos p)]) with 0%nat.
    change (descents [EvDescend (getChildrenPos p)]) with 1%nat.
    change (ascents [EvReadingPtNodeArrayTail]) with 0%nat.
    change (descents [EvReadingPtNodeArrayTail]) with 0%nat.
    change (ascents [EvAscend]) with 1%nat.
    change (descents [EvAscend]) with 0%nat.
    lia.
Qed.

(** How [onDescend] and [onAscend] pair up on a trie that [WellFormedTrie]
    describes (so no node has an empty child array chain), with a listener
    that never stops.  The post-order traversal calls [onAscend]
    as often as [onDescend].  The array-level pre-order traversal of a trie
    that has nodes calls [onAscend] once more than [onDescend]: at the end
    of the root chain inside the loop (line 122) and again after the loop
    (line 166); on a trie without nodes it calls each once. *)
Theorem descents_and_ascents (navFuel : nat) (rootPos : Z)
    (rs : ReadingState) (forest : list PtNode) (l : L) :
  neverStops listener ->
  (1 <= MAX_WORD_LENGTH)%nat ->
  WellFormedTrie navFuel rootPos rs forest ->
  exists fuel0 : nat,
    forall fuel, (fuel0 <= fuel)%nat ->
      exists w1 w2 : Walk L,
        traverseAllPtNodesInPostorderDepthFirstManner listener fuel
          (cursor rs) l = Ok (true, w1)
        /\ traverseAllPtNodesInPtNodeArrayLevelPreorderDepthFirstManner
             listener fuel (cursor rs) l = Ok (true, w2)
        /\ ascents (wEvents w1) = descents (wEvents w1)
        /\ ascents (wEvents w2)
           = (descents (wEvents w2)
              + match forest with [] => 0 | _ :: _ => 1 end)%nat.
Proof.
  intros Hgo Hmax (Hinit & Hchain & _).
  assert (Hcount : 0 <= mTotalCodePointCountSinceInitialization rs).
  { rewrite (initWithPtNodeArrayPos_codePointCount _ _ _ Hinit). lia. }
  destruct (postorder_on_trie listener Hgo navFuel _ rs forest l Hchain Hcount)
    as (f1 & Hpost).
  destruct (preorder_on_trie listener Hgo navFuel _ rs forest l Hmax Hchain
              Hcount) as (f2 & Hpre).
  exists (f1 + f2)%nat. intros fuel Hfuel.
  destruct (Hpost fuel ltac:(lia)) as (h1 & Hrun1).
  destruct (Hpre fuel ltac:(lia)) as (h2 & Hrun2).
  eexists _, _. split; [exact Hrun1|]. split; [exact Hrun2|].
  unfold walkOn. cbn [wEvents app].
  set (hd := mPosOfThisPtNodeArrayHead rs).
  destruct forest as [|n rest]; [split; reflexivity|].
  unfold postorderTrace, preorderTrace, postorderEvents, preorderEvents.
  change (EvDescend hd :: ?E) with ([EvDescend hd] ++ E).
  destruct (visits_neither (n :: rest)) as [Hd Ha].
  rewrite !ascents_app, !descents_app, Hd, Ha.
  rewrite (postorderEvents_balanced (n :: rest)).
  rewrite (preorderEvents_balanced (n :: rest)).
  change (ascents [EvDescend hd]) with 0%nat.
  change (descents [EvDescend hd]) with 1%nat.
  change (ascents [EvReadingPtNodeArrayTail; EvAscend]) with 1%nat.
  change (descents [EvReadingPtNodeArrayTail; EvAscend]) with 0%nat.
  change (ascents [EvReadingPtNodeArrayTail]) with 0%nat.
  change (descents [EvReadingPtNodeArrayTail]) with 0%nat.
  change (ascents [EvAscend]) with 1%nat.
  change (descents [EvAscend]) with 0%nat.
  split; lia.
Qed.

End TraversalOrders.

(** ** Word lookup *)

Section LookupResults.
Context {defs : Defines} {dict : Dictionary}.

(** What one turn of the lookup loop can do. *)
Lemma lookupTurn_inv (fuel : nat) (search : list Z) (h : Helper) :
  let p := getPtNodeParams h in
  let len := Z.of_nat (length search) in
  0 <= getPrevTotalCodePointCount h ->
  match lookupTurn fuel search len h with
  | Ok (Next h') =>
    readNextSiblingNode fuel h p = Some h'
    \/ (hasChildren p = true
        /\ readChildNode fuel h p = Some h'
        /\ getCodePoints p = facingCodePoints search h p
        /\ getTotalCodePointCount h p < len)
  | Ok (Return (pos, h1)) =>
    h1 = h
    /\ (pos = NOT_A_DICT_POS
        \/ (pos = getHeadPos p
            /\ isTerminal p = true
            /\ getTotalCodePointCount h p = len
            /\ getCodePoints p = facingCodePoints search h p))
  | Ok (Break _) => False
  | _ => True
  end.
Proof.
  intros p len Hm.
  destruct (lookupTurn_cases fuel search h Hm)
    as (Hlong & Hfirst & Hlater & Hfound & Hdown).
  fold p len in Hlong, Hfirst, Hlater, Hfound, Hdown.
  destruct (Z_lt_le_dec len (getTotalCodePointCount h p)) as [Hl|Hl].
  { rewrite (Hlong Hl).
    destruct (readNextSiblingNode fuel h p); simpl; [now left|exact I]. }
  destruct (getCodePoints p) as [|c cs] eqn:Hcps.
  { unfold lookupTurn, skipsPtNode. fold p.
    replace (len <? getTotalCodePointCount h p) with false
      by (symmetry; apply Z.ltb_ge; exact Hl).
    destruct (readAt search _); simpl; [|exact I].
    unfold isMatchedCodePoint. fold p. rewrite Hcps. exact I. }
  assert (Hne : c :: cs <> []) by discriminate.
  destruct (decide (head (c :: cs) = head (facingCodePoints search h p)))
    as [Hhead|Hhead].
  2:{ rewrite (Hfirst Hl Hne Hhead).
      destruct (readNextSiblingNode fuel h p); simpl; [now left|exact I]. }
  destruct (decide (c :: cs = facingCodePoints search h p)) as [Hsame|Hdiff].
  2:{ rewrite (Hlater Hl Hne Hhead Hdiff). split; [reflexivity|now left]. }
  destruct (Z.eq_dec (getTotalCodePointCount h p) len) as [Heq|Hneq].
  - rewrite (Hfound Hl Hne Hsame Heq). split; [reflexivity|].
    destruct (isTerminal p) eqn:Hterm; [right|now left].
    repeat split; assumption.
  - rewrite (Hdown ltac:(lia) Hne Hsame).
    destruct (hasChildren p) eqn:Hkids;
      [|split; [reflexivity|now left]].
    destruct (readChildNode fuel h p) eqn:Hchild; simpl; [|exact I].
    right. repeat split; [assumption|lia].
Qed.

Lemma lowerSearchCodePoints_length (inWord : list Z) (len : Z)
    (force : bool) :
  0 <= len <= Z.of_nat (length inWord) ->
  lowerSearchCodePoints inWord len force
  = Ok (map (fun c => if force then toLowerCase c else c)
          (take (Z.to_nat len) inWord))
  /\ Z.of_nat (length (map (fun c => if force then toLowerCase c else c)
                         (take (Z.to_nat len) inWord))) = len.
Proof.
  intros Hlen. unfold lowerSearchCodePoints.
  replace (Z.of_nat (length inWord) <? len) with false
    by (symmetry; apply Z.ltb_ge; lia).
  split; [reflexivity|]. rewrite length_map, length_take. lia.
Qed.

(** What a lookup can return, whatever the dictionary holds.  From a
    helper whose matched count is not negative, the lookup of the first
    [len] code points of [inWord] returns either the sentinel or the head
    position of the record under the cursor it leaves behind; that record
    is terminal, the code points up to and including it are [len] in
    number, and its own code points are the last ones of the (lower-cased)
    search sequence. *)
Theorem lookup_returns_a_matching_terminal (fuel : nat) (h : Helper)
    (inWord : list Z) (len : Z) (forceLowerCaseSearch : bool) (pos : Z)
    (h' : Helper) :
  let search :=
    map (fun c => if forceLowerCaseSearch then toLowerCase c else c)
      (take (Z.to_nat len) inWord) in
  0 <= getPrevTotalCodePointCount h ->
  0 <= len <= Z.of_nat (length inWord) ->
  getTerminalPtNodePositionOfWord fuel h inWord len forceLowerCaseSearch
  = Ok (pos, h') ->
  pos = NOT_A_DICT_POS \/ MatchingTerminal search pos h'.
Proof.
  intros search Hm Hlen.
  destruct (lowerSearchCodePoints_length inWord len forceLowerCaseSearch Hlen)
    as [Hlower Hsize].
  fold search in Hlower, Hsize.
  unfold getTerminalPtNodePositionOfWord. rewrite Hlower. simpl.
  pose (Post := fun o : Outcome (Helper + Z * Helper) =>
                  match o with
                  | Ok (inr r) =>
                    fst r = NOT_A_DICT_POS
                    \/ MatchingTerminal search (fst r) (snd r)
                  | _ => True
                  end).
  assert (Hpost : Post (whileLoop (fun h => negb (isEnd h))
                          (lookupTurn fuel search len) fuel h)).
  { apply (whileLoop_post _ _
             (fun h1 => 0 <= getPrevTotalCodePointCount h1) Post);
      [| |exact I|exact Hm].
    - intros h1 Hm1 Hcond. apply negb_true_iff in Hcond.
      pose proof (lookupTurn_inv fuel search h1 Hm1) as Hinv.
      rewrite Hsize in Hinv.
      destruct (lookupTurn fuel search len h1) as [[h2|h2|[pos2 h2]]|f|];
        try exact I.
      + unfold getPrevTotalCodePointCount in *.
        destruct Hinv as [Hsib|(Hkids & Hchild & _)].
        * now rewrite (readNextSiblingNode_codePointCount _ _ _ _ Hsib).
        * rewrite (readChildNode_codePointCount _ _ _ _ Hkids Hchild). lia.
      + destruct Hinv as [-> [Hnone|(Hpos & Hterm & Htotal & Hsame)]];
          [now left|right].
        simpl. unfold MatchingTerminal. rewrite Hsize.
        repeat split; assumption.
    - intros h1 _ _. exact I. }
  destruct (whileLoop _ _ fuel h) as [[h1|[pos1 h1]]|f|]; simpl;
    try discriminate.
  - intros Heq. inversion Heq. now left.
  - intros Heq. inversion Heq; subst pos1 h1. exact Hpost.
Qed.

End LookupResults.

Section LookupSoundness.
Context {defs : Defines} {dict : Dictionary}.
Variable navFuel : nat.

Lemma PathTo_PathIn (forest : list PtNode) (path : list PtNodeParams)
    (kids : list PtNode) :
  PathTo forest path kids -> PathIn forest path.
Proof.
  induction 1 as [p kids forest Hin|p kids forest path kids' Hin _ IH].
  - now apply (PathIn_here p kids).
  - now apply (PathIn_below p kids).
Qed.

Lemma PathTo_snoc (forest : list PtNode) (path : list PtNodeParams)
    (kids : list PtNode) (q : PtNodeParams) (kq : list PtNode) :
  PathTo forest path kids -> In (Node q kq) kids ->
  PathTo forest (path ++ [q]) kq.
Proof.
  induction 1 as [p kids forest Hin|p kids forest path kids' Hin _ IH];
    intros Hq; simpl.
  - apply (PathTo_below p kids); [exact Hin|]. now apply PathTo_here.
  - apply (PathTo_below p kids); [exact Hin|]. now apply IH.
Qed.

Lemma LevelOf_snoc (forest : list PtNode) (prefix : list PtNodeParams)
    (level : list PtNode) (q : PtNodeParams) (kq : list PtNode) :
  LevelOf forest prefix level -> In (Node q kq) level ->
  PathTo forest (prefix ++ [q]) kq.
Proof.
  intros [[-> ->]|Hpath] Hq.
  - now apply PathTo_here.
  - now apply (PathTo_snoc _ _ level).
Qed.

Lemma wordOf_snoc (prefix : list PtNodeParams) (p : PtNodeParams) :
  wordOf (prefix ++ [p]) = wordOf prefix ++ getCodePoints p.
Proof.
  unfold wordOf. rewrite flat_map_app. simpl. now rewrite app_nil_r.
Qed.

(** A move of the helper that succeeds with some fuel is the move the trie
    describes. *)
Lemma readNextSiblingNode_as_read (fuel : nat) (e : bool)
    (rs rs' : ReadingState) (st : list ReadingState) (p : PtNodeParams)
    (h' : Helper) :
  readNextSiblingNode navFuel (cursor rs) p = Some (cursor rs') ->
  readNextSiblingNode fuel (mkHelper e rs st) p = Some h' ->
  h' = mkHelper e rs' st.
Proof.
  intros Hread Hrun.
  apply (readNextSiblingNode_more_fuel _ (Nat.max fuel navFuel)) in Hrun;
    [|lia].
  destruct (readNextSiblingNode_on_trie navFuel (Nat.max fuel navFuel) e rs
              rs' st p ltac:(lia) Hread) as [Hmove _].
  congruence.
Qed.

Lemma readChildNode_as_read (fuel : nat) (e : bool)
    (rs rs' : ReadingState) (st : list ReadingState) (p : PtNodeParams)
    (h' : Helper) :
  hasChildren p = true ->
  readChildNode navFuel (cursor rs) p = Some (cursor rs') ->
  readChildNode fuel (mkHelper e rs st) p = Some h' ->
  h' = mkHelper e rs' st.
Proof.
  intros Hkids Hread Hrun.
  apply (readChildNode_more_fuel _ (Nat.max fuel navFuel)) in Hrun; [|lia].
  destruct (readChildNode_on_trie navFuel (Nat.max fuel navFuel) e rs
              rs' st p ltac:(lia) Hkids Hread) as [Hmove _].
  congruence.
Qed.

(** One turn of the lookup on a cursor that stands in the trie. *)
Lemma lookupTurn_LookupAt (fuel : nat) (forest : list PtNode)
    (search : list Z) (h : Helper) :
  LookupAt navFuel forest search (mReadingState h) ->
  isEnd h = false ->
  match lookupTurn fuel search (Z.of_nat (length search)) h with
  | Ok (Next h') => LookupAt navFuel forest search (mReadingState h')
  | Ok (Return (pos, _)) =>
    pos <> NOT_A_DICT_POS ->
    exists terminal,
      StoresWord forest search terminal /\ pos = getHeadPos terminal
  | Ok (Break _) => False
  | _ => True
  end.
Proof.
  destruct h as [e rs st]. simpl mReadingState.
  intros (parentPos & chain & prefix & level & Hchain & Hlevel & Hincl
          & Hm & Hword) Hend.
  assert (Hpos : mPos rs <> NOT_A_DICT_POS).
  { intros Hp. unfold isEnd in Hend. simpl in Hend.
    rewrite Hp, Z.eqb_refl in Hend. discriminate. }
  inversion Hchain as [|pp rs0 p kids rest rs' Hok Hkids Hsib Hrest];
    [contradiction|]; subst pp rs0 chain.
  destruct (PtNodeOk_on_node _ _ _ e st Hok) as (_ & Hparams & _).
  pose proof (lookupTurn_inv fuel search (mkHelper e rs st)) as Hinv.
  rewrite Hparams in Hinv. cbv zeta in Hinv.
  specialize (Hinv ltac:(unfold getPrevTotalCodePointCount; simpl; lia)).
  assert (Hin : In (Node p kids) level) by (apply Hincl; now left).
  assert (Hextend :
            getCodePoints p = facingCodePoints search (mkHelper e rs st) p ->
            getTotalCodePointCount (mkHelper e rs st) p
            <= Z.of_nat (length search) ->
            wordOf (prefix ++ [p])
            = take (Z.to_nat (getTotalCodePointCount (mkHelper e rs st) p))
                search).
  { intros Hsame Hfit. rewrite wordOf_snoc, Hword, Hsame.
    unfold facingCodePoints, getTotalCodePointCount,
      getPrevTotalCodePointCount. simpl.
    rewrite take_take_drop. f_equal. lia. }
  destruct (lookupTurn fuel search _ _) as [[h2|h2|[pos2 h2]]|f|];
    try exact I; [|contradiction|].
  - destruct Hinv as [Hmove|(Hhas & Hmove & Hsame & Hshort)].
    + apply (readNextSiblingNode_as_read _ _ _ _ _ _ _ Hsib) in Hmove.
      subst h2. simpl.
      pose proof (readNextSiblingNode_codePointCount _ _ _ _ Hsib) as Hcount.
      simpl in Hcount.
      exists parentPos, rest, prefix, level.
      split; [exact Hrest|]. split; [exact Hlevel|].
      split; [intros n Hn; apply Hincl; now right|].
      rewrite Hcount. split; assumption.
    + inversion Hkids as [rs1 p1 Hnone|rs1 p1 k kids1 rs'' _ Hchild Hbelow];
        subst rs1 p1; [congruence|]. subst kids.
      apply (readChildNode_as_read _ _ _ _ _ _ _ Hhas Hchild) in Hmove.
      subst h2. simpl.
      pose proof (readChildNode_codePointCount _ _ _ _ Hhas Hchild) as Hcount.
      simpl in Hcount.
      exists (getHeadPos p), (k :: kids1), (prefix ++ [p]), (k :: kids1).
      split; [exact Hbelow|].
      split; [right; now apply (LevelOf_snoc _ _ level)|].
      split; [auto|].
      unfold getTotalCodePointCount in Hshort, Hextend. simpl in Hshort, Hextend.
      rewrite Hcount. split; [lia|].
      apply Hextend; [exact Hsame|lia].
  - destruct Hinv as [-> [Hnone|(Hfound & Hterm & Htotal & Hsame)]];
      intros Hnot; [contradiction|].
    exists p. split; [|exact Hfound].
    exists (prefix ++ [p]).
    split; [apply (PathTo_PathIn _ _ kids);
            now apply (LevelOf_snoc _ _ level)|].
    split; [apply last_snoc|]. split; [exact Hterm|].
    rewrite (Hextend Hsame ltac:(lia)), Htotal, Nat2Z.id.
    now apply take_ge.
Qed.

(** The start of a lookup stands in the trie. *)
Lemma LookupAt_root (rootPos : Z) (rs : ReadingState) (forest : list PtNode)
    (search : list Z) :
  WellFormedTrie navFuel rootPos rs forest ->
  LookupAt navFuel forest search rs.
Proof.
  intros (Hinit & Hchain & _).
  pose proof (initWithPtNodeArrayPos_codePointCount _ _ _ Hinit) as Hzero.
  exists NOT_A_DICT_POS, forest, [], forest.
  split; [exact Hchain|]. split; [left; split; reflexivity|].
  split; [auto|]. rewrite Hzero. split; [lia|reflexivity].
Qed.

Lemma lookup_loop_sound (fuel k : nat) (forest : list PtNode)
    (search : list Z) (h : Helper) :
  LookupAt navFuel forest search (mReadingState h) ->
  match whileLoop (fun h => negb (isEnd h))
          (lookupTurn fuel search (Z.of_nat (length search))) k h with
  | Ok (inr (pos, _)) =>
    pos <> NOT_A_DICT_POS ->
    exists terminal,
      StoresWord forest search terminal /\ pos = getHeadPos terminal
  | _ => True
  end.
Proof.
  intros Hat.
  apply (whileLoop_post _ _
           (fun h1 => LookupAt navFuel forest search (mReadingState h1))
           (fun o => match o with
                     | Ok (inr (pos, _)) =>
                       pos <> NOT_A_DICT_POS ->
                       exists terminal,
                         StoresWord forest search terminal
                         /\ pos = getHeadPos terminal
                     | _ => True
                     end)); [| |exact I|exact Hat].
  - intros h1 Hat1 Hcond. apply negb_true_iff in Hcond.
    pose proof (lookupTurn_LookupAt fuel forest search h1 Hat1 Hcond) as Hturn.
    destruct (lookupTurn fuel search _ h1) as [[h2|h2|[pos2 h2]]|f|];
      try exact I; assumption.
  - intros h1 _ _. exact I.
Qed.

(** The lookup is sound on a well-formed trie: a position other than the
    sentinel that it returns for the first [len] code points of [inWord] is
    the head position of a terminal node at the end of a path of the trie
    that spells the (lower-cased) search sequence. *)
Theorem lookup_finds_only_stored_words (rootPos : Z) (rs : ReadingState)
    (forest : list PtNode) (fuel : nat) (inWord : list Z) (len : Z)
    (forceLowerCaseSearch : bool) (pos : Z) (h' : Helper) :
  let search :=
    map (fun c => if forceLowerCaseSearch then toLowerCase c else c)
      (take (Z.to_nat len) inWord) in
  WellFormedTrie navFuel rootPos rs forest ->
  0 <= len <= Z.of_nat (length inWord) ->
  getTerminalPtNodePositionOfWord fuel (cursor rs) inWord len
    forceLowerCaseSearch = Ok (pos, h') ->
  pos <> NOT_A_DICT_POS ->
  exists terminal,
    StoresWord forest search terminal /\ pos = getHeadPos terminal.
Proof.
  intros search Hwf Hlen.
  destruct (lowerSearchCodePoints_length inWord len forceLowerCaseSearch Hlen)
    as [Hlower Hsize].
  fold search in Hlower, Hsize.
  unfold getTerminalPtNodePositionOfWord. rewrite Hlower. simpl.
  pose proof (lookup_loop_sound fuel fuel forest search (cursor rs)
                (LookupAt_root _ _ _ search Hwf)) as Hsound.
  rewrite Hsize in Hsound.
  destruct (whileLoop _ _ fuel _) as [[h1|[pos1 h1]]|f|]; simpl;
    try discriminate.
  - intros Heq Hnot. inversion Heq; subst pos. contradiction.
  - intros Heq. inversion Heq; subst pos1 h1. exact Hsound.
Qed.

End LookupSoundness.

Section LookupDecides.
Context {defs : Defines} {dict : Dictionary}.
Variable navFuel : nat.




End LookupDecides.

(** ** Reverse reconstruction, for every dictionary *)

Section ReconstructionResults.
Context {defs : Defines} {dict : Dictionary}.

Lemma storedCodePoints_S (k : nat) :
  forall h : Helper,
    storedCodePoints (S k) h
    = storedCodePoints k h
      ++ reverse (getCodePoints (getPtNodeParams (parentChain k h))).
Proof.
  induction k as [|k IH]; intros h.
  - simpl. now rewrite app_nil_r.
  - change (storedCodePoints (S (S k)) h)
      with (reverse (getCodePoints (getPtNodeParams h))
            ++ storedCodePoints (S k)
                 (readParentNode h (getPtNodeParams h))).
    rewrite IH, app_assoc. reflexivity.
Qed.

Lemma reverseStoredCodePoints_no_OutOfFuel (buf : list (option Z)) (t : Z)
    (rest : list nat) :
  forall out : list Z, reverseStoredCodePoints buf t rest out <> OutOfFuel.
Proof.
  induction rest as [|i rest IH]; intros out; simpl; [discriminate|].
  destruct (readAt buf _) as [[c|]|]; simpl; try discriminate.
  destruct (writeAt out _ c); simpl; [apply IH|discriminate].
Qed.

(** One turn of the loop from a state the loop has reached. *)
Lemma reconstructTurn_ReconstructionAt (h : Helper) (maxCodePointCount : Z)
    (out : list Z) (k : nat) (s : Helper * list (option Z) * Z) :
  ReconstructionAt h maxCodePointCount k s ->
  isEnd (fst (fst s)) = false ->
  match reconstructTurn maxCodePointCount out s with
  | Ok (Next s') => ReconstructionAt h maxCodePointCount (S k) s'
  | Ok (Return r) => r = mkReconstruction 0 out NOT_A_PROBABILITY (fst (fst s))
  | _ => False
  end.
Proof.
  destruct s as [[h1 buf] t].
  intros (Hh & Hlen & Ht & Htake & Hcount & _) Hend. simpl in Hend.
  specialize (Hcount Hend).
  destruct (negb (isValid (getPtNodeParams h1))
            || (maxCodePointCount
                <? getTotalCodePointCount h1 (getPtNodeParams h1)))
    eqn:Hbad.
  { unfold reconstructTurn. cbv zeta. rewrite Hbad. reflexivity. }
  apply orb_false_iff in Hbad. destruct Hbad as [Hvalid Hfit].
  apply negb_false_iff in Hvalid. apply Z.ltb_ge in Hfit.
  assert (Hm : 0 <= getPrevTotalCodePointCount h1)
    by (unfold getPrevTotalCodePointCount; lia).
  assert (Hfit' : getTotalCodePointCount h1 (getPtNodeParams h1)
                  = t + Z.of_nat (getCodePointCount (getPtNodeParams h1)))
    by (unfold getTotalCodePointCount; lia).
  destruct (reconstructTurn_accepts maxCodePointCount out h1 buf t)
    as (buf1 & Hturn & Hlen1 & Hbuf1);
    [repeat split; assumption|exact Hm|lia|].
  rewrite Hturn.
  unfold getPrevTotalCodePointCount in Hbuf1.
  rewrite Hcount, Ht, Nat2Z.id, Htake in Hbuf1.
  unfold ReconstructionAt.
  rewrite parentChain_S, storedCodePoints_S, <- Hh.
  split; [reflexivity|]. split; [lia|].
  rewrite length_app, length_reverse.
  split; [unfold getCodePointCount in Hfit'; lia|].
  split.
  { rewrite Hbuf1, map_app, app_assoc.
    rewrite take_app_length'; [reflexivity|].
    now rewrite !length_app, !length_map, length_reverse. }
  split.
  - intros Hend'. unfold readParentNode in Hend' |- *.
    destruct (negb (getParentPos (getPtNodeParams h1) =? NOT_A_DICT_POS));
      simpl in Hend' |- *.
    + unfold getCodePointCount in *. lia.
    + unfold isEnd in Hend'. simpl in Hend'.
      rewrite Z.eqb_refl in Hend'. discriminate.
  - intros _. unfold getCodePointCount in *. lia.
Qed.

(** What the loop of lines 188-201 leaves behind from a cursor with nothing
    matched yet. *)
Lemma reconstruct_loop_outcome (fuel : nat) (h : Helper)
    (maxCodePointCount : Z) (out : list Z) :
  mTotalCodePointCountSinceInitialization (mReadingState h) = 0 ->
  isEnd h = false ->
  match whileLoop (fun s => negb (isEnd (fst (fst s))))
          (reconstructTurn maxCodePointCount out) fuel
          (h, replicate (Z.to_nat maxCodePointCount) None, 0) with
  | Ok (inl s) =>
    isEnd (fst (fst s)) = true
    /\ exists k, ReconstructionAt h maxCodePointCount k s
  | Ok (inr r) =>
    exists k,
      r = mkReconstruction 0 out NOT_A_PROBABILITY (parentChain k h)
  | Faulted _ => False
  | OutOfFuel => True
  end.
Proof.
  intros Hzero Hend.
  apply (whileLoop_post _ _
           (fun s => exists k, ReconstructionAt h maxCodePointCount k s)
           (fun o =>
              match o with
              | Ok (inl s) =>
                isEnd (fst (fst s)) = true
                /\ exists k, ReconstructionAt h maxCodePointCount k s
              | Ok (inr r) =>
                exists k,
                  r = mkReconstruction 0 out NOT_A_PROBABILITY
                        (parentChain k h)
              | Faulted _ => False
              | OutOfFuel => True
              end)).
  - intros s (k & Hat) Hcond. apply negb_true_iff in Hcond.
    pose proof (reconstructTurn_ReconstructionAt h maxCodePointCount out k s
                  Hat Hcond) as Hturn.
    destruct (reconstructTurn maxCodePointCount out s) as [[s'|s'|r]|f|];
      try contradiction.
    + exists (S k). exact Hturn.
    + exists k. destruct s as [[h1 buf] t]. destruct Hat as (Hh & _).
      simpl in Hturn. now rewrite <- Hh.
  - intros s Hat Hcond. apply negb_false_iff in Hcond. split; assumption.
  - exact I.
  - exists 0%nat. unfold ReconstructionAt. simpl.
    split; [reflexivity|]. split; [apply length_replicate|].
    split; [reflexivity|]. split; [now rewrite take_0|].
    split; [intros _; exact Hzero|]. intros Hend'. congruence.
Qed.

Lemma isValidTerminalNode_not_end (h : Helper) (p : PtNodeParams) :
  isValidTerminalNode h p = true -> isEnd h = false.
Proof.
  unfold isValidTerminalNode. destruct (isEnd h); [discriminate|reflexivity].
Qed.

(** What reverse reconstruction hands back, whatever the dictionary holds.
    From a cursor with nothing matched yet and with room for
    [maxCodePointCount] code points in the caller's array, a call that
    returns either fails (count zero, the no-probability sentinel, and the
    caller's array as it was), or it has walked some [k] records of the
    parent chain to its end without error and returns the number of their
    code points, which is at most [maxCodePointCount], the probability of
    the record it started on, and an array that holds the code points of
    those records, the topmost record first, followed by what the caller's
    array held there before. *)
Theorem reconstruction_result (fuel : nat) (h : Helper)
    (maxCodePointCount : Z) (out : list Z) (r : Reconstruction) :
  mTotalCodePointCountSinceInitialization (mReadingState h) = 0 ->
  maxCodePointCount <= Z.of_nat (length out) ->
  getCodePointsAndProbabilityAndReturnCodePointCount fuel h maxCodePointCount
    out = Ok r ->
  (codePointCount r = 0
   /\ outCodePoints r = out
   /\ outUnigramProbability r = NOT_A_PROBABILITY)
  \/ exists k : nat,
       rHelper r = parentChain k h
       /\ isEnd (rHelper r) = true
       /\ mIsError (rHelper r) = false
       /\ codePointCount r = Z.of_nat (length (storedCodePoints k h))
       /\ codePointCount r <= maxCodePointCount
       /\ outUnigramProbability r = getProbability (getPtNodeParams h)
       /\ outCodePoints r
          = reverse (storedCodePoints k h)
            ++ drop (length (storedCodePoints k h)) out.
Proof.
  intros Hzero Hroom.
  unfold getCodePointsAndProbabilityAndReturnCodePointCount.
  destruct (isValidTerminalNode h (getPtNodeParams h)) eqn:Hterm; simpl;
    [|intros Heq; inversion Heq; left; repeat split].
  pose proof (reconstruct_loop_outcome fuel h maxCodePointCount out Hzero
                (isValidTerminalNode_not_end _ _ Hterm)) as Hloop.
  destruct (whileLoop _ _ fuel _) as [[[[h1 buf] t]|r1]|f|]; simpl;
    try discriminate; try contradiction.
  - destruct Hloop as (Hend & k & Hh & Hlen & Ht & Htake & _ & Hfit).
    simpl in Hend. specialize (Hfit Hend).
    unfold isError. destruct (mIsError h1) eqn:Herr;
      [intros Heq; inversion Heq; left; repeat split|].
    rewrite Ht, Nat2Z.id.
    rewrite (reverseStoredCodePoints_reverses buf (storedCodePoints k h)
               (length (storedCodePoints k h)) 0 out)
      by (try assumption; lia).
    simpl. intros Heq. inversion Heq; subst r. simpl. right. exists k.
    split; [exact Hh|]. split; [exact Hend|]. split; [exact Herr|].
    split; [reflexivity|]. split; [lia|]. split; [reflexivity|].
    rewrite drop_0, take_ge by (rewrite length_reverse; lia). reflexivity.
  - destruct Hloop as (k & ->). intros Heq. inversion Heq; subst r.
    left. repeat split.
Qed.

(** Reverse reconstruction reads only what it has written.  From a cursor
    with nothing matched yet and with room for [maxCodePointCount] code
    points in the caller's array, no call reads or writes outside an array
    or reads a slot of its local array that it has not stored, whatever the
    dictionary holds. *)
Theorem reconstruction_never_faults (fuel : nat) (h : Helper)
    (maxCodePointCount : Z) (out : list Z) (f : Fault) :
  mTotalCodePointCountSinceInitialization (mReadingState h) = 0 ->
  maxCodePointCount <= Z.of_nat (length out) ->
  getCodePointsAndProbabilityAndReturnCodePointCount fuel h maxCodePointCount
    out <> Faulted f.
Proof.
  intros Hzero Hroom.
  unfold getCodePointsAndProbabilityAndReturnCodePointCount.
  destruct (isValidTerminalNode h (getPtNodeParams h)) eqn:Hterm; simpl;
    [|discriminate].
  pose proof (reconstruct_loop_outcome fuel h maxCodePointCount out Hzero
                (isValidTerminalNode_not_end _ _ Hterm)) as Hloop.
  destruct (whileLoop _ _ fuel _) as [[[[h1 buf] t]|r1]|f1|]; simpl;
    try discriminate; try contradiction.
  destruct Hloop as (Hend & k & Hh & Hlen & Ht & Htake & _ & Hfit).
  simpl in Hend. specialize (Hfit Hend).
  destruct (isError h1); [discriminate|].
  rewrite Ht, Nat2Z.id.
  rewrite (reverseStoredCodePoints_reverses buf (storedCodePoints k h)
             (length (storedCodePoints k h)) 0 out)
    by (try assumption; lia).
  discriminate.
Qed.

(** The loop of lines 188-201 ends within [m] turns once the matched count
    is within [m] of passing [maxCodePointCount], when every valid record
    carries a code point. *)
Lemma reconstruct_loop_returns (maxCodePointCount : Z) (out : list Z)
    (h : Helper) :
  (forall pos,
     isValid (fetchNodeInfoInBufferFromPtNodePos pos) = true ->
     (1 <= getCodePointCount (fetchNodeInfoInBufferFromPtNodePos pos))%nat) ->
  forall (m k : nat) (s : Helper * list (option Z) * Z),
    ReconstructionAt h maxCodePointCount k s ->
    maxCodePointCount - snd s < Z.of_nat m ->
    forall fuel, (m < fuel)%nat ->
      exists r,
        whileLoop (fun s => negb (isEnd (fst (fst s))))
          (reconstructTurn maxCodePointCount out) fuel s = Ok r.
Proof.
  intros Hrecords.
  induction m as [|m IH]; intros k s Hat Hleft fuel Hfuel;
    (destruct fuel as [|fuel]; [lia|]); rewrite whileLoop_S;
    destruct (isEnd (fst (fst s))) eqn:Hend; simpl negb; cbv iota;
    try (eexists; reflexivity);
    pose proof (reconstructTurn_ReconstructionAt h maxCodePointCount out k s
                  Hat Hend) as Hturn;
    destruct s as [[h1 buf] t]; simpl in Hend, Hleft;
    assert (Hparams : getPtNodeParams h1
                      = fetchNodeInfoInBufferFromPtNodePos
                          (mPos (mReadingState h1)))
      by (now apply getPtNodeParams_on_node);
    destruct Hat as (_ & _ & _ & _ & Hcount & _);
    specialize (Hcount Hend);
    unfold reconstructTurn in Hturn |- *; cbv zeta in Hturn |- *;
    destruct (isValid (getPtNodeParams h1)) eqn:Hvalid; simpl negb;
    simpl orb; cbv iota; try (eexists; reflexivity);
    simpl negb in Hturn; simpl orb in Hturn;
    (assert (Hone : (1 <= getCodePointCount (getPtNodeParams h1))%nat)
       by (rewrite Hparams in Hvalid |- *; now apply Hrecords));
    destruct (maxCodePointCount
              <? getTotalCodePointCount h1 (getPtNodeParams h1)) eqn:Hfit;
    try (eexists; reflexivity);
    apply Z.ltb_ge in Hfit; unfold getTotalCodePointCount in Hfit.
  - lia.
  - destruct (fetchMergedNodeCodePointsInReverseOrder _ _ _) as [buf1| |];
      simpl in Hturn |- *; try contradiction.
    apply (IH (S k)); [exact Hturn| |lia].
    simpl. unfold getTotalCodePointCount. lia.
Qed.

(** Reverse reconstruction returns on every dictionary whose valid records
    carry at least one code point, whatever its parent links are (even in a
    circle): from a cursor with nothing matched yet and with room for
    [maxCodePointCount] code points, [maxCodePointCount] and two turns of
    fuel are enough for a result. *)
Theorem reconstruction_returns (fuel : nat) (h : Helper)
    (maxCodePointCount : Z) (out : list Z) :
  mTotalCodePointCountSinceInitialization (mReadingState h) = 0 ->
  maxCodePointCount <= Z.of_nat (length out) ->
  (forall pos,
     isValid (fetchNodeInfoInBufferFromPtNodePos pos) = true ->
     (1 <= getCodePointCount (fetchNodeInfoInBufferFromPtNodePos pos))%nat) ->
  (Z.to_nat maxCodePointCount + 1 < fuel)%nat ->
  exists r,
    getCodePointsAndProbabilityAndReturnCodePointCount fuel h
      maxCodePointCount out = Ok r.
Proof.
  intros Hzero Hroom Hrecords Hfuel.
  unfold getCodePointsAndProbabilityAndReturnCodePointCount.
  destruct (isValidTerminalNode h (getPtNodeParams h)) eqn:Hterm; simpl;
    [|eexists; reflexivity].
  pose proof (isValidTerminalNode_not_end _ _ Hterm) as Hend0.
  pose proof (reconstruct_loop_outcome fuel h maxCodePointCount out Hzero
                Hend0) as Hloop.
  destruct (reconstruct_loop_returns maxCodePointCount out h Hrecords
              (Z.to_nat maxCodePointCount + 1) 0
              (h, replicate (Z.to_nat maxCodePointCount) None, 0))
    with (fuel := fuel) as (r0 & Hr0).
  { unfold ReconstructionAt. simpl.
    split; [reflexivity|]. split; [apply length_replicate|].
    split; [reflexivity|]. split; [now rewrite take_0|].
    split; [intros _; exact Hzero|]. intros Hend'. congruence. }
  { simpl. lia. }
  { exact Hfuel. }
  rewrite Hr0 in Hloop |- *. simpl.
  destruct r0 as [[[h1 buf] t]|r1]; [|eexists; reflexivity].
  destruct Hloop as (Hend & k & Hh & Hlen & Ht & Htake & _ & Hfit).
  simpl in Hend. specialize (Hfit Hend).
  destruct (isError h1); [eexists; reflexivity|].
  rewrite Ht, Nat2Z.id.
  rewrite (reverseStoredCodePoints_reverses buf (storedCodePoints k h)
             (length (storedCodePoints k h)) 0 out)
    by (try assumption; lia).
  simpl. eexists. reflexivity.
Qed.

End ReconstructionResults.

(** ** The further properties on the example trie *)

Lemma postorder_callbacks_witness :
  exists fuel0 : nat,
    forall fuel, (fuel0 <= fuel)%nat ->
      exists w : Walk unit,
        @traverseAllPtNodesInPostorderDepthFirstManner exampleDefines
          exampleDictionary unit silentListener fuel (@cursor exampleRoot) tt
        = Ok (true, w)
        /\ wEvents w = postorderTrace 0 exampleForest
        /\ wListener w = listenerAfter silentListener (wEvents w) tt
        /\ visitedPtNodes (wEvents w) = postorderNodes exampleForest.
Proof.
  apply (@postorder_callbacks exampleDefines exampleDictionary unit
           silentListener 5 0 exampleRoot exampleForest tt).
  - apply silentListener_neverStops.
  - apply exampleDictionary_wellFormed.
Defined.

Lemma preorder_callbacks_witness :
  exists fuel0 : nat,
    forall fuel, (fuel0 <= fuel)%nat ->
      exists w : Walk unit,
        @traverseAllPtNodesInPtNodeArrayLevelPreorderDepthFirstManner
          exampleDefines exampleDictionary unit silentListener fuel
          (@cursor exampleRoot) tt = Ok (true, w)
        /\ wEvents w = preorderTrace 0 exampleForest
        /\ wListener w = listenerAfter silentListener (wEvents w) tt
        /\ visitedPtNodes (wEvents w) = arrayLevelNodes exampleForest.
Proof.
  apply (@preorder_callbacks exampleDefines exampleDictionary unit
           silentListener 5 0 exampleRoot exampleForest tt).
  - apply silentListener_neverStops.
  - vm_compute. lia.
  - apply exampleDictionary_wellFormed.
Defined.

Lemma descents_and_ascents_witness :
  exists fuel0 : nat,
    forall fuel, (fuel0 <= fuel)%nat ->
      exists w1 w2 : Walk unit,
        @traverseAllPtNodesInPostorderDepthFirstManner exampleDefines
          exampleDictionary unit silentListener fuel (@cursor exampleRoot) tt
        = Ok (true, w1)
        /\ @traverseAllPtNodesInPtNodeArrayLevelPreorderDepthFirstManner
             exampleDefines exampleDictionary unit silentListener fuel
             (@cursor exampleRoot) tt = Ok (true, w2)
        /\ ascents (wEvents w1) = descents (wEvents w1)
        /\ ascents (wEvents w2) = (descents (wEvents w2) + 1)%nat.
Proof.
  apply (@descents_and_ascents exampleDefines exampleDictionary unit
           silentListener 5 0 exampleRoot exampleForest tt).
  - apply silentListener_neverStops.
  - vm_compute. lia.
  - apply exampleDictionary_wellFormed.
Defined.

(** The callbacks of the two traversals of the example trie, run. *)
Example example_callbacks :
  match
    @traverseAllPtNodesInPostorderDepthFirstManner exampleDefines
      exampleDictionary unit silentListener 20 (@cursor exampleRoot) tt,
    @traverseAllPtNodesInPtNodeArrayLevelPreorderDepthFirstManner
      exampleDefines exampleDictionary unit silentListener 20
      (@cursor exampleRoot) tt
  with
  | Ok (true, w1), Ok (true, w2) =>
    wEvents w1
    = [EvDescend 0; EvDescend 8; EvVisitingPtNode nodeB;
       EvVisitingPtNode nodeC; EvReadingPtNodeArrayTail; EvAscend;
       EvVisitingPtNode nodeA; EvVisitingPtNode nodeXYZ;
       EvReadingPtNodeArrayTail; EvAscend]
    /\ wEvents w2
       = [EvDescend 0; EvVisitingPtNode nodeA; EvVisitingPtNode nodeXYZ;
          EvReadingPtNodeArrayTail; EvDescend 8; EvVisitingPtNode nodeB;
          EvVisitingPtNode nodeC; EvReadingPtNodeArrayTail; EvAscend;
          EvAscend; EvAscend]
  | _, _ => False
  end.
Proof. vm_compute. split; reflexivity. Qed.

(** "ac" is found at 12, on the record of "c". *)
Lemma lookup_returns_a_matching_terminal_witness :
  12 = noPos
  \/ @MatchingTerminal exampleDefines exampleDictionary [97; 99] 12
       (@cursor exampleAtC).
Proof.
  apply (@lookup_returns_a_matching_terminal exampleDefines exampleDictionary
           20 (@cursor exampleRoot) [97; 99] 2 false 12 (@cursor exampleAtC)).
  - vm_compute. discriminate.
  - simpl. lia.
  - vm_compute. reflexivity.
Defined.

(** "AC", looked up with lower-casing, is found at the terminal of "ac". *)
Lemma lookup_finds_only_stored_words_witness :
  exists terminal,
    StoresWord exampleForest [97; 99] terminal /\ 12 = getHeadPos terminal.
Proof.
  apply (@lookup_finds_only_stored_words exampleDefines exampleDictionary 5
           0 exampleRoot exampleForest 20 [65; 67] 2 true 12
           (@cursor exampleAtC)).
  - apply exampleDictionary_wellFormed.
  - simpl. lia.
  - vm_compute. reflexivity.
  - vm_compute. discriminate.
Defined.


(** "ad" is not found. *)
Example example_lookup_of_a_missing_word :
  match
    @getTerminalPtNodePositionOfWord exampleDefines exampleDictionary 20
      (@cursor exampleRoot) [97; 100] 2 false
  with
  | Ok (pos, _) => pos = noPos
  | _ => False
  end.
Proof. vm_compute. reflexivity. Qed.

(** "ac", read back from its terminal at 12. *)
Lemma reconstruction_result_witness :
  let h := @initWithPtNodePos exampleDefines (@freshHelper exampleDefines) 12 in
  let r := mkReconstruction 2 [97; 99; 0] 30
             (@cursor (mkReadingState noPos 1 1 1 1 noPos noPos)) in
  (codePointCount r = 0
   /\ outCodePoints r = [0; 0; 0]
   /\ outUnigramProbability r = -1)
  \/ exists k : nat,
       rHelper r = @parentChain exampleDefines exampleDictionary k h
       /\ @isEnd exampleDefines (rHelper r) = true
       /\ mIsError (rHelper r) = false
       /\ codePointCount r
          = Z.of_nat (length (@storedCodePoints exampleDefines
                                exampleDictionary k h))
       /\ codePointCount r <= 2
       /\ outUnigramProbability r
          = getProbability (@getPtNodeParams exampleDefines exampleDictionary
                              h)
       /\ outCodePoints r
          = reverse (@storedCodePoints exampleDefines exampleDictionary k h)
            ++ drop (length (@storedCodePoints exampleDefines
                               exampleDictionary k h)) [0; 0; 0].
Proof.
  intros h r.
  apply (@reconstruction_result exampleDefines exampleDictionary 5 h 2
           [0; 0; 0] r).
  - reflexivity.
  - simpl. lia.
  - vm_compute. reflexivity.
Defined.

Lemma reconstruction_never_faults_witness :
  @getCodePointsAndProbabilityAndReturnCodePointCount exampleDefines
    exampleDictionary 5
    (@initWithPtNodePos exampleDefines (@freshHelper exampleDefines) 12) 2
    [0; 0; 0]
  <> Faulted ReverseBufferUninitialised.
Proof.
  apply (@reconstruction_never_faults exampleDefines exampleDictionary 5
           (@initWithPtNodePos exampleDefines (@freshHelper exampleDefines)
              12) 2 [0; 0; 0] ReverseBufferUninitialised).
  - reflexivity.
  - simpl. lia.
Defined.

Lemma exampleDictionary_records_carry_codePoints (pos : Z) :
  isValid (@fetchNodeInfoInBufferFromPtNodePos exampleDictionary pos) = true ->
  (1 <= getCodePointCount
          (@fetchNodeInfoInBufferFromPtNodePos exampleDictionary pos))%nat.
Proof.
  change (@fetchNodeInfoInBufferFromPtNodePos exampleDictionary pos)
    with (lookupPtNode [nodeA; nodeB; nodeC; nodeXYZ] pos).
  unfold lookupPtNode.
  repeat (destruct (getHeadPos _ =? pos); [intros _; vm_compute; lia|]).
  intros Hvalid. vm_compute in Hvalid. discriminate Hvalid.
Qed.

Lemma reconstruction_returns_witness :
  exists r,
    @getCodePointsAndProbabilityAndReturnCodePointCount exampleDefines
      exampleDictionary 5
      (@initWithPtNodePos exampleDefines (@freshHelper exampleDefines) 12) 2
      [0; 0; 0] = Ok r.
Proof.
  apply (@reconstruction_returns exampleDefines exampleDictionary 5
           (@initWithPtNodePos exampleDefines (@freshHelper exampleDefines)
              12) 2 [0; 0; 0]).
  - reflexivity.
  - simpl. lia.
  - apply exampleDictionary_records_carry_codePoints.
  - simpl. lia.
Defined.

(** ** The lookup comes to an end on every dictionary *)

Section LookupTermination.
Context {defs : Defines} {dict : Dictionary}.











End LookupTermination.


(** ** A child array without nodes, on every dictionary *)

Section EmptyChildArray.
Context {defs : Defines} {dict : Dictionary}.
Context {L : Type} (listener : TraversingEventListener L).
Hypothesis listener_goes_on : neverStops listener.

(** The post-order traversal ends in the first empty child array.  When
    the loop of lines 42-82, after any number of turns, stands on a valid
    node with its children still to come, the node has children, and the
    move to them (lines 53-54) leaves the cursor at the end (the child
    array chain holds no node, or the move raised the error flag), then the
    loop is left at line 42: the traversal delivers [onDescend] of the
    children position and the closing [onAscend], visits neither that node
    nor any node after it, and returns [true] unless the error flag is
    up. *)
Theorem postorder_ends_in_an_empty_child_array (fuel n : nat) (h : Helper)
    (l : L) (w : Walk L) (h' : Helper) :
  let p := getPtNodeParams (wHelper w) in
  Turns (fun s => negb (isEnd (wHelper (fst s))))
    (postorderTurn listener fuel) n
    (walkOn listener (mkWalk h l []) h
       [EvDescend (getPosOfLastPtNodeArrayHead h)], false)
    (w, false) ->
  isEnd (wHelper w) = false ->
  isValid p = true ->
  hasChildren p = true ->
  readChildNode fuel (pushReadingStateToStack (wHelper w)) p = Some h' ->
  isEnd h' = true ->
  (n + 2 <= fuel)%nat ->
  traverseAllPtNodesInPostorderDepthFirstManner listener fuel h l
  = Ok (negb (mIsError h'),
        walkOn listener w h' [EvDescend (getChildrenPos p); EvAscend]).
Proof.
  intros p Hrun Hon Hvalid Hkids Hchild Hend Hfuel.
  unfold traverseAllPtNodesInPostorderDepthFirstManner.
  rewrite (notify_goes_on _ listener_goes_on). simpl negb. cbv iota.
  change (mkWalk (wHelper (mkWalk h l []))
            (snd (deliver listener
                    (EvDescend (getPosOfLastPtNodeArrayHead
                                  (wHelper (mkWalk h l []))))
                    (wListener (mkWalk h l []))))
            (wEvents (mkWalk h l [])
             ++ [EvDescend (getPosOfLastPtNodeArrayHead
                              (wHelper (mkWalk h l [])))]))
    with (walkOn listener (mkWalk h l []) h
            [EvDescend (getPosOfLastPtNodeArrayHead h)]).
  rewrite (whileLoop_Turns_le _ _ _ _ _ _ Hrun) by lia.
  rewrite whileLoop_S. simpl fst. rewrite Hon. simpl negb. cbv iota.
  rewrite (postorderTurn_descend _ listener_goes_on) by assumption.
  fold p. rewrite Hchild. simpl.
  replace (fuel - n - 1)%nat with (S (fuel - n - 2)) by lia.
  rewrite whileLoop_S. simpl fst. simpl wHelper. rewrite Hend. simpl.
  unfold ascendToRoot. rewrite (notify_goes_on _ listener_goes_on).
  simpl. unfold isError. do 2 f_equal.
  unfold walkOn. simpl. rewrite <- app_assoc. reflexivity.
Qed.

End EmptyChildArray.

Section EmptyChildArrayPreorder.
Context {defs : Defines} {dict : Dictionary}.
Context {L : Type} (listener : TraversingEventListener L).
Hypothesis listener_goes_on : neverStops listener.

(** The array-level pre-order traversal ends in the first empty child
    array as well.  When the loop of lines 110-163, started on a root
    array that has nodes, stands after any number of turns on a valid node
    whose array has been visited and whose children are still to come, the
    node has children, and the move to them (lines 139-142) leaves the
    cursor at the end (the child array chain holds no node, or the move
    raised the error flag), then the loop is left at line 110: the traversal
    delivers [onDescend] of the children position and the closing
    [onAscend], no tail callback for the empty array, visits no node below
    the siblings that come after this one, and returns [true] unless the
    error flag is up. *)
Theorem preorder_ends_in_an_empty_child_array (fuel n : nat) (h : Helper)
    (l : L) (w : Walk L) (h' : Helper) :
  let p := getPtNodeParams (wHelper w) in
  let hEnd := popReadingStateFromStack (pushReadingStateToStack h') in
  isEnd h = false ->
  Turns (fun s => negb (isEnd (wHelper (fst (fst s)))))
    (preorderTurn listener fuel) n
    (walkOn listener (mkWalk h l []) (pushReadingStateToStack h)
       [EvDescend (getPosOfLastPtNodeArrayHead h)], false, false)
    (w, true, false) ->
  isEnd (wHelper w) = false ->
  isValid p = true ->
  hasChildren p = true ->
  readChildNode fuel (pushReadingStateToStack (wHelper w)) p = Some h' ->
  isEnd h' = true ->
  (n + 2 <= fuel)%nat ->
  traverseAllPtNodesInPtNodeArrayLevelPreorderDepthFirstManner listener
    fuel h l
  = Ok (negb (mIsError hEnd),
        walkOn listener w hEnd [EvDescend (getChildrenPos p); EvAscend]).
Proof.
  intros p hEnd Hroot Hrun Hon Hvalid Hkids Hchild Hend Hfuel.
  unfold traverseAllPtNodesInPtNodeArrayLevelPreorderDepthFirstManner,
    preorderEnter.
  rewrite (notify_goes_on _ listener_goes_on). simpl negb. cbv iota.
  simpl wHelper. rewrite Hroot.
  change (setHelper (mkWalk h (snd (deliver listener
                    (EvDescend (getPosOfLastPtNodeArrayHead h))
                    (wListener (mkWalk h l []))))
            (wEvents (mkWalk h l [])
             ++ [EvDescend (getPosOfLastPtNodeArrayHead h)]))
            (pushReadingStateToStack h))
    with (walkOn listener (mkWalk h l []) (pushReadingStateToStack h)
            [EvDescend (getPosOfLastPtNodeArrayHead h)]).
  rewrite (whileLoop_Turns_le _ _ _ _ _ _ Hrun) by lia.
  rewrite whileLoop_S. simpl fst. rewrite Hon. simpl negb. cbv iota.
  rewrite (preorderTurn_descend _ listener_goes_on) by assumption.
  fold p. rewrite Hchild. simpl.
  replace (fuel - n - 1)%nat with (S (fuel - n - 2)) by lia.
  rewrite whileLoop_S. simpl fst. simpl wHelper.
  rewrite (pushReadingStateToStack_isEnd _ Hend). simpl.
  unfold ascendToRoot. rewrite (notify_goes_on _ listener_goes_on).
  simpl. unfold isError. fold hEnd. do 2 f_equal.
  unfold walkOn. simpl. rewrite <- app_assoc. reflexivity.
Qed.

End EmptyChildArrayPreorder.

(** On the dictionary with the empty child array the post-order traversal
    ends at its first node, "a". *)
Lemma postorder_ends_in_an_empty_child_array_witness :
  @traverseAllPtNodesInPostorderDepthFirstManner exampleDefines
    emptyChildArrayDictionary unit silentListener 2 (@cursor emptyChildRoot)
    tt
  = Ok (true,
        mkWalk
          (mkHelper false (mkReadingState noPos 0 1 0 1 13 12)
             [emptyChildRoot])
          tt [EvDescend 0; EvDescend 12; EvAscend]).
Proof.
  apply (@postorder_ends_in_an_empty_child_array exampleDefines
           emptyChildArrayDictionary unit silentListener
           silentListener_neverStops 2 0 (@cursor emptyChildRoot) tt
           (mkWalk (@cursor emptyChildRoot) tt [EvDescend 0])
           (mkHelper false (mkReadingState noPos 0 1 0 1 13 12)
              [emptyChildRoot])).
  - constructor.
  - vm_compute. reflexivity.
  - vm_compute. reflexivity.
  - vm_compute. reflexivity.
  - vm_compute. reflexivity.
  - vm_compute. reflexivity.
  - lia.
Defined.

(** There the array-level pre-order traversal has visited "a" and "b" when
    it comes back to "a", two turns into its loop, and ends. *)
Lemma preorder_ends_in_an_empty_child_array_witness :
  @traverseAllPtNodesInPtNodeArrayLevelPreorderDepthFirstManner
    exampleDefines emptyChildArrayDictionary unit silentListener 4
    (@cursor emptyChildRoot) tt
  = Ok (true,
        mkWalk
          (mkHelper false (mkReadingState noPos 0 1 0 1 13 12)
             [emptyChildRoot])
          tt
          [EvDescend 0; EvVisitingPtNode emptyChildNodeA;
           EvVisitingPtNode emptyChildNodeB; EvReadingPtNodeArrayTail;
           EvDescend 12; EvAscend]).
Proof.
  apply (@preorder_ends_in_an_empty_child_array exampleDefines
           emptyChildArrayDictionary unit silentListener
           silentListener_neverStops 4 2 (@cursor emptyChildRoot) tt
           (mkWalk (mkHelper false emptyChildRoot []) tt
              [EvDescend 0; EvVisitingPtNode emptyChildNodeA;
               EvVisitingPtNode emptyChildNodeB; EvReadingPtNodeArrayTail])
           (mkHelper false (mkReadingState noPos 0 1 0 1 13 12)
              [emptyChildRoot])).
  - vm_compute. reflexivity.
  - eapply Turns_S; [reflexivity | vm_compute; reflexivity |].
    eapply Turns_S; [reflexivity | vm_compute; reflexivity |].
    constructor.
  - vm_compute. reflexivity.
  - vm_compute. reflexivity.
  - vm_compute. reflexivity.
  - vm_compute. reflexivity.
  - vm_compute. reflexivity.
  - lia.
Defined.
